(** * Headless LiveSync: the storage adapter and the storage event manager

    A shallow embedding of
    - [src/modules/coreNode/ModuleFileAccessNode.ts]  (module [FileAccess]),
    - [src/modules/coreNode/storageLib/StorageEventManagerNode.ts]
      (modules [Watcher] for the poll loop and [Dispatcher] for the queue),
    followed by the properties of the change-detection engine.

    Conventions.  JavaScript numbers that the code only adds, subtracts and
    compares (clock readings of [Date.now()], sizes, modification times) are
    integers in [Z].  A JavaScript [Map] is an association list kept in
    insertion order ([JsMap]).  A call that may throw returns [Res]. *)

From Stdlib Require Import ZArith List String Ascii Bool Lia DecimalString.
From Stdlib Require Import Arith PeanoNat Permutation Sorted.
From AAC_tactics Require Import AAC Instances.
Import ListNotations.
Open Scope Z_scope.
Open Scope string_scope.

Set Implicit Arguments.

(* ------------------------------------------------------------------ *)
(** ** JavaScript [Map] with string keys, in insertion order *)

Module JsMap.

Definition t (V : Type) := list (string * V).

Definition empty {V} : t V := [].

Fixpoint get {V} (m : t V) (k : string) : option V :=
match m with
| [] => None
| (k', v) :: r => if String.eqb k' k then Some v else get r k
end.

Definition has {V} (m : t V) (k : string) : bool :=
match get m k with Some _ => true | None => false end.

(** [set] overwrites in place when the key is present and appends when
  it is not, which is the iteration order a JavaScript [Map] keeps. *)
Fixpoint set {V} (m : t V) (k : string) (v : V) : t V :=
match m with
| [] => [(k, v)]
| (k', v') :: r =>
    if String.eqb k' k then (k', v) :: r else (k', v') :: set r k v
end.

Fixpoint delete {V} (m : t V) (k : string) : t V :=
match m with
| [] => []
| (k', v') :: r =>
    if String.eqb k' k then delete r k else (k', v') :: delete r k
end.

Definition keys {V} (m : t V) : list string := map fst m.
Definition values {V} (m : t V) : list V := map snd m.
Definition entries {V} (m : t V) : list (string * V) := m.

End JsMap.

(* ------------------------------------------------------------------ *)
(** ** Results of calls that may throw *)

Inductive Res (A : Type) : Type :=
| Returned (a : A)
| Threw (e : string).
Arguments Returned {A} a.
Arguments Threw {A} e.

Definition bindRes {A B} (r : Res A) (k : A -> Res B) : Res B :=
  match r with
  | Returned a => k a
  | Threw e => Threw e
  end.

(** [try { body } catch { handler }] *)
Definition tryCatch {A} (body : Res A) (handler : string -> Res A) : Res A :=
  match body with
  | Returned a => Returned a
  | Threw e => handler e
  end.

Notation "x <- c ;; k" := (bindRes c (fun x => k))
  (at level 61, c at next level, right associativity).

(* ------------------------------------------------------------------ *)
(** ** SHA-1 ([crypto.createHash("sha1")]), on 32-bit words in [Z] *)

Module Sha1.

Definition w32 (x : Z) : Z := x mod 4294967296.

Definition rotl (n x : Z) : Z :=
w32 (Z.lor (Z.shiftl x n) (Z.shiftr x (32 - n))).

Definition bnot (x : Z) : Z := Z.lxor x 4294967295.

Definition bytesOf (s : string) : list Z :=
map (fun c => Z.of_nat (nat_of_ascii c)) (list_ascii_of_string s).

Definition be32 (x : Z) : list Z :=
[Z.shiftr x 24 mod 256; Z.shiftr x 16 mod 256; Z.shiftr x 8 mod 256; x mod 256].

(** Message padding: a 1 bit, zeros up to 56 mod 64, the bit length on
  64 bits, big-endian. *)
Definition pad (msg : list Z) : list Z :=
let len := Z.of_nat (List.length msg) in
let k := Z.to_nat ((55 - len) mod 64) in
let bits := 8 * len in
msg ++ [128] ++ repeat 0 k ++ be32 (Z.shiftr bits 32) ++ be32 (w32 bits).

Fixpoint toWords (n : nat) (bs : list Z) : list Z :=
match n with
| O => []
| S n' =>
    match bs with
    | a :: b :: c :: d :: r =>
        (Z.shiftl a 24 + Z.shiftl b 16 + Z.shiftl c 8 + d) :: toWords n' r
    | _ => []
    end
end.

(** The message schedule, newest word first. *)
Fixpoint schedule (n : nat) (ws : list Z) : list Z :=
match n with
| O => ws
| S n' =>
    let x := Z.lxor (Z.lxor (nth 2 ws 0) (nth 7 ws 0))
                    (Z.lxor (nth 13 ws 0) (nth 15 ws 0)) in
    schedule n' (rotl 1 x :: ws)
end.

Definition f (t : nat) (b c d : Z) : Z :=
if (t <? 20)%nat then Z.lor (Z.land b c) (Z.land (bnot b) d)
else if (t <? 40)%nat then Z.lxor (Z.lxor b c) d
else if (t <? 60)%nat then
  Z.lor (Z.lor (Z.land b c) (Z.land b d)) (Z.land c d)
else Z.lxor (Z.lxor b c) d.

Definition K (t : nat) : Z :=
if (t <? 20)%nat then 1518500249
else if (t <? 40)%nat then 1859775393
else if (t <? 60)%nat then 2400959708
else 3395469782.

Definition H5 : Type := (Z * Z * Z * Z * Z)%type.

Fixpoint rounds (t : nat) (ws : list Z) (h : H5) : H5 :=
match ws with
| [] => h
| w :: r =>
    let '(a, b, c, d, e) := h in
    let temp := w32 (rotl 5 a + f t b c d + e + K t + w) in
    rounds (S t) r (temp, a, rotl 30 b, c, d)
end.

Definition compress (h : H5) (block : list Z) : H5 :=
let ws := rev (schedule 64 (rev (toWords 16 block))) in
let '(a, b, c, d, e) := rounds 0 ws h in
let '(h0, h1, h2, h3, h4) := h in
(w32 (h0 + a), w32 (h1 + b), w32 (h2 + c), w32 (h3 + d), w32 (h4 + e)).

Fixpoint blocks (n : nat) (bs : list Z) (h : H5) : H5 :=
match n with
| O => h
| S n' => blocks n' (skipn 64 bs) (compress h (firstn 64 bs))
end.

Definition init : H5 :=
(1732584193, 4023233417, 2562383102, 271733878, 3285377520).

Definition digest (s : string) : H5 :=
let p := pad (bytesOf s) in
blocks (Nat.div (List.length p) 64) p init.

Definition hexDigit (x : Z) : ascii :=
nth (Z.to_nat x)
    (list_ascii_of_string "0123456789abcdef") "0"%char.

Definition hex32 (x : Z) : string :=
string_of_list_ascii
  (map (fun i => hexDigit (Z.shiftr x (4 * i) mod 16)) [7; 6; 5; 4; 3; 2; 1; 0]).

(** [.digest("hex")] *)
Definition hex (s : string) : string :=
let '(a, b, c, d, e) := digest s in
hex32 a ++ hex32 b ++ hex32 c ++ hex32 d ++ hex32 e.

End Sha1.

(* ------------------------------------------------------------------ *)
(** ** String helpers: what the code uses of [String.prototype] and of
       [node:path] (POSIX flavour) *)

Module Str.

Definition slash : ascii := "/"%char.
Definition backslash : ascii := "\"%char.

(** [s.replace(/\\/g, "/")] *)
Fixpoint replaceBackslashes (s : string) : string :=
match s with
| EmptyString => EmptyString
| String c r =>
    String (if Ascii.eqb c backslash then slash else c) (replaceBackslashes r)
end.

(** [s.replace(/^\/+/, "")] *)
Fixpoint stripLeadingSlashes (s : string) : string :=
match s with
| String c r => if Ascii.eqb c slash then stripLeadingSlashes r else s
| EmptyString => EmptyString
end.

(** [s.replace(/\//g, "__")] *)
Fixpoint replaceSlashes (s : string) : string :=
match s with
| EmptyString => EmptyString
| String c r =>
    if Ascii.eqb c slash then String "_" (String "_" (replaceSlashes r))
    else String c (replaceSlashes r)
end.

(** [s.split("/")], never empty. *)
Fixpoint split (s : string) : list string :=
match s with
| EmptyString => [EmptyString]
| String c r =>
    if Ascii.eqb c slash then EmptyString :: split r
    else match split r with
         | seg :: segs => String c seg :: segs
         | [] => [String c EmptyString]
         end
end.

Fixpoint joinWith (sep : string) (l : list string) : string :=
match l with
| [] => EmptyString
| [x] => x
| x :: r => x ++ sep ++ joinWith sep r
end.

Definition isEmpty (s : string) : bool :=
match s with EmptyString => true | _ => false end.

Definition startsWithSlash (s : string) : bool :=
match s with String c _ => Ascii.eqb c slash | _ => false end.

Definition endsWithSlash (s : string) : bool :=
match List.last (split s) "x" with EmptyString => negb (isEmpty s) | _ => false end.

(** The segment walk of [normalizeString]: empty and [.] segments are
  dropped, [..] removes the segment before it when there is one. *)
Fixpoint normSegs (allowAboveRoot : bool) (acc : list string) (segs : list string)
: list string :=
match segs with
| [] => List.rev acc
| seg :: r =>
    if isEmpty seg || String.eqb seg "." then normSegs allowAboveRoot acc r
    else if String.eqb seg ".." then
      match acc with
      | top :: acc' =>
          if String.eqb top ".."
          then normSegs allowAboveRoot (seg :: acc) r
          else normSegs allowAboveRoot acc' r
      | [] =>
          if allowAboveRoot then normSegs allowAboveRoot [seg] r
          else normSegs allowAboveRoot [] r
      end
    else normSegs allowAboveRoot (seg :: acc) r
end.

(** [path.posix.normalize] *)
Definition normalize (p : string) : string :=
if isEmpty p then "."
else
  let isAbsolute := startsWithSlash p in
  let trailing := endsWithSlash p in
  let body := joinWith "/" (normSegs (negb isAbsolute) [] (split p)) in
  if isEmpty body then
    (if isAbsolute then "/" else if trailing then "./" else ".")
  else
    let body' := if trailing then body ++ "/" else body in
    if isAbsolute then "/" ++ body' else body'.

(** [path.join(a, b)] *)
Definition join (a b : string) : string :=
match filter (fun s => negb (isEmpty s)) [a; b] with
| [] => "."
| parts => normalize (joinWith "/" parts)
end.

(** [path.posix.basename(p)] *)
Definition basename (p : string) : string :=
List.last (filter (fun s => negb (isEmpty s)) (split p)) EmptyString.

(** [String(n)] for an integer [n] *)
Definition ofInt (n : Z) : string := NilZero.string_of_int (Z.to_int n).

(** [s.slice(0, n)] *)
Fixpoint take (n : nat) (s : string) : string :=
match n, s with
| S n', String c r => String c (take n' r)
| _, _ => EmptyString
end.

End Str.

(* ------------------------------------------------------------------ *)
(** ** File metadata ([UXStat], [UXFileInfoStub]) and [fs.Stats] *)

Inductive StatType := TFile | TFolder.

Record UXStat := mkUXStat {
  ux_ctime : Z;
  ux_mtime : Z;
  ux_size : Z;
  ux_type : StatType
}.

Record UXFileInfoStub := mkStub {
  stub_name : string;
  stub_path : string;
  stub_stat : UXStat;
  stub_deleted : bool
}.

(** What the code reads of a [node:fs] [Stats] object. *)
Record Stats := mkStats {
  st_isFile : bool;
  st_isDirectory : bool;
  st_size : Z;
  st_ctimeMs : Z;
  st_mtimeMs : Z
}.

(** The [node:fs] calls the adapter makes, over a world [W] of
    filesystem states.  Every call may throw. *)
Record NodeFs (W : Type) := mkNodeFs {
  fs_stat : W -> string -> Res Stats;
  fs_rename : W -> string -> string -> Res W;
  (** [fs.mkdir(dir, { recursive: true })] *)
  fs_mkdir : W -> string -> Res W;
  (** [fs.rm(p, { recursive, force: true })] *)
  fs_rm : W -> string -> bool -> Res W
}.

(* ------------------------------------------------------------------ *)
(** ** [ModuleFileAccessNode] *)

Module FileAccess.

(** [normalizeVaultRelative] *)
Definition normalizeVaultRelative (p : string) : string :=
Str.stripLeadingSlashes (Str.replaceBackslashes p).

(** The time-to-live of a touched marker, the literal of [recentlyTouched]. *)
Definition touchedTtlMs : Z := 5000.

(** [touchedMap]: path to the clock reading of [touched]. *)
Definition TouchedMap := JsMap.t Z.

(** [touched(file)], with [now] the reading of [Date.now()]. *)
Definition touched (tm : TouchedMap) (now : Z) (p : string) : TouchedMap :=
JsMap.set tm p now.

(** [recentlyTouched(file)]: [!t] holds of [undefined] and of [0]. *)
Definition recentlyTouched (tm : TouchedMap) (now : Z) (p : string) : bool :=
match JsMap.get tm p with
| None => false
| Some t => if (t =? 0)%Z then false else (now - t <? touchedTtlMs)%Z
end.

Definition clearTouched (tm : TouchedMap) : TouchedMap := JsMap.empty.

(** The destination name of [trash], relative to the trash directory. *)
Definition trashHash (rel : string) (now : Z) : string :=
Str.take 8 (Sha1.hex (rel ++ ":" ++ Str.ofInt now)).

Definition trashDestRel (rel : string) (now : Z) : string :=
Str.replaceSlashes rel ++ "." ++ trashHash rel now.

Section WithFs.
Variable W : Type.
Variable fs : NodeFs W.
Variable vaultDir : string.
Variable dataDir : string.

Definition trashDir : string := Str.join dataDir "trash".

Definition abs (rel : string) : string :=
Str.join vaultDir (normalizeVaultRelative rel).

(** [stat] *)
Definition stat (w : W) (pathRel : string) : Res (option UXStat) :=
let rel := normalizeVaultRelative pathRel in
tryCatch
(st <- fs_stat fs w (abs rel) ;;
 if negb (st_isFile st) then Returned None
 else Returned (Some (mkUXStat (st_ctimeMs st) (st_mtimeMs st) (st_size st) TFile)))
(fun _ => Returned None).

(** [isExists] *)
Definition isExists (w : W) (pathRel : string) : Res bool :=
let rel := normalizeVaultRelative pathRel in
tryCatch
(st <- fs_stat fs w (abs rel) ;; Returned (st_isFile st))
(fun _ => Returned false).

(** [getFileStub], on [fs.statSync] *)
Definition getFileStub (w : W) (pathRel : string) : Res (option UXFileInfoStub) :=
let rel := normalizeVaultRelative pathRel in
let a := abs rel in
tryCatch
(st <- fs_stat fs w a ;;
 if negb (st_isFile st) then Returned None
 else
   let name := Str.basename rel in
   Returned (Some (mkStub name rel
                     (mkUXStat (st_ctimeMs st) (st_mtimeMs st) (st_size st) TFile)
                     false)))
(fun _ => Returned None).

(** [delete(file, force)] *)
Definition delete (w : W) (file : string) (force : bool) : Res W :=
let rel := normalizeVaultRelative file in
let a := abs rel in
tryCatch
(st <- fs_stat fs w a ;;
 if st_isDirectory st then fs_rm fs w a true else fs_rm fs w a false)
(fun _ => if negb force then Threw ("File not found: " ++ rel) else Returned w).

(** [trash(file, _system)], with [now] the reading of [Date.now()]. *)
Definition trash (w : W) (now : Z) (file : string) : Res W :=
let rel := normalizeVaultRelative file in
let a := abs rel in
let destRel := trashDestRel rel now in
let dest := Str.join trashDir destRel in
w1 <- fs_mkdir fs w trashDir ;;
tryCatch
(fs_rename fs w1 a dest)
(fun _ => delete w1 rel true).

End WithFs.

End FileAccess.

(* ------------------------------------------------------------------ *)
(** ** Events and queue items ([FileEvent], [FileEventItem]) *)

Inductive FileEventType := CREATE | CHANGED | DELETE | INTERNAL.

Definition isCreateOrChanged (t : FileEventType) : bool :=
  match t with CREATE | CHANGED => true | _ => false end.

Definition isInternal (t : FileEventType) : bool :=
  match t with INTERNAL => true | _ => false end.

Record FileEvent := mkFileEvent {
  ev_type : FileEventType;
  ev_file : UXFileInfoStub;
  ev_oldPath : option string;
  ev_cachedData : option string;
  ev_skipBatchWait : option bool
}.

(** The item [appendQueue] hands to [enqueue]: [{ type, args: { file,
    oldPath, cache, ctx }, skipBatchWait, key }]. *)
Record QueueItem := mkQueueItem {
  qi_type : FileEventType;
  qi_file : UXFileInfoStub;
  qi_oldPath : option string;
  qi_cache : option string;
  qi_skipBatchWait : option bool;
  qi_key : string
}.

(** [item.args.file.path] *)
Definition filename (i : QueueItem) : string := stub_path (qi_file i).

(* ------------------------------------------------------------------ *)
(** ** The event queue of [StorageEventManagerNode]

    [runQueuedEvents] is an [async] function: between two [await]s its code
    runs without interruption.  Each such stretch is one [Action] of the
    machine below, and a run is any sequence of enabled actions, so every
    schedule of the JavaScript event loop is a run of the machine. *)

Module Dispatcher.

(** One invocation of [runQueuedEvents] past its [shift()]: the item and
  the identity of its [canProceed] promise. *)
Record Task := mkTask {
t_id : nat;
t_item : QueueItem
}.

Definition taskFile (t : Task) : string := filename (t_item t).

Inductive Obs :=
| OMarkFileListPossiblyChanged
| OPushed (item : QueueItem)
| OShifted (t : Task)
| OStart (t : Task)                 (* processFileEvent(item) is called *)
| OEnd (t : Task) (ok : bool)       (* it resolved (true) or rejected (false) *)
| OResolved (t : Task) (v : bool)   (* wait.resolve(v) *)
| OLog (msg : string)
| OIdleCalled (k : nat) (handles : list nat)
| OIdleResolved (k : nat).

Record State := mkState {
bufferedQueuedItems : list QueueItem;
(** [waitingMap]: path to the [canProceed] promise registered last *)
waitingMap : JsMap.t nat;
(** the callers of [concurrentProcessing.acquire()] not yet admitted,
    oldest first, and the number of slots taken *)
semWaiting : list Task;
semHeld : nat;
(** inside [serialized(`process-${filename}`, ...)], not yet started,
    in order of arrival *)
lockWaiting : list Task;
(** [processFileEvent] in flight *)
processing : list Task;
(** [processFileEvent] settled, the code after the [await] still to run *)
finishing : list (Task * bool);
(** [canProceed] promises that were resolved, with their value *)
resolved : list (Task * bool);
nextTask : nat;
randomDraws : nat;
(** [waitForIdle()] calls that have not resolved: the promises each awaits *)
idleWaits : list (nat * list nat);
nextIdle : nat;
(** what happened so far, newest first *)
trace : list Obs
}.

Definition init : State :=
mkState [] JsMap.empty [] 0 [] [] [] [] 0 0 [] 0 [].

(** [Semaphore(5)] *)
Definition concurrencyLimit : nat := 5.

Definition log (o : Obs) (s : State) : State :=
mkState (bufferedQueuedItems s) (waitingMap s) (semWaiting s) (semHeld s)
        (lockWaiting s) (processing s) (finishing s) (resolved s)
        (nextTask s) (randomDraws s) (idleWaits s) (nextIdle s)
        (o :: trace s).

(** [isWaiting(filename)] *)
Definition isWaiting (s : State) (file : string) : bool :=
JsMap.has (waitingMap s) file.

(** [runQueuedEvents] up to [await this.concurrentProcessing.acquire()]. *)
Definition runQueuedEvents (s : State) : State :=
match bufferedQueuedItems s with
| [] => s
| item :: rest =>
    let t := mkTask (nextTask s) item in
    mkState rest
            (JsMap.set (waitingMap s) (filename item) (t_id t))
            (semWaiting s ++ [t])%list (semHeld s)
            (lockWaiting s) (processing s) (finishing s) (resolved s)
            (S (nextTask s)) (randomDraws s) (idleWaits s) (nextIdle s)
            (OShifted t :: trace s)
end.

(** Modelled from the spec: [fireAndForget(f)] is imported from
  octagonal-wheels.  It calls [f] and drops the promise [f] returns, so
  that [f] runs at once up to its first [await]; this is how the spec's
  dispatch loop is "triggered by queue non-emptiness" and "re-armed
  after each drained item". *)
Definition fireAndForget (f : State -> State) (s : State) : State := f s.

(** [enqueue(newItem)] *)
Definition enqueue (item : QueueItem) (s : State) : State :=
fireAndForget runQueuedEvents
  (mkState (bufferedQueuedItems s ++ [item])%list (waitingMap s)
           (semWaiting s) (semHeld s) (lockWaiting s) (processing s)
           (finishing s) (resolved s) (nextTask s) (randomDraws s)
           (idleWaits s) (nextIdle s) (OPushed item :: trace s)).

Definition sameFile (file : string) (t : Task) : bool :=
String.eqb (taskFile t) file.

Fixpoint removeTask (id : nat) (l : list Task) : list Task :=
match l with
| [] => []
| t :: r => if Nat.eqb (t_id t) id then r else t :: removeTask id r
end.

Fixpoint findTask (id : nat) (l : list Task) : option Task :=
match l with
| [] => None
| t :: r => if Nat.eqb (t_id t) id then Some t else findTask id r
end.

Fixpoint removeFinishing (id : nat) (l : list (Task * bool)) : list (Task * bool) :=
match l with
| [] => []
| (t, b) :: r => if Nat.eqb (t_id t) id then r else (t, b) :: removeFinishing id r
end.

Fixpoint findFinishing (id : nat) (l : list (Task * bool)) : option (Task * bool) :=
match l with
| [] => None
| (t, b) :: r => if Nat.eqb (t_id t) id then Some (t, b) else findFinishing id r
end.

(** The first task queued on the key of [file] in [serialized]. *)
Definition headOfKey (file : string) (l : list Task) : option Task :=
List.find (sameFile file) l.

Definition isResolved (s : State) (h : nat) : bool :=
existsb (fun tb => Nat.eqb (t_id (fst tb)) h) (resolved s).

Fixpoint lookupIdle (k : nat) (l : list (nat * list nat)) : option (list nat) :=
match l with
| [] => None
| (k', hs) :: r => if Nat.eqb k' k then Some hs else lookupIdle k r
end.

Definition removeIdle (k : nat) (l : list (nat * list nat)) : list (nat * list nat) :=
filter (fun e => negb (Nat.eqb (fst e) k)) l.

(** Modelled from the spec: [Semaphore(limit)] is imported from the
  package octagonal-wheels, which is not among the sources.  The spec
  has the dispatcher acquire "one of [concurrency] (default 5) dispatch
  slots" and never run more consumer calls than that at once: a call of
  [acquire()] takes a slot when fewer than [limit] are taken, and the
  callers that wait are admitted oldest first.  The result is the
  admitted caller and the callers still waiting. *)
Definition semaphoreAdmit (limit held : nat) (waiting : list Task)
: option (Task * list Task) :=
match waiting with
| t :: rest => if Nat.ltb held limit then Some (t, rest) else None
| [] => None
end.

(** Modelled from the spec: [serialized(key, proc)] is imported from
  octagonal-wheels too.  It is the spec's per-path exclusive scope,
  which runs [proc] "with a guarantee that no other exclusive scope for
  the same path runs concurrently"; the callers queued on one key are
  started in order of arrival.  [waiting] are the callers inside
  [serialized] in order of arrival, [running] those whose [proc] runs;
  the result is the task numbered [id] when its [proc] may start. *)
Definition serializedStart (id : nat) (waiting running : list Task)
: option Task :=
match findTask id waiting with
| Some t =>
    if existsb (sameFile (taskFile t)) running then None
    else
      match headOfKey (taskFile t) waiting with
      | Some h => if Nat.eqb (t_id h) id then Some t else None
      | None => None
      end
| None => None
end.

(** What the [try], [catch] and [finally] of [runQueuedEvents] add to the
  trace once [serialized] settled with [ok]. *)
Definition settleTrace (t : Task) (ok : bool) (tr : list Obs) : list Obs :=
if ok then OResolved t true :: tr
else OResolved t false
     :: OLog ("Failed to process file event: " ++ taskFile t) :: tr.

Inductive Action :=
| AEnqueue (item : QueueItem)
(** the semaphore admits its oldest waiter, which calls [serialized] *)
| AGrant
(** [serialized] starts the callback of task [id] *)
| ABegin (id : nat)
(** [processFileEvent] of task [id] resolves ([ok]) or rejects *)
| AFinish (id : nat) (ok : bool)
(** task [id] runs from [wait.resolve] to the end of [runQueuedEvents] *)
| AResume (id : nat)
| AWaitForIdle
(** [Promise.all(waits)] of [waitForIdle] call [k] resolves *)
| AIdleDone (k : nat).

Section Step.
(** The number of slots of the semaphore. *)
Variable limit : nat.

Definition step (s : State) (a : Action) : option State :=
match a with
| AEnqueue item => Some (enqueue item s)
| AGrant =>
  (* const release = await this.concurrentProcessing.acquire();
     then the task calls serialized(`process-${filename}`, ...) *)
  match semaphoreAdmit limit (semHeld s) (semWaiting s) with
  | Some (t, rest) =>
      Some (mkState (bufferedQueuedItems s) (waitingMap s)
                    rest (S (semHeld s))
                    (lockWaiting s ++ [t])%list (processing s)
                    (finishing s) (resolved s) (nextTask s)
                    (randomDraws s) (idleWaits s) (nextIdle s) (trace s))
  | None => None
  end
| ABegin id =>
  (* await this.core.services.fileProcessing.processFileEvent(item) *)
  match serializedStart id (lockWaiting s) (processing s) with
  | Some t =>
      Some (mkState (bufferedQueuedItems s) (waitingMap s)
                    (semWaiting s) (semHeld s)
                    (removeTask id (lockWaiting s))
                    (processing s ++ [t])%list
                    (finishing s) (resolved s) (nextTask s)
                    (randomDraws s) (idleWaits s) (nextIdle s)
                    (OStart t :: trace s))
  | None => None
  end
| AFinish id ok =>
  match findTask id (processing s) with
  | Some t =>
      Some (mkState (bufferedQueuedItems s) (waitingMap s)
                    (semWaiting s) (semHeld s) (lockWaiting s)
                    (removeTask id (processing s))
                    (finishing s ++ [(t, ok)])%list
                    (resolved s) (nextTask s)
                    (randomDraws s) (idleWaits s) (nextIdle s)
                    (OEnd t ok :: trace s))
  | None => None
  end
| AResume id =>
  match findFinishing id (finishing s) with
  | Some (t, ok) =>
      (* try: wait.resolve(true); catch: Logger, wait.resolve(false);
         finally: waitingMap.delete(filename), release() *)
      let tr := settleTrace t ok (trace s) in
      let s1 := mkState (bufferedQueuedItems s)
                        (JsMap.delete (waitingMap s) (taskFile t))
                        (semWaiting s) (Nat.pred (semHeld s))
                        (lockWaiting s) (processing s)
                        (removeFinishing id (finishing s))
                        ((t, ok) :: resolved s) (nextTask s)
                        (randomDraws s) (idleWaits s) (nextIdle s) tr in
      (* if (this.bufferedQueuedItems.length)
           fireAndForget(() => this.runQueuedEvents()) *)
      Some (fireAndForget runQueuedEvents s1)
  | None => None
  end
| AWaitForIdle =>
  let hs := JsMap.values (waitingMap s) in
  Some (mkState (bufferedQueuedItems s) (waitingMap s)
                (semWaiting s) (semHeld s) (lockWaiting s) (processing s)
                (finishing s) (resolved s) (nextTask s) (randomDraws s)
                ((nextIdle s, hs) :: idleWaits s) (S (nextIdle s))
                (OIdleCalled (nextIdle s) hs :: trace s))
| AIdleDone k =>
  match lookupIdle k (idleWaits s) with
  | Some hs =>
      if forallb (isResolved s) hs then
        Some (mkState (bufferedQueuedItems s) (waitingMap s)
                      (semWaiting s) (semHeld s) (lockWaiting s)
                      (processing s) (finishing s) (resolved s)
                      (nextTask s) (randomDraws s)
                      (removeIdle k (idleWaits s)) (nextIdle s)
                      (OIdleResolved k :: trace s))
      else None
  | None => None
  end
end.

Fixpoint run (s : State) (acts : list Action) : option State :=
match acts with
| [] => Some s
| a :: r =>
  match step s a with
  | Some s' => run s' r
  | None => None
  end
end.

End Step.

(** *** [appendQueue] *)

(** The settings and services [appendQueue] consults. *)
Record Services := mkServices {
isConfigured : bool;
suspendFileWatching : bool;
shouldBeIgnored : string -> bool;
isFileSizeTooLarge : Z -> bool;
(** [await vault.isTargetFile(path)]; it may reject *)
isTargetFile : string -> Res bool;
(** [Math.random().toString(36).slice(2)], by number of draws so far *)
randomKey : nat -> string
}.

(** What a call of [appendQueue] sees: the services, the touched map of
  the storage adapter and, for each path, the reading of [Date.now()]
  inside [recentlyTouched]. *)
Record QueueEnv := mkQueueEnv {
services : Services;
touchedMap : FileAccess.TouchedMap;
touchedCheckAt : string -> Z
}.

Definition drawKey (sv : Services) (s : State) : string * State :=
(randomKey sv (randomDraws s),
 mkState (bufferedQueuedItems s) (waitingMap s) (semWaiting s) (semHeld s)
         (lockWaiting s) (processing s) (finishing s) (resolved s)
         (nextTask s) (S (randomDraws s)) (idleWaits s) (nextIdle s)
         (trace s)).

(** The body of [for (const param of params)].  The state comes back
  also when [isTargetFile] rejects: what was enqueued stays enqueued. *)
Fixpoint appendParams (env : QueueEnv) (params : list FileEvent) (s : State)
: State * Res unit :=
match params with
| [] => (s, Returned tt)
| param :: rest =>
    let sv := services env in
    let file := ev_file param in
    let type := ev_type param in
    if shouldBeIgnored sv (stub_path file) then appendParams env rest s
    else if negb (isInternal type)
            && (isFileSizeTooLarge sv (ux_size (stub_stat file))
                && isCreateOrChanged type)
    then appendParams env rest s
    else
      match isTargetFile sv (stub_path file) with
      | Threw e => (s, Threw e)
      | Returned false => appendParams env rest s
      | Returned true =>
          if isCreateOrChanged type
             && FileAccess.recentlyTouched (touchedMap env)
                  (touchedCheckAt env (stub_path file)) (stub_path file)
          then appendParams env rest s
          else
            let '(atomicKey, s1) := drawKey sv s in
            let item := mkQueueItem type file (ev_oldPath param)
                                    (ev_cachedData param)
                                    (ev_skipBatchWait param) atomicKey in
            appendParams env rest (enqueue item s1)
      end
end.

(** [appendQueue(params, ctx)] *)
Definition appendQueue (env : QueueEnv) (params : list FileEvent) (s : State)
: State * Res unit :=
if negb (isConfigured (services env)) then (s, Returned tt)
else if suspendFileWatching (services env) then (s, Returned tt)
else appendParams env params (log OMarkFileListPossiblyChanged s).

End Dispatcher.

(* ------------------------------------------------------------------ *)
(** ** The poll loop of [StorageEventManagerNode] *)

Module Watcher.

Local Open Scope Z_scope.

(** A snapshot entry: [{ mtimeMs, size }]. *)
Record Info := mkInfo {
mtimeMs : Z;
size : Z
}.

Inductive Kind := KCreate | KChanged.

Definition kindType (k : Kind) : FileEventType :=
match k with KCreate => CREATE | KChanged => CHANGED end.

Record PendingWrite := mkPending {
kind : Kind;
lastMtimeMs : Z;
lastSize : Z;
lastChangeAt : Z;
firstSeenAt : Z
}.

Record Config := mkConfig {
scanIntervalMs : Z;
awaitWriteFinishMs : Z;
minCreateHoldMsForEmptyFile : Z
}.

(** The defaults of the constructor and of the field initialiser. *)
Definition defaultConfig : Config := mkConfig 750 1000 15000.

(** The places where one tick reads [Date.now()]. *)
Inductive ClockSite :=
| DeletedCtime (p : string)
| DeletedMtime (p : string)
| ChangeSeen (p : string)       (* lastChangeAt: Date.now() of the diff *)
| FirstSeen (p : string)        (* firstSeenAt: Date.now() *)
| FlushNow.                     (* const now = Date.now() *)

(** What one tick observes of the world: the [StorageAccess] it was
  given, the clock, and what [appendQueue] sees. *)
Record TickEnv := mkTickEnv {
getFiles : Res (list UXFileInfoStub);
getFileStub : string -> option UXFileInfoStub;
dateNow : ClockSite -> Z;
queueEnv : Dispatcher.QueueEnv;
(** whether [stop()] is called while the loop sleeps after this tick *)
stopCalled : bool
}.

Record Engine := mkEngine {
snapshot : JsMap.t Info;
pendingWrites : JsMap.t PendingWrite;
running : bool;
queue : Dispatcher.State
}.

Definition initial : Engine :=
mkEngine JsMap.empty JsMap.empty false Dispatcher.init.

(** [_scanSnapshot], on the list [getFiles()] returned. *)
Definition _scanSnapshot (files : list UXFileInfoStub) : JsMap.t Info :=
fold_left
  (fun snap f =>
     JsMap.set snap (stub_path f)
               (mkInfo (ux_mtime (stub_stat f)) (ux_size (stub_stat f))))
  files JsMap.empty.

Definition differs (mtime sz : Z) (info : Info) : bool :=
negb (Z.eqb mtime (mtimeMs info)) || negb (Z.eqb sz (size info)).

(** [p.split("/").pop() || p] *)
Definition lastSegmentOr (p : string) : string :=
let seg := List.last (Str.split p) EmptyString in
if Str.isEmpty seg then p else seg.

Definition deletedStub (env : TickEnv) (p : string) (prevInfo : Info)
: UXFileInfoStub :=
mkStub (lastSegmentOr p) p
       (mkUXStat (dateNow env (DeletedCtime p)) (dateNow env (DeletedMtime p))
                 (size prevInfo) TFile)
       true.

Definition deleteEvent (env : TickEnv) (p : string) (prevInfo : Info) : FileEvent :=
mkFileEvent DELETE (deletedStub env p prevInfo) None None (Some true).

(** "detect deletions": returns the queue, the events handed to
  [appendQueue] so far (oldest first) and whether a call rejected. *)
Fixpoint detectDeletions (env : TickEnv) (next : JsMap.t Info)
       (prev : list (string * Info)) (q : Dispatcher.State)
: Dispatcher.State * list FileEvent * Res unit :=
match prev with
| [] => (q, [], Returned tt)
| (p, prevInfo) :: rest =>
    if negb (JsMap.has next p) then
      let ev := deleteEvent env p prevInfo in
      match Dispatcher.appendQueue (queueEnv env) [ev] q with
      | (q1, Threw e) => (q1, [ev], Threw e)
      | (q1, Returned _) =>
          let '(q2, evs, r) := detectDeletions env next rest q1 in
          (q2, ev :: evs, r)
      end
    else detectDeletions env next rest q
end.

(** The body of "detect creates/changes" for one entry of [next]. *)
Definition detectOne (env : TickEnv) (prev : JsMap.t Info)
         (pw : JsMap.t PendingWrite) (entry : string * Info)
: JsMap.t PendingWrite :=
let '(p, info) := entry in
match JsMap.get prev p with
| None =>
    match JsMap.get pw p with
    | Some existing =>
        let k := match kind existing with KCreate => KCreate | KChanged => KCreate end in
        if differs (lastMtimeMs existing) (lastSize existing) info then
          JsMap.set pw p (mkPending k (mtimeMs info) (size info)
                                    (dateNow env (ChangeSeen p))
                                    (firstSeenAt existing))
        else
          JsMap.set pw p (mkPending k (lastMtimeMs existing) (lastSize existing)
                                    (lastChangeAt existing) (firstSeenAt existing))
    | None =>
        JsMap.set pw p (mkPending KCreate (mtimeMs info) (size info)
                                  (dateNow env (ChangeSeen p))
                                  (dateNow env (FirstSeen p)))
    end
| Some prevInfo =>
    if differs (mtimeMs prevInfo) (size prevInfo) info then
      match JsMap.get pw p with
      | Some existing =>
          if differs (lastMtimeMs existing) (lastSize existing) info then
            JsMap.set pw p (mkPending (kind existing) (mtimeMs info) (size info)
                                      (dateNow env (ChangeSeen p))
                                      (firstSeenAt existing))
          else pw
      | None =>
          JsMap.set pw p (mkPending KChanged (mtimeMs info) (size info)
                                    (dateNow env (ChangeSeen p))
                                    (dateNow env (FirstSeen p)))
      end
    else pw
end.

Definition detectChanges (env : TickEnv) (prev next : JsMap.t Info)
         (pw : JsMap.t PendingWrite) : JsMap.t PendingWrite :=
fold_left (detectOne env prev) (JsMap.entries next) pw.

(** What "flush stable pending writes" decides for one entry. *)
Inductive FlushDecision :=
| Vanished                              (* !cur: delete, continue *)
| StillChanging (w' : PendingWrite)     (* changed again: update, continue *)
| Waiting                               (* quiet window not over *)
| HeldEmpty                             (* empty CREATE inside the hold *)
| Release.                              (* stable long enough: emit *)

Definition isEmptyCreate (w : PendingWrite) : bool :=
match kind w with KCreate => Z.eqb (lastSize w) 0 | KChanged => false end.

Definition flushDecision (cfg : Config) (next : JsMap.t Info) (now : Z)
         (p : string) (w : PendingWrite) : FlushDecision :=
match JsMap.get next p with
| None => Vanished
| Some cur =>
    if negb (Z.eqb (mtimeMs cur) (lastMtimeMs w))
       || negb (Z.eqb (size cur) (lastSize w))
    then StillChanging (mkPending (kind w) (mtimeMs cur) (size cur) now
                                  (firstSeenAt w))
    else if Z.geb (now - lastChangeAt w) (awaitWriteFinishMs cfg) then
      if isEmptyCreate w
         && Z.ltb (now - firstSeenAt w) (minCreateHoldMsForEmptyFile cfg)
      then HeldEmpty
      else Release
    else Waiting
end.

Definition releaseEvent (w : PendingWrite) (stub : UXFileInfoStub) : FileEvent :=
mkFileEvent (kindType (kind w)) stub None None None.

(** "flush stable pending writes", over the entries of [pendingWrites]
  in iteration order.  Returns the entries that remain. *)
Fixpoint flushPending (cfg : Config) (env : TickEnv) (next : JsMap.t Info)
       (now : Z) (ws : list (string * PendingWrite)) (q : Dispatcher.State)
: list (string * PendingWrite) * Dispatcher.State * list FileEvent * Res unit :=
match ws with
| [] => ([], q, [], Returned tt)
| (p, w) :: rest =>
    match flushDecision cfg next now p w with
    | Vanished => flushPending cfg env next now rest q
    | StillChanging w' =>
        let '(ws', q', evs, r) := flushPending cfg env next now rest q in
        ((p, w') :: ws', q', evs, r)
    | Waiting | HeldEmpty =>
        let '(ws', q', evs, r) := flushPending cfg env next now rest q in
        ((p, w) :: ws', q', evs, r)
    | Release =>
        match getFileStub env p with
        | Some stub =>
            let ev := releaseEvent w stub in
            match Dispatcher.appendQueue (queueEnv env) [ev] q with
            | (q1, Threw e) => ((p, w) :: rest, q1, [ev], Threw e)
            | (q1, Returned _) =>
                let '(ws', q', evs, r) := flushPending cfg env next now rest q1 in
                (ws', q', ev :: evs, r)
            end
        | None => flushPending cfg env next now rest q
        end
    end
end.

(** What one tick leaves behind besides the state. *)
Record TickLog := mkTickLog {
(** the events handed to [appendQueue], oldest first *)
submitted : list FileEvent;
(** the error the [catch] of the loop body caught, if any *)
caught : option string
}.

(** The body of [try { ... } catch (e) { ... }] in [_pollLoop]. *)
Definition pollTick (cfg : Config) (env : TickEnv) (e : Engine)
: Engine * TickLog :=
match getFiles env with
| Threw err => (e, mkTickLog [] (Some err))
| Returned files =>
    let next := _scanSnapshot files in
    let prev := snapshot e in
    match detectDeletions env next (JsMap.entries prev) (queue e) with
    | (q1, dels, Threw err) =>
        (mkEngine prev (pendingWrites e) (running e) q1,
         mkTickLog dels (Some err))
    | (q1, dels, Returned _) =>
        let pw1 := detectChanges env prev next (pendingWrites e) in
        let now := dateNow env FlushNow in
        match flushPending cfg env next now (JsMap.entries pw1) q1 with
        | (pw2, q2, evs, Threw err) =>
            (mkEngine prev pw2 (running e) q2,
             mkTickLog (dels ++ evs)%list (Some err))
        | (pw2, q2, evs, Returned _) =>
            (mkEngine next pw2 (running e) q2,
             mkTickLog (dels ++ evs)%list None)
        end
    end
end.

(** What [_pollLoop] does, in order. *)
Inductive LoopObs :=
| Ticked (log : TickLog)
| Logged (msg : string)
| Slept (ms : Z).

Definition afterSleep (env : TickEnv) (e : Engine) : Engine :=
if stopCalled env
then mkEngine (snapshot e) (pendingWrites e) false (queue e)
else e.

(** [_pollLoop]: one element of [envs] per iteration of
  [while (this.running)]. *)
Fixpoint _pollLoop (cfg : Config) (envs : list TickEnv) (e : Engine)
: Engine * list LoopObs :=
match envs with
| [] => (e, [])
| env :: rest =>
    if running e then
      let '(e1, lg) := pollTick cfg env e in
      let logged := match caught lg with
                    | Some err => [Logged "Watcher poll failed"; Logged err]
                    | None => []
                    end in
      let '(e2, obs) := _pollLoop cfg rest (afterSleep env e1) in
      (e2, (Ticked lg :: logged ++ Slept (scanIntervalMs cfg) :: obs)%list)
    else (e, [])
end.

(** [restoreState] and [beginWatch], up to the start of the loop. *)
Definition restoreState (files : list UXFileInfoStub) (e : Engine) : Engine :=
mkEngine (_scanSnapshot files) (pendingWrites e) (running e) (queue e).

Definition beginWatch (files : list UXFileInfoStub) (e : Engine) : Engine :=
let e1 := restoreState files e in
mkEngine (snapshot e1) (pendingWrites e1) true (queue e1).

Definition stop (e : Engine) : Engine :=
mkEngine (snapshot e) (pendingWrites e) false (queue e).

(** The same tick with another touched map in the storage adapter. *)
Definition withTouched (tm : FileAccess.TouchedMap) (env : TickEnv) : TickEnv :=
mkTickEnv (getFiles env) (getFileStub env) (dateNow env)
          (Dispatcher.mkQueueEnv (Dispatcher.services (queueEnv env)) tm
                                 (Dispatcher.touchedCheckAt (queueEnv env)))
          (stopCalled env).

(** The events of a list that concern path [p]. *)
Definition eventsFor (p : string) (evs : list FileEvent) : list FileEvent :=
filter (fun ev => String.eqb (stub_path (ev_file ev)) p) evs.

End Watcher.

(* ------------------------------------------------------------------ *)
(** ** A small in-memory filesystem, used by the examples *)

Module MemFs.

(** Absolute path to the [Stats] of the node there. *)
Definition World := JsMap.t Stats.

Definition fileStats (sz mtime : Z) : Stats := mkStats true false sz mtime mtime.
Definition dirStats : Stats := mkStats false true 4096 0 0.

Definition stat (w : World) (p : string) : Res Stats :=
match JsMap.get w p with
| Some st => Returned st
| None => Threw "ENOENT"
end.

Definition rename (w : World) (src dst : string) : Res World :=
match JsMap.get w src with
| Some st => Returned (JsMap.set (JsMap.delete w src) dst st)
| None => Threw "ENOENT"
end.

Definition mkdir (w : World) (d : string) : Res World :=
match JsMap.get w d with
| Some st => if st_isDirectory st then Returned w else Threw "EEXIST"
| None => Returned (JsMap.set w d dirStats)
end.

Definition rm (w : World) (p : string) (recursive : bool) : Res World :=
Returned (JsMap.delete w p).

Definition fs : NodeFs World := mkNodeFs stat rename mkdir rm.

(** A filesystem whose [rename] always fails, as across devices. *)
Definition fsCrossDevice : NodeFs World :=
mkNodeFs stat (fun _ _ _ => Threw "EXDEV") mkdir rm.

End MemFs.

(* ------------------------------------------------------------------ *)
(** ** Sample data, used by the examples *)

Module Sample.

Definition fileStub (p : string) (sz mtime : Z) : UXFileInfoStub :=
mkStub (Str.basename p) p (mkUXStat mtime mtime sz TFile) false.

(** Configured, watching, every path a target, no size limit. *)
Definition acceptAll : Dispatcher.Services :=
Dispatcher.mkServices true false (fun _ => false) (fun _ => false)
                      (fun _ => Returned true) (fun n => Str.ofInt (Z.of_nat n)).

Definition unconfigured : Dispatcher.Services :=
Dispatcher.mkServices false false (fun _ => false) (fun _ => false)
                      (fun _ => Returned true) (fun n => Str.ofInt (Z.of_nat n)).

(** A queue environment with an empty touched map and a constant clock. *)
Definition quietQueue (sv : Dispatcher.Services) (now : Z) : Dispatcher.QueueEnv :=
Dispatcher.mkQueueEnv sv JsMap.empty (fun _ => now).

Definition changedEvent (p : string) (sz mtime : Z) : FileEvent :=
mkFileEvent CHANGED (fileStub p sz mtime) None None None.

Definition item (p : string) : QueueItem :=
mkQueueItem CHANGED (fileStub p 1 1) None None None "k".

(** A tick that sees the files [files] at clock reading [now]. *)
Definition tickAt (sv : Dispatcher.Services) (now : Z)
         (files : list UXFileInfoStub) : Watcher.TickEnv :=
Watcher.mkTickEnv
  (Returned files)
  (fun p => List.find (fun f => String.eqb (stub_path f) p) files)
  (fun _ => now)
  (quietQueue sv now)
  false.

(** A tick whose enumeration of the vault throws. *)
Definition failingTick (now : Z) : Watcher.TickEnv :=
Watcher.mkTickEnv (Threw "EACCES") (fun _ => None) (fun _ => now)
                  (quietQueue acceptAll now) false.

End Sample.

(* ------------------------------------------------------------------ *)
(** ** One path through a tick

    What a tick does to one path depends on that path alone: on its entry
    in the previous snapshot, its pending write, and what the tick sees
    of it.  The functions below say what; the lemmas of [TickFacts] prove
    that [pollTick] agrees with them. *)

Module PathView.
Import Watcher.

(** [appendQueue] does not reject in this tick: [isTargetFile] resolves. *)
Definition noReject (env : TickEnv) : Prop :=
forall p e,
  Dispatcher.isTargetFile (Dispatcher.services (queueEnv env)) p <> Threw e.

(** [getFileStub(p)] answers with a stub of path [p], as the adapter does
  for a normalised path. *)
Definition faithfulStubs (env : TickEnv) : Prop :=
forall q s, getFileStub env q = Some s -> stub_path s = q.

(** What the scan of this tick holds for [p]. *)
Definition seen (env : TickEnv) (p : string) : option Info :=
match getFiles env with
| Returned files => JsMap.get (_scanSnapshot files) p
| Threw _ => None
end.

(** The tick runs to its end: the enumeration returns and [appendQueue]
  does not reject. *)
Definition completes (env : TickEnv) : Prop :=
(exists files, getFiles env = Returned files)
/\ noReject env /\ faithfulStubs env.

(** [getFileStub(p)] finds the file, with size [sz]. *)
Definition stubSize (env : TickEnv) (p : string) (sz : Z) : Prop :=
exists stub, getFileStub env p = Some stub /\ ux_size (stub_stat stub) = sz.

Definition wf (e : Engine) : Prop :=
NoDup (JsMap.keys (snapshot e)) /\ NoDup (JsMap.keys (pendingWrites e)).

(** The pending write of [p] after "detect creates/changes", when the
  scan holds [info] for it. *)
Definition detectEntry (env : TickEnv) (prevInfo : option Info)
         (existing : option PendingWrite) (p : string) (info : Info)
: option PendingWrite :=
match prevInfo with
| None =>
    match existing with
    | Some ex =>
        if differs (lastMtimeMs ex) (lastSize ex) info then
          Some (mkPending KCreate (mtimeMs info) (size info)
                          (dateNow env (ChangeSeen p)) (firstSeenAt ex))
        else
          Some (mkPending KCreate (lastMtimeMs ex) (lastSize ex)
                          (lastChangeAt ex) (firstSeenAt ex))
    | None =>
        Some (mkPending KCreate (mtimeMs info) (size info)
                        (dateNow env (ChangeSeen p)) (dateNow env (FirstSeen p)))
    end
| Some prevInfo =>
    if differs (mtimeMs prevInfo) (size prevInfo) info then
      match existing with
      | Some ex =>
          if differs (lastMtimeMs ex) (lastSize ex) info then
            Some (mkPending (kind ex) (mtimeMs info) (size info)
                            (dateNow env (ChangeSeen p)) (firstSeenAt ex))
          else Some ex
      | None =>
          Some (mkPending KChanged (mtimeMs info) (size info)
                          (dateNow env (ChangeSeen p)) (dateNow env (FirstSeen p)))
      end
    else existing
end.

Definition pathDetect (env : TickEnv) (prevInfo : option Info)
         (existing : option PendingWrite) (p : string) (cur : option Info)
: option PendingWrite :=
match cur with
| Some info => detectEntry env prevInfo existing p info
| None => existing
end.

(** [flushDecision], on what the scan holds for the path. *)
Definition decisionOn (cfg : Config) (cur : option Info) (now : Z)
         (w : PendingWrite) : FlushDecision :=
match cur with
| None => Vanished
| Some cur =>
    if negb (Z.eqb (mtimeMs cur) (lastMtimeMs w))
       || negb (Z.eqb (size cur) (lastSize w))
    then StillChanging (mkPending (kind w) (mtimeMs cur) (size cur) now
                                  (firstSeenAt w))
    else if Z.geb (now - lastChangeAt w) (awaitWriteFinishMs cfg) then
      if isEmptyCreate w
         && Z.ltb (now - firstSeenAt w) (minCreateHoldMsForEmptyFile cfg)
      then HeldEmpty
      else Release
    else Waiting
end.

(** The kind a path gets when it enters the pending table. *)
Definition entryKind (prevInfo : option Info) : Kind :=
match prevInfo with None => KCreate | Some _ => KChanged end.

(** The flush releases a pending write that is unchanged in the scan:
  the quiet window is over and the hold on empty creations does not
  apply. *)
Definition due (cfg : Config) (now : Z) (w : PendingWrite) : bool :=
Z.geb (now - lastChangeAt w) (awaitWriteFinishMs cfg)
&& negb (isEmptyCreate w
         && Z.ltb (now - firstSeenAt w) (minCreateHoldMsForEmptyFile cfg)).

Definition pendingAfterFlush (cfg : Config) (cur : option Info) (now : Z)
         (w : option PendingWrite) : option PendingWrite :=
match w with
| None => None
| Some w =>
    match decisionOn cfg cur now w with
    | Vanished | Release => None
    | StillChanging w' => Some w'
    | Waiting | HeldEmpty => Some w
    end
end.

Definition releasedBy (cfg : Config) (env : TickEnv) (cur : option Info)
         (now : Z) (p : string) (w : option PendingWrite) : list FileEvent :=
match w with
| None => []
| Some w =>
    match decisionOn cfg cur now w with
    | Release =>
        match getFileStub env p with
        | Some stub => [releaseEvent w stub]
        | None => []
        end
    | _ => []
    end
end.

Definition deletedBy (env : TickEnv) (p : string) (prevInfo cur : option Info)
: list FileEvent :=
match prevInfo, cur with
| Some i, None => [deleteEvent env p i]
| _, _ => []
end.

(** The parts of a tick's intermediate results that are not the queue. *)
Definition delsOf (r : Dispatcher.State * list FileEvent * Res unit) :=
(snd (fst r), snd r).

Definition flushOf
(r : list (string * PendingWrite) * Dispatcher.State * list FileEvent * Res unit) :=
(fst (fst (fst r)), snd (fst r), snd r).

(** What the loop handed to [appendQueue], oldest first. *)
Definition loopSubmitted (obs : list LoopObs) : list FileEvent :=
flat_map (fun o => match o with Ticked lg => submitted lg | _ => [] end) obs.

(** The same events, each with the reading [now] of the tick that handed
  it over. *)
Fixpoint releasedAt (cfg : Config) (envs : list TickEnv) (e : Engine)
: list (Z * FileEvent) :=
match envs with
| [] => []
| env :: rest =>
    if running e then
      (map (pair (dateNow env FlushNow)) (submitted (snd (pollTick cfg env e)))
       ++ releasedAt cfg rest (afterSleep env (fst (pollTick cfg env e))))%list
    else []
end.

Definition timedFor (p : string) (l : list (Z * FileEvent)) : list (Z * FileEvent) :=
filter (fun te => String.eqb (stub_path (ev_file (snd te))) p) l.

End PathView.

(** A file that is created and gone one tick later. *)
Module ShortLived.

Definition watching : Watcher.Engine := Watcher.beginWatch [] Watcher.initial.

Definition createTick : Watcher.TickEnv :=
Sample.tickAt Sample.acceptAll 0 [Sample.fileStub "a.md" 3 1].

Definition goneTick : Watcher.TickEnv := Sample.tickAt Sample.acceptAll 750 [].

Definition afterCreate : Watcher.Engine * Watcher.TickLog :=
Watcher.pollTick Watcher.defaultConfig createTick watching.

Definition afterGone : Watcher.Engine * Watcher.TickLog :=
Watcher.pollTick Watcher.defaultConfig goneTick (fst afterCreate).

End ShortLived.

(** An empty file that stays empty, and a file that is written twice. *)
Module Scenario.

Definition watching : Watcher.Engine := Watcher.beginWatch [] Watcher.initial.

Definition emptyAt (now : Z) : Watcher.TickEnv :=
Sample.tickAt Sample.acceptAll now [Sample.fileStub "a.md" 0 1].

Definition firstWrite : Watcher.TickEnv :=
Sample.tickAt Sample.acceptAll 0 [Sample.fileStub "a.md" 3 1].

Definition secondWriteAt (now : Z) : Watcher.TickEnv :=
Sample.tickAt Sample.acceptAll now [Sample.fileStub "a.md" 5 2].

End Scenario.

(* ------------------------------------------------------------------ *)
(** ** Views of the state of the queue, used to state its properties *)

Module QueueView.
Import Dispatcher.

(** Every task created so far, by where it stands. *)
Definition started (s : State) : list Task :=
(processing s ++ map fst (finishing s) ++ map fst (resolved s))%list.

Definition ended (s : State) : list Task :=
(map fst (finishing s) ++ map fst (resolved s))%list.

Definition allTasks (s : State) : list Task :=
(semWaiting s ++ lockWaiting s ++ started s)%list.

(** The tasks whose [runQueuedEvents] has not run to its end. *)
Definition live (s : State) : list Task :=
(semWaiting s ++ lockWaiting s ++ processing s ++ map fst (finishing s))%list.

(** The tasks of a trace in the order of their [shift()], oldest first. *)
Fixpoint shiftedOf (tr : list Obs) : list Task :=
match tr with
| [] => []
| OShifted t :: r => (shiftedOf r ++ [t])%list
| _ :: r => shiftedOf r
end.

(** The items of a trace in the order of their [push], oldest first. *)
Fixpoint pushedOf (tr : list Obs) : list QueueItem :=
match tr with
| [] => []
| OPushed i :: r => (pushedOf r ++ [i])%list
| _ :: r => pushedOf r
end.

(** The items of the [enqueue] calls of a run, in order. *)
Fixpoint enqueuedItems (acts : list Action) : list QueueItem :=
match acts with
| [] => []
| AEnqueue i :: r => i :: enqueuedItems r
| _ :: r => enqueuedItems r
end.

(** In a trace (newest first), every call of [processFileEvent] comes
  after the end of the calls for every task of the same path that was
  created before it. *)
Definition sequenced (tr : list Obs) : Prop :=
forall later b earlier,
  tr = (later ++ OStart b :: earlier)%list ->
  forall a,
    In (OShifted a) earlier -> taskFile a = taskFile b ->
    (t_id a < t_id b)%nat ->
    exists ok, In (OEnd a ok) earlier.

(** The [waitForIdle] call numbered [k] still awaits the promises [hs]. *)
Definition awaits (k : nat) (hs : list nat) (s : State) : Prop :=
(k < nextIdle s)%nat
/\ forall hs', lookupIdle k (idleWaits s) = Some hs' -> hs' = hs.

End QueueView.

(** What holds of the queue in every state a run reaches. *)
Module QueueInv.
Import Dispatcher QueueView.

Record Inv (limit : nat) (s : State) : Prop := mkInv {
inv_buf : bufferedQueuedItems s = [];
inv_sem : semHeld s
          = (List.length (lockWaiting s) + List.length (processing s)
             + List.length (finishing s))%nat;
inv_lim : (semHeld s <= limit)%nat;
inv_ids : forall t, In t (allTasks s) -> (t_id t < nextTask s)%nat;
inv_nodup : NoDup (map t_id (allTasks s));
inv_semq : StronglySorted lt (map t_id (semWaiting s));
inv_ahead : forall x y,
    In x (lockWaiting s ++ started s)%list -> In y (semWaiting s) ->
    (t_id x < t_id y)%nat;
inv_lockq : StronglySorted lt (map t_id (lockWaiting s));
inv_excl : NoDup (map taskFile (processing s));
inv_started : forall t, In (OStart t) (trace s) -> In t (started s);
inv_ended : forall t ok,
    In (t, ok) (finishing s ++ resolved s)%list -> In (OEnd t ok) (trace s);
inv_shifted : forall t, In (OShifted t) (trace s) -> In t (allTasks s);
inv_order : forall a b,
    In a (allTasks s) -> In b (started s) ->
    taskFile a = taskFile b -> (t_id a < t_id b)%nat ->
    In a (ended s);
inv_seq : sequenced (trace s);
inv_numbering :
  map t_id (shiftedOf (trace s)) = seq 0 (nextTask s)
  /\ map t_item (shiftedOf (trace s)) = pushedOf (trace s);
inv_wait : NoDup (map taskFile (allTasks s)) ->
           forall t, In t (live s) ->
                     JsMap.get (waitingMap s) (taskFile t) = Some (t_id t);
inv_created : forall t, In t (allTasks s) -> In (OShifted t) (trace s)
}.

End QueueInv.

(** Runs of the queue used by the examples. *)
Module QueueSample.
Import Dispatcher.

Definition stateAfter (limit : nat) (acts : list Action) : State :=
match run limit init acts with
| Some s => s
| None => init
end.

(** Two events for [a.md] and one for [b.md]; the first event for
  [a.md] fails downstream. *)
Definition twoForOnePath : list Action :=
[AEnqueue (Sample.item "a.md"); AEnqueue (Sample.item "b.md");
 AEnqueue (Sample.item "a.md");
 AGrant; AGrant; AGrant;
 ABegin 0; ABegin 1; AFinish 1 true; AFinish 0 false; ABegin 2;
 AResume 0; AFinish 2 true; AResume 1; AResume 2].

(** Seven events for distinct paths against five slots. *)
Definition sevenPaths : list Action :=
[AEnqueue (Sample.item "p0"); AEnqueue (Sample.item "p1");
 AEnqueue (Sample.item "p2"); AEnqueue (Sample.item "p3");
 AEnqueue (Sample.item "p4"); AEnqueue (Sample.item "p5");
 AEnqueue (Sample.item "p6");
 AGrant; AGrant; AGrant; AGrant; AGrant;
 ABegin 0; ABegin 1; ABegin 2; ABegin 3; ABegin 4].

(** The rest of that run after [waitForIdle()] is called. *)
Definition sevenPathsDrain : list Action :=
[AFinish 0 true; AResume 0; AGrant; ABegin 5;
 AFinish 1 true; AResume 1; AGrant; ABegin 6;
 AFinish 2 true; AFinish 3 true; AFinish 4 false;
 AFinish 5 true; AFinish 6 true;
 AResume 2; AResume 3; AResume 4; AResume 5; AResume 6].

End QueueSample.

(* ------------------------------------------------------------------ *)
(** ** [node:path]: [path.dirname] (POSIX flavour) *)

Module Path.

(** The backwards scan of [dirname]: [rs] are the characters from index
  [i] down to index 1; the result is the index of the first [/] that
  follows, going backwards, a character other than [/]. *)
Fixpoint dirnameScan (rs : list ascii) (i : nat) (matchedSlash : bool) : option nat :=
match rs with
| [] => None
| c :: r =>
    if Ascii.eqb c Str.slash then
      if matchedSlash then dirnameScan r (Nat.pred i) true else Some i
    else dirnameScan r (Nat.pred i) false
end.

(** [path.posix.dirname(p)] *)
Definition dirname (p : string) : string :=
match p with
| EmptyString => "."
| String c0 rest =>
    let hasRoot := Ascii.eqb c0 Str.slash in
    match dirnameScan (rev (list_ascii_of_string rest)) (String.length rest) true with
    | None => if hasRoot then "/" else "."
    | Some e => if hasRoot && Nat.eqb e 1 then "//" else Str.take e p
    end
end.

End Path.

(* ------------------------------------------------------------------ *)
(** ** [ModuleFileAccessNode]: stubs, deletion, reading and writing *)

(** [UXFolderInfo]: the stub of a folder, which carries [isFolder: true]. *)
Record UXFolderInfo := mkFolder {
  folder_name : string;
  folder_path : string;
  folder_stat : UXStat
}.

(** [UXFileInfoStub | UXFolderInfo] *)
Inductive AnyStub :=
| AFile (s : UXFileInfoStub)
| AFolder (f : UXFolderInfo).

(** [UXFileInfo]: a stub with the bytes of the file as [body]. *)
Record UXFileInfo := mkFileInfo {
  fi_name : string;
  fi_path : string;
  fi_stat : UXStat;
  fi_deleted : bool;
  fi_body : string
}.

(** [UXDataWriteOptions]: what [writeFileAuto] reads of it. *)
Record UXDataWriteOptions := mkWriteOptions {
  opt_mtime : option Z;
  opt_ctime : option Z
}.

(** The further [node:fs] calls of the adapter.  The content of a file
    is a string of bytes. *)
Record NodeFsIO (W : Type) := mkNodeFsIO {
  (** [fs.readFile(p)] *)
  fs_readFile : W -> string -> Res string;
  (** [fs.writeFile(p, buf)] *)
  fs_writeFile : W -> string -> string -> Res W;
  (** [fs.utimes(p, atime, mtime)] *)
  fs_utimes : W -> string -> Z -> Z -> Res W
}.

(** The adapter's own state beside the filesystem: [processingFiles], a
    [Set] of paths. *)
Record Adapter (W : Type) := mkAdapter {
  world : W;
  processingFiles : JsMap.t unit
}.

Module FileOps.
Import FileAccess.

(** A number of an optional field is truthy when it is there and is
  not 0. *)
Definition truthy (x : option Z) : bool :=
match x with
| Some n => negb (n =? 0)%Z
| None => false
end.

(** [opt?.mtime] and [opt?.ctime] *)
Definition mtimeOf (opt : option UXDataWriteOptions) : option Z :=
match opt with Some o => opt_mtime o | None => None end.

Definition ctimeOf (opt : option UXDataWriteOptions) : option Z :=
match opt with Some o => opt_ctime o | None => None end.

(** Modelled from the spec: [serialized(key, proc)] is imported from
  octagonal-wheels.  It is the spec's exclusive scope of the storage
  adapter, which "runs [operation] with a guarantee that no other
  exclusive scope for the same path runs concurrently"; a call made
  while no other scope of the key runs calls [proc] at once.  [S] is the
  state [proc] works on. *)
Definition serialized {S R : Type} (key : string) (proc : S -> S * R) (s : S) : S * R :=
proc s.

Section WithFs.
Variable W : Type.
Variable fs : NodeFs W.
Variable io : NodeFsIO W.
Variable vaultDir : string.

Definition withWorld (a : Adapter W) (w : W) : Adapter W :=
mkAdapter w (processingFiles a).

(** [isFileProcessing(file)] *)
Definition isFileProcessing (a : Adapter W) (p : string) : bool :=
JsMap.has (processingFiles a) p.

(** [processWriteFile(file, proc)]: [proc] may throw, and what it leaves
  of the adapter is there also when it does. *)
Definition processWriteFile {T : Type} (p : string)
         (proc : Adapter W -> Adapter W * Res T) (a : Adapter W)
: Adapter W * Res T :=
serialized ("file-lock:" ++ p)
  (fun a0 =>
     (* try *)
     let a1 := mkAdapter (world a0) (JsMap.set (processingFiles a0) p tt) in
     let '(a2, r) := proc a1 in
     (* finally *)
     (mkAdapter (world a2) (JsMap.delete (processingFiles a2) p), r))
  a.

(** [processReadFile(file, proc)] *)
Definition processReadFile {T : Type} (p : string)
         (proc : Adapter W -> Adapter W * Res T) (a : Adapter W)
: Adapter W * Res T :=
serialized ("file-lock:" ++ p)
  (fun a0 =>
     let a1 := mkAdapter (world a0) (JsMap.set (processingFiles a0) p tt) in
     let '(a2, r) := proc a1 in
     (mkAdapter (world a2) (JsMap.delete (processingFiles a2) p), r))
  a.

(** [deleteVaultItem(file)] *)
Definition deleteVaultItem (w : W) (file : string) : Res W :=
delete fs vaultDir w file true.

(** [removeHidden(pathRel)] *)
Definition removeHidden (w : W) (pathRel : string) : W * Res bool :=
match delete fs vaultDir w pathRel true with
| Returned w' => (w', Returned true)
| Threw _ => (w, Returned false)
end.

(** [statHidden(pathRel)] *)
Definition statHidden (w : W) (pathRel : string) : Res (option UXStat) :=
stat fs vaultDir w pathRel.

(** [ensureDir(pathRel)]; its result is [true]. *)
Definition ensureDir (w : W) (pathRel : string) : Res W :=
let rel := normalizeVaultRelative pathRel in
let dir := Path.dirname (abs vaultDir rel) in
fs_mkdir fs w dir.

(** [writeFileAuto(pathRel, data, opt)], with [atimeNow] the reading of
  [new Date()] and [mtimeNow] that of [Date.now()]. *)
Definition writeFileAuto (atimeNow mtimeNow : Z) (a : Adapter W)
         (pathRel data : string) (opt : option UXDataWriteOptions)
: Adapter W * Res bool :=
let rel := normalizeVaultRelative pathRel in
let ab := abs vaultDir rel in
match ensureDir (world a) rel with
| Threw e => (a, Threw e)
| Returned w1 =>
    processWriteFile rel
      (fun a1 =>
         match fs_writeFile io (world a1) ab data with
         | Threw e => (a1, Threw e)
         | Returned w2 =>
             if truthy (mtimeOf opt) || truthy (ctimeOf opt) then
               let atime := atimeNow in
               let mtime := match mtimeOf opt with
                            | Some m => m
                            | None => mtimeNow
                            end in
               match fs_utimes io w2 ab atime mtime with
               | Returned w3 => (withWorld a1 w3, Returned true)
               | Threw _ => (withWorld a1 w2, Returned true)
               end
             else (withWorld a1 w2, Returned true)
         end)
      (withWorld a w1)
end.

(** [writeHiddenFileAuto] *)
Definition writeHiddenFileAuto := writeFileAuto.

(** [toStub(rel)] *)
Definition toStub (w : W) (rel : string) : Res (option AnyStub) :=
let clean := normalizeVaultRelative rel in
let a := abs vaultDir clean in
tryCatch
(st <- fs_stat fs w a ;;
 let name := Str.basename clean in
 if st_isDirectory st then
   Returned (Some (AFolder (mkFolder name clean
                              (mkUXStat (st_ctimeMs st) (st_mtimeMs st) 0 TFolder))))
 else if negb (st_isFile st) then Returned None
 else
   Returned (Some (AFile (mkStub name clean
                            (mkUXStat (st_ctimeMs st) (st_mtimeMs st) (st_size st) TFile)
                            false))))
(fun _ => Returned None).

(** [getStub(pathRel)], on [fs.statSync] *)
Definition getStub (w : W) (pathRel : string) : Res (option AnyStub) :=
let rel := normalizeVaultRelative pathRel in
let a := abs vaultDir rel in
tryCatch
(st <- fs_stat fs w a ;;
 let name := Str.basename rel in
 if st_isDirectory st then
   Returned (Some (AFolder (mkFolder name rel
                              (mkUXStat (st_ctimeMs st) (st_mtimeMs st) 0 TFolder))))
 else if st_isFile st then
   Returned (Some (AFile (mkStub name rel
                            (mkUXStat (st_ctimeMs st) (st_mtimeMs st) (st_size st) TFile)
                            false)))
 else Returned None)
(fun _ => Returned None).

(** [readStubContent(stub)]: [w] is the filesystem when the file is
  read and [w'] the filesystem when it is stat'ed after that; [false]
  is [None]. *)
Definition readStubContent (w w' : W) (stub : UXFileInfoStub)
: Res (option UXFileInfo) :=
let rel := normalizeVaultRelative (stub_path stub) in
let a := abs vaultDir rel in
tryCatch
(buf <- fs_readFile io w a ;;
 let size := Z.of_nat (String.length buf) in
 let '(ctime, mtime) :=
   match fs_stat fs w' a with
   | Returned st => (st_ctimeMs st, st_mtimeMs st)
   | Threw _ => (ux_ctime (stub_stat stub), ux_mtime (stub_stat stub))
   end in
 Returned (Some (mkFileInfo (stub_name stub) (stub_path stub)
                   (mkUXStat ctime mtime size (ux_type (stub_stat stub)))
                   (stub_deleted stub) buf)))
(fun _ => Returned None).

End WithFs.

End FileOps.

(* ------------------------------------------------------------------ *)
(** ** Path segments, used to state where [abs] and the walks lead *)

Module Segments.

Definition noSlash (s : string) : bool :=
forallb (fun c => negb (Ascii.eqb c Str.slash)) (list_ascii_of_string s).

(** A segment that names a directory entry: not empty, not [.] or [..],
  and without [/]. *)
Definition plain (s : string) : bool :=
negb (Str.isEmpty s) && negb (String.eqb s ".") && negb (String.eqb s "..")
&& noSlash s.

(** The path has a segment [..]. *)
Definition hasDotDot (p : string) : bool :=
existsb (String.eqb "..") (Str.split p).

(** What the segment walk of [normalize] keeps when there is no [..]. *)
Definition keep (s : string) : bool := negb (Str.isEmpty s || String.eqb s ".").

End Segments.

(* ------------------------------------------------------------------ *)
(** ** [ModuleFileAccessNode]: the enumeration of the vault

    The walks read the directory tree below a path with [readdirSync(dir,
    { withFileTypes: true })] and [statSync].  What they find there is a
    [Node]: the entries of a directory with their names, in the order
    [readdirSync] lists them. *)

#[warnings="-register-all"] Inductive Node :=
(** a regular file, with what [statSync] answers for it *)
| NFile (st : Stats)
(** an entry listed as a regular file whose [statSync] throws *)
| NFileGone (e : string)
| NDir (entries : list (string * Node))
(** a directory whose [readdirSync] throws *)
| NDirUnreadable (e : string)
(** an entry that is neither [isDirectory()] nor [isFile()] *)
| NOther.

Module Walk.
Import FileAccess.

(** [baseRel ? `${baseRel}/${name}` : name] *)
Definition relOf (baseRel name : string) : string :=
if Str.isEmpty baseRel then name else baseRel ++ "/" ++ name.

Definition fileStub (name rel : string) (st : Stats) : UXFileInfoStub :=
mkStub name rel (mkUXStat (st_ctimeMs st) (st_mtimeMs st) (st_size st) TFile) false.

(** [for (const e of entries)] of [walkSync], with [walkDir] the
  recursive call; [out] is the array the stubs are pushed to, which
  holds what was pushed also when the walk throws. *)
Definition walkEntries
  (walkDir : Node -> string -> list UXFileInfoStub -> list UXFileInfoStub * Res unit)
  (baseRel : string)
: list (string * Node) -> list UXFileInfoStub -> list UXFileInfoStub * Res unit :=
fix loop (entries : list (string * Node)) (out : list UXFileInfoStub) :=
  match entries with
  | [] => (out, Returned tt)
  | (name, n) :: rest =>
      let rel := relOf baseRel name in
      match n with
      | NDir _ | NDirUnreadable _ =>
          match walkDir n rel out with
          | (out1, Returned _) => loop rest out1
          | (out1, Threw e) => (out1, Threw e)
          end
      | NFile st => loop rest (out ++ [fileStub name rel st])%list
      | NFileGone e => (out, Threw e)
      | NOther => loop rest out
      end
  end.

(** [walkSync(dirAbs, baseRel, out)], with [dir] what is at [dirAbs]. *)
Fixpoint walkSync (dir : Node) (baseRel : string) (out : list UXFileInfoStub)
  {struct dir} : list UXFileInfoStub * Res unit :=
match dir with
| NDir entries => walkEntries walkSync baseRel entries out
| NDirUnreadable e => (out, Threw e)
| NFile _ | NFileGone _ | NOther => (out, Threw "ENOTDIR")
end.

(** The [for] loop of [walk] in [getFilesIncludeHidden]: a regular file
  is pushed without a call of [stat]. *)
Definition walkNames
  (walkDir : Node -> string -> list string -> list string * Res unit)
  (prefixRel : string)
: list (string * Node) -> list string -> list string * Res unit :=
fix loop (entries : list (string * Node)) (out : list string) :=
  match entries with
  | [] => (out, Returned tt)
  | (name, n) :: rest =>
      let rel := relOf prefixRel name in
      match n with
      | NDir _ | NDirUnreadable _ =>
          match walkDir n rel out with
          | (out1, Returned _) => loop rest out1
          | (out1, Threw e) => (out1, Threw e)
          end
      | NFile _ | NFileGone _ => loop rest (out ++ [rel])%list
      | NOther => loop rest out
      end
  end.

(** [walk(dirAbs, prefixRel)] of [getFilesIncludeHidden] *)
Fixpoint walk (dir : Node) (prefixRel : string) (out : list string)
  {struct dir} : list string * Res unit :=
match dir with
| NDir entries => walkNames walk prefixRel entries out
| NDirUnreadable e => (out, Threw e)
| NFile _ | NFileGone _ | NOther => (out, Threw "ENOTDIR")
end.

Section WithTree.
(** What is at an absolute path. *)
Variable nodeAt : string -> Node.
Variable vaultDir : string.

(** [getFiles()] *)
Definition getFiles : Res (list UXFileInfoStub) :=
match walkSync (nodeAt vaultDir) "" [] with
| (out, Returned _) => Returned out
| (_, Threw e) => Threw e
end.

(** [getFileNames()] *)
Definition getFileNames : Res (list string) :=
files <- getFiles ;; Returned (map stub_path files).

(** [getFilesIncludeHidden(basePath)]: what the walk throws is dropped
  and [out] is returned as it is then. *)
Definition getFilesIncludeHidden (basePath : string) : list string :=
let baseRel := normalizeVaultRelative basePath in
let baseAbs := abs vaultDir baseRel in
fst (walk (nodeAt baseAbs) baseRel []).

End WithTree.

(** *** What is in a tree, used to state what the walks find *)

(** [fileAt dir segs st]: following the names [segs] from the directory
  [dir] leads through directories to a regular file with [Stats] [st]. *)
Inductive fileAt : Node -> list string -> Stats -> Prop :=
| fileHere entries name st :
    In (name, NFile st) entries -> fileAt (NDir entries) [name] st
| fileBelow entries name sub segs st :
    In (name, sub) entries -> fileAt sub segs st ->
    fileAt (NDir entries) (name :: segs) st.

(** The relative path the walk builds for the names [segs] below
  [baseRel]. *)
Definition relPath (baseRel : string) (segs : list string) : string :=
fold_left relOf segs baseRel.

(** Every [readdirSync] and [statSync] below the node answers. *)
Fixpoint readable (n : Node) : bool :=
match n with
| NDir entries => forallb (fun e => readable (snd e)) entries
| NDirUnreadable _ | NFileGone _ => false
| NFile _ | NOther => true
end.

Fixpoint distinct (l : list string) : bool :=
match l with
| [] => true
| x :: r => negb (existsb (String.eqb x) r) && distinct r
end.

Definition noBackslash (s : string) : bool :=
forallb (fun c => negb (Ascii.eqb c Str.backslash)) (list_ascii_of_string s).

(** A name of a directory entry, without a backslash. *)
Definition okName (s : string) : Prop :=
Segments.plain s = true /\ noBackslash s = true.

(** The names of the entries are names of directory entries without a
  backslash, and no two entries of one directory have the same name. *)
Fixpoint wellNamed (n : Node) : bool :=
match n with
| NDir entries =>
    distinct (map fst entries)
    && forallb (fun e => Segments.plain (fst e) && noBackslash (fst e)
                         && wellNamed (snd e)) entries
| _ => true
end.

(** The stubs of the regular files below a directory, in the order of
  the walk. *)
Fixpoint listing (n : Node) (baseRel : string) : list UXFileInfoStub :=
match n with
| NDir entries =>
    flat_map
      (fun e =>
         match snd e with
         | NFile st => [fileStub (fst e) (relOf baseRel (fst e)) st]
         | NDir _ => listing (snd e) (relOf baseRel (fst e))
         | _ => []
         end)
      entries
| _ => []
end.

(** The same files by the names that lead to them. *)
Fixpoint segListing (n : Node) : list (list string * Stats) :=
match n with
| NDir entries =>
    flat_map
      (fun e =>
         match snd e with
         | NFile st => [([fst e], st)]
         | NDir _ => map (fun x => (fst e :: fst x, snd x)) (segListing (snd e))
         | _ => []
         end)
      entries
| _ => []
end.

(** The stub [walkSync] pushes for the file the names [segs] lead to. *)
Definition stubAt (baseRel : string) (x : list string * Stats) : UXFileInfoStub :=
fileStub (List.last (fst x) EmptyString) (relPath baseRel (fst x)) (snd x).

End Walk.

(* ------------------------------------------------------------------ *)
(** ** Runs of the poll loop, used to state what it does over time *)

Module RunView.
Import Watcher PathView.

(** Every tick of [envs] sees the file at [p], and sees it different
  from what the tick before saw; [last] is what was seen before the
  first of them, if anything. *)
Fixpoint keepsChanging (p : string) (last : option Info) (envs : list TickEnv)
: Prop :=
match envs with
| [] => True
| env :: rest =>
    exists cur,
      seen env p = Some cur /\ Some cur <> last
      /\ keepsChanging p (Some cur) rest
end.

(** Between the reading of the clock that dates a change of [p] and the
  reading [now] of the flush, in one tick, less than the quiet window
  passes. *)
Definition flushWithinWindow (cfg : Config) (p : string) (env : TickEnv) : Prop :=
(dateNow env FlushNow - dateNow env (ChangeSeen p) < awaitWriteFinishMs cfg)%Z.

(** What the loop handed to [appendQueue] for the path [p]. *)
Definition reported (cfg : Config) (envs : list TickEnv) (e : Engine) (p : string)
: list FileEvent :=
eventsFor p (loopSubmitted (snd (_pollLoop cfg envs e))).

End RunView.

(* ------------------------------------------------------------------ *)
(** ** Views of [appendQueue] and of the work left in the queue *)

Module AppendView.
Import Dispatcher.

(** Whether the body of the loop of [appendQueue] reaches [enqueue] for
  an event, when [isTargetFile] resolves. *)
Definition admits (env : QueueEnv) (ev : FileEvent) : bool :=
let sv := services env in
let path := stub_path (ev_file ev) in
negb (shouldBeIgnored sv path)
&& negb (negb (isInternal (ev_type ev))
         && (isFileSizeTooLarge sv (ux_size (stub_stat (ev_file ev)))
             && isCreateOrChanged (ev_type ev)))
&& match isTargetFile sv path with
   | Returned b => b
   | Threw _ => false
   end
&& negb (isCreateOrChanged (ev_type ev)
         && FileAccess.recentlyTouched (touchedMap env) (touchedCheckAt env path) path).

(** The event an item was made of. *)
Definition eventOf (i : QueueItem) : FileEvent :=
mkFileEvent (qi_type i) (qi_file i) (qi_oldPath i) (qi_cache i) (qi_skipBatchWait i).

(** [isTargetFile] resolves for the paths of the events. *)
Definition resolves (env : QueueEnv) (params : list FileEvent) : Prop :=
forall ev e,
  In ev params -> isTargetFile (services env) (stub_path (ev_file ev)) <> Threw e.

End AppendView.

Module DrainView.
Import Dispatcher QueueView.

(** The actions by which the queue works off its tasks. *)
Definition isWork (a : Action) : bool :=
match a with
| AGrant | ABegin _ | AFinish _ _ | AResume _ => true
| _ => false
end.

(** The steps the tasks of a state still have to take. *)
Definition backlog (s : State) : nat :=
(4 * List.length (semWaiting s) + 3 * List.length (lockWaiting s)
 + 2 * List.length (processing s) + List.length (finishing s))%nat.

(** Every promise in [waitingMap] is that of a task of its path whose
  [runQueuedEvents] has not run to its end. *)
Definition owned (s : State) : Prop :=
forall file id,
  JsMap.get (waitingMap s) file = Some id ->
  exists t, In t (live s) /\ t_id t = id /\ taskFile t = file.

End DrainView.

(** Services that accept every path but one, for which [isTargetFile]
    rejects. *)
Module Rejecting.

Definition services (bad : string) : Dispatcher.Services :=
Dispatcher.mkServices true false (fun _ => false) (fun _ => false)
  (fun p => if String.eqb p bad then Threw "rejected" else Returned true)
  (fun n => Str.ofInt (Z.of_nat n)).

Definition tickAt (bad : string) (now : Z) (files : list UXFileInfoStub)
: Watcher.TickEnv :=
Sample.tickAt (services bad) now files.

End Rejecting.

(* ------------------------------------------------------------------ *)
(** ** [ModuleKeyValueDBNode]: the simple store over the key-value
       database *)

(** The calls the simple store makes on [core.kvDB], over the states [D]
    of the database and the values [V] it holds. *)
Record KeyValueDatabase (D V : Type) := mkKeyValueDatabase {
  kv_get : D -> string -> Res (option V);
  kv_set : D -> string -> V -> Res D;
  kv_del : D -> string -> Res D;
  (** [keys(from, to, count)] *)
  kv_keys : D -> string -> string -> option nat -> Res (list string)
}.

Module SimpleStore.

(** [`${kind}-`] *)
Definition prefixOf (kind : string) : string := kind ++ "-".

(** [x || d] for an optional string: [undefined] and the empty string
  give [d]. *)
Definition orElse (x : option string) (d : string) : string :=
match x with
| Some s => if Str.isEmpty s then d else s
| None => d
end.

(** The string of the one character U+FFFF, in UTF-8. *)
Definition uffff : string :=
String (ascii_of_nat 239) (String (ascii_of_nat 191) (String (ascii_of_nat 191) "")).

(** [e.startsWith(prefix)] *)
Fixpoint startsWith (e prefix : string) {struct prefix} : bool :=
match prefix, e with
| EmptyString, _ => true
| String c p', String d e' => Ascii.eqb c d && startsWith e' p'
| String _ _, EmptyString => false
end.

(** [e.substring(n)] *)
Fixpoint substringFrom (n : nat) (e : string) : string :=
match n, e with
| O, _ => e
| S n', String _ e' => substringFrom n' e'
| S _, EmptyString => EmptyString
end.

Section WithDb.
Variables D V : Type.
Variable kvDB : KeyValueDatabase D V.
Variable kind : string.

(** The [get], [set], [delete] and [keys] of [_getSimpleStore(kind)]. *)
Definition get (db : D) (key : string) : Res (option V) :=
kv_get kvDB db (prefixOf kind ++ key).

Definition set (db : D) (key : string) (value : V) : Res D :=
kv_set kvDB db (prefixOf kind ++ key) value.

Definition delete (db : D) (key : string) : Res D :=
kv_del kvDB db (prefixOf kind ++ key).

Definition keys (db : D) (from to : option string) (count : option nat)
: Res (list string) :=
ret <- kv_keys kvDB db (prefixOf kind ++ orElse from "")
         (prefixOf kind ++ orElse to uffff) count ;;
Returned (map (substringFrom (String.length (prefixOf kind)))
              (filter (fun e => startsWith e (prefixOf kind)) ret)).

End WithDb.

End SimpleStore.

(* ================================================================== *)
(** * Properties *)

(** ** SHA-1 test vectors (FIPS 180) *)

Example sha1_abc : Sha1.hex "abc" = "a9993e364706816aba3e25717850c26c9cd0d89d".
Proof. vm_compute. reflexivity. Qed.

Example sha1_empty : Sha1.hex "" = "da39a3ee5e6b4b0d3255bfef95601890afd80709".
Proof. vm_compute. reflexivity. Qed.

Example sha1_two_blocks :
  Sha1.hex "abcdbcdecdefdefgefghfghighijhijkijkljklmklmnlmnomnopnopq"
  = "84983e441c3bd26ebaae4aa1f95129e5e54670f1".
Proof. vm_compute. reflexivity. Qed.

(** ** [JsMap] *)

Module JsMapFacts.
Import JsMap.

Lemma get_set_same {V} (m : t V) k v : get (set m k v) k = Some v.
Proof.
induction m as [|[k' v'] r IH]; simpl.
- now rewrite String.eqb_refl.
- destruct (String.eqb k' k) eqn:E; simpl; rewrite E; auto.
Qed.

Lemma get_set_other {V} (m : t V) k k' v :
k <> k' -> get (set m k v) k' = get m k'.
Proof.
intros N. induction m as [|[k0 v0] r IH]; simpl.
- destruct (String.eqb k k') eqn:E; auto.
  apply String.eqb_eq in E. contradiction.
- destruct (String.eqb k0 k) eqn:E; simpl.
  + apply String.eqb_eq in E. subst k0.
    destruct (String.eqb k k') eqn:E'; auto.
    apply String.eqb_eq in E'. contradiction.
  + destruct (String.eqb k0 k'); auto.
Qed.

Lemma get_delete_same {V} (m : t V) k : get (delete m k) k = None.
Proof.
induction m as [|[k' v'] r IH]; simpl; auto.
destruct (String.eqb k' k) eqn:E; simpl; auto. now rewrite E.
Qed.

Lemma get_delete_other {V} (m : t V) k k' :
k <> k' -> get (delete m k) k' = get m k'.
Proof.
intros N. induction m as [|[k0 v0] r IH]; simpl; auto.
destruct (String.eqb k0 k) eqn:E; simpl.
- apply String.eqb_eq in E. subst k0.
  destruct (String.eqb k k') eqn:E'; auto.
  apply String.eqb_eq in E'. contradiction.
- destruct (String.eqb k0 k'); auto.
Qed.

Lemma get_In {V} (m : t V) k v : get m k = Some v -> In (k, v) m.
Proof.
induction m as [|[k' v'] r IH]; simpl; [discriminate|].
destruct (String.eqb k' k) eqn:E.
- apply String.eqb_eq in E. intros [= ->]. subst. now left.
- intros H. right. auto.
Qed.

Lemma get_None_notin {V} (m : t V) k : get m k = None <-> ~ In k (keys m).
Proof.
unfold keys. induction m as [|[k' v'] r IH]; simpl.
- split; auto.
- destruct (String.eqb k' k) eqn:E.
  + apply String.eqb_eq in E. split; [discriminate|]. intros H. exfalso. auto.
  + apply String.eqb_neq in E. rewrite IH. split; intros H; [intros [?|?]|]; auto.
Qed.

Lemma In_get {V} (m : t V) k v :
NoDup (keys m) -> In (k, v) m -> get m k = Some v.
Proof.
unfold keys. induction m as [|[k' v'] r IH]; simpl; [contradiction|].
intros ND [E|H].
- inversion E; subst. now rewrite String.eqb_refl.
- inversion ND as [|? ? N1 N2]; subst.
  destruct (String.eqb k' k) eqn:E.
  + apply String.eqb_eq in E. subst. exfalso. apply N1.
    change k with (fst (k, v)). now apply in_map.
  + auto.
Qed.

Lemma keys_set_in {V} (m : t V) k v x :
In x (keys (set m k v)) <-> x = k \/ In x (keys m).
Proof.
unfold keys. induction m as [|[k' v'] r IH]; simpl.
- intuition.
- destruct (String.eqb k' k) eqn:E; simpl.
  + apply String.eqb_eq in E. subst. intuition congruence.
  + rewrite IH. intuition congruence.
Qed.

Lemma NoDup_set {V} (m : t V) k v : NoDup (keys m) -> NoDup (keys (set m k v)).
Proof.
pose proof (@keys_set_in V) as KS. unfold keys in *. induction m as [|[k' v'] r IH]; simpl; intros ND.
- constructor; [intros []|constructor].
- inversion ND as [|? ? N1 N2]; subst.
  destruct (String.eqb k' k) eqn:E; simpl.
  + now constructor.
  + constructor; auto.
    intros H. apply (KS r k v k') in H. destruct H as [H|H]; auto.
    subst. now rewrite String.eqb_refl in E.
Qed.

End JsMapFacts.

(** ** The storage adapter *)

Module FileAccessFacts.
Import FileAccess.

Lemma replaceBackslashes_idem s :
Str.replaceBackslashes (Str.replaceBackslashes s) = Str.replaceBackslashes s.
Proof.
induction s as [|c r IH]; simpl; auto.
rewrite IH. f_equal.
destruct (Ascii.eqb c Str.backslash) eqn:E; [reflexivity|now rewrite E].
Qed.

Lemma strip_idem s :
Str.stripLeadingSlashes (Str.stripLeadingSlashes s) = Str.stripLeadingSlashes s.
Proof.
induction s as [|c r IH]; simpl; auto.
destruct (Ascii.eqb c Str.slash) eqn:E; auto. simpl. now rewrite E.
Qed.

Lemma strip_noBackslash_commute s :
Str.replaceBackslashes (Str.stripLeadingSlashes (Str.replaceBackslashes s))
= Str.stripLeadingSlashes (Str.replaceBackslashes s).
Proof.
induction s as [|c r IH]; simpl; auto.
destruct (Ascii.eqb c Str.backslash) eqn:E.
- simpl. exact IH.
- destruct (Ascii.eqb c Str.slash) eqn:E'; auto.
  simpl. rewrite E. now rewrite replaceBackslashes_idem.
Qed.

(** Normalising twice, as [stat] and [abs] do between them, is
  normalising once. *)
Lemma normalizeVaultRelative_idem p :
normalizeVaultRelative (normalizeVaultRelative p) = normalizeVaultRelative p.
Proof.
unfold normalizeVaultRelative.
rewrite strip_noBackslash_commute. apply strip_idem.
Qed.

Lemma append_inj_l (a b c : string) : (a ++ b = a ++ c)%string -> b = c.
Proof. induction a; simpl; intros H; [assumption|]. inversion H. auto. Qed.

Lemma delete_force_returns W (fs : NodeFs W) vaultDir (w : W) file :
exists w', delete fs vaultDir w file true = Returned w'.
Proof.
unfold delete, tryCatch, bindRes.
destruct (fs_stat fs w _) as [st|e]; simpl; eauto.
destruct (st_isDirectory st); destruct (fs_rm fs w _ _); simpl; eauto.
Qed.

Lemma getFileStub_path W (fs : NodeFs W) vaultDir (w : W) p s :
getFileStub fs vaultDir w p = Returned (Some s) ->
stub_path s = normalizeVaultRelative p.
Proof.
unfold getFileStub, tryCatch, bindRes.
destruct (fs_stat fs w _) as [st|e]; simpl; [|discriminate].
destruct (st_isFile st); simpl; [|discriminate].
intros [= <-]. reflexivity.
Qed.

End FileAccessFacts.

(** C10.  [stat] and [getFileStub] return the absent result both when
    [fs.stat] fails on the path (it does not exist) and when the path is
    there but is not a regular file; neither of them throws; and when one
    of them returns metadata, the path is a regular file and the metadata
    are its size and times. *)
Theorem stat_and_stub_regular_files_only :
  forall (W : Type) (fs : NodeFs W) (vaultDir : string) (w : W) (pathRel : string),
    (exists r, FileAccess.stat fs vaultDir w pathRel = Returned r)
    /\ (exists r, FileAccess.getFileStub fs vaultDir w pathRel = Returned r)
    /\ (forall e,
           fs_stat fs w (FileAccess.abs vaultDir pathRel) = Threw e ->
           FileAccess.stat fs vaultDir w pathRel = Returned None
           /\ FileAccess.getFileStub fs vaultDir w pathRel = Returned None)
    /\ (forall st,
           fs_stat fs w (FileAccess.abs vaultDir pathRel) = Returned st ->
           st_isFile st = false ->
           FileAccess.stat fs vaultDir w pathRel = Returned None
           /\ FileAccess.getFileStub fs vaultDir w pathRel = Returned None)
    /\ (forall m,
           FileAccess.stat fs vaultDir w pathRel = Returned (Some m) ->
           exists st,
             fs_stat fs w (FileAccess.abs vaultDir pathRel) = Returned st
             /\ st_isFile st = true
             /\ m = mkUXStat (st_ctimeMs st) (st_mtimeMs st) (st_size st) TFile)
    /\ (forall s,
           FileAccess.getFileStub fs vaultDir w pathRel = Returned (Some s) ->
           exists st,
             fs_stat fs w (FileAccess.abs vaultDir pathRel) = Returned st
             /\ st_isFile st = true
             /\ stub_stat s
                = mkUXStat (st_ctimeMs st) (st_mtimeMs st) (st_size st) TFile).
Proof.
  intros W fs vaultDir w pathRel.
  unfold FileAccess.stat, FileAccess.getFileStub, FileAccess.abs, tryCatch, bindRes.
  rewrite FileAccessFacts.normalizeVaultRelative_idem.
  destruct (fs_stat fs w _) as [st|e]; simpl.
  - destruct (st_isFile st) eqn:F; simpl.
    all: repeat split; eauto; try discriminate; try congruence.
    all: try (intros ? [= <-]; exists st; auto).
    all: try (intros ? [= <-] ?; congruence).
  - repeat split; eauto; try discriminate.
Qed.

(** The destination name is the path with its separators replaced, a dot,
    and eight hexadecimal digits. *)
Example trashDestRel_sample :
  FileAccess.trashDestRel "a/b.md" 1700000000000 = "a__b.md.7e569811".
Proof. vm_compute. reflexivity. Qed.


(** On the in-memory filesystem the second [trash] replaces what the
    first one put into the trash directory: one entry is left there. *)
Example trash_twice_overwrites :
  let w0 := [("/vault/notes/todo.md", MemFs.fileStats 10 1)] in
  let recreate (w : MemFs.World) :=
        JsMap.set w "/vault/notes/todo.md" (MemFs.fileStats 20 2) in
  (w1 <- FileAccess.trash MemFs.fs "/vault" "/data" w0 1700036082370 "notes/todo.md" ;;
   FileAccess.trash MemFs.fs "/vault" "/data" (recreate w1) 1700036082473 "notes/todo.md")
  = Returned [("/data/trash", MemFs.dirStats);
              ("/data/trash/notes__todo.md.79433354", MemFs.fileStats 20 2)].
Proof. vm_compute. reflexivity. Qed.


(** ** [appendQueue] *)

(** C9.  When the settings are not configured, or file watching is
    suspended, [appendQueue] returns at once: the state of the queue,
    its trace included, is what it was. *)
Theorem appendQueue_discards_when_unconfigured_or_suspended :
  forall (env : Dispatcher.QueueEnv) (params : list FileEvent) (s : Dispatcher.State),
    Dispatcher.isConfigured (Dispatcher.services env) = false
    \/ Dispatcher.suspendFileWatching (Dispatcher.services env) = true ->
    Dispatcher.appendQueue env params s = (s, Returned tt).
Proof.
  intros env params s [H|H]; unfold Dispatcher.appendQueue; rewrite H; simpl.
  - reflexivity.
  - destruct (Dispatcher.isConfigured _); reflexivity.
Qed.

Lemma appendQueue_discards_witness :
  Dispatcher.appendQueue (Sample.quietQueue Sample.unconfigured 0)
    [Sample.changedEvent "a.md" 3 1; Sample.changedEvent "b.md" 4 1] Dispatcher.init
  = (Dispatcher.init, Returned tt).
Proof.
  apply appendQueue_discards_when_unconfigured_or_suspended.
  left. reflexivity.
Defined.

(** The same batch is enqueued when the settings are configured. *)
Example appendQueue_enqueues_when_configured :
  map Dispatcher.taskFile
      (Dispatcher.semWaiting
         (fst (Dispatcher.appendQueue (Sample.quietQueue Sample.acceptAll 0)
                 [Sample.changedEvent "a.md" 3 1; Sample.changedEvent "b.md" 4 1]
                 Dispatcher.init)))
  = ["a.md"; "b.md"].
Proof. vm_compute. reflexivity. Qed.

Module DispatcherFacts.
Import Dispatcher.

Lemma recentlyTouched_after_touched tm t now p :
FileAccess.recentlyTouched (FileAccess.touched tm t p) now p
= negb (t =? 0)%Z && (now - t <? FileAccess.touchedTtlMs)%Z.
Proof.
unfold FileAccess.recentlyTouched, FileAccess.touched.
rewrite JsMapFacts.get_set_same. destruct (t =? 0)%Z; reflexivity.
Qed.

(** Whether a one-event [appendQueue] rejects is decided by the
  services alone. *)
Lemma appendQueue_one_outcome env1 env2 ev q1 q2 :
services env1 = services env2 ->
snd (appendQueue env1 [ev] q1) = snd (appendQueue env2 [ev] q2).
Proof.
intros E. destruct env1 as [sv1 tm1 c1], env2 as [sv2 tm2 c2].
simpl in E. subst sv2. unfold appendQueue. simpl.
destruct (isConfigured sv1); simpl; [|reflexivity].
destruct (suspendFileWatching sv1); simpl; [reflexivity|].
destruct (shouldBeIgnored _ _); simpl; [reflexivity|].
destruct (negb _ && _); simpl; [reflexivity|].
destruct (isTargetFile _ _) as [[|]|]; simpl; try reflexivity.
destruct (isCreateOrChanged _ && FileAccess.recentlyTouched tm1 _ _),
         (isCreateOrChanged _ && FileAccess.recentlyTouched tm2 _ _);
  reflexivity.
Qed.

End DispatcherFacts.

Module TickIndependence.
Import Watcher.

Import PathView.

Lemma detectDeletions_touched tm1 tm2 env next prev q1 q2 :
delsOf (detectDeletions (withTouched tm1 env) next prev q1)
= delsOf (detectDeletions (withTouched tm2 env) next prev q2).
Proof.
revert q1 q2. induction prev as [|[p i] rest IH]; intros q1 q2; simpl.
- reflexivity.
- destruct (negb (JsMap.has next p)); [|apply IH].
  pose proof (@DispatcherFacts.appendQueue_one_outcome
                (queueEnv (withTouched tm1 env)) (queueEnv (withTouched tm2 env))
                (deleteEvent (withTouched tm1 env) p i) q1 q2 eq_refl) as O.
  change (deleteEvent (withTouched tm2 env) p i)
    with (deleteEvent (withTouched tm1 env) p i).
  simpl in O.
  destruct (Dispatcher.appendQueue _ _ q1) as [qa ra] eqn:A1.
  destruct (Dispatcher.appendQueue _ _ q2) as [qb rb] eqn:A2.
  simpl in O. subst rb. destruct ra as [u|e]; [|reflexivity].
  specialize (IH qa qb). unfold delsOf in *.
  destruct (detectDeletions (withTouched tm1 env) next rest qa) as [[qa' ea] ra'].
  destruct (detectDeletions (withTouched tm2 env) next rest qb) as [[qb' eb] rb'].
  simpl in *. congruence.
Qed.

Lemma flushPending_touched cfg tm1 tm2 env next now ws q1 q2 :
flushOf (flushPending cfg (withTouched tm1 env) next now ws q1)
= flushOf (flushPending cfg (withTouched tm2 env) next now ws q2).
Proof.
revert q1 q2. induction ws as [|[p w] rest IH]; intros q1 q2; simpl.
- reflexivity.
- destruct (flushDecision cfg next now p w).
  + apply IH.
  + specialize (IH q1 q2). unfold flushOf in *.
    destruct (flushPending cfg (withTouched tm1 env) next now rest q1) as [[[a1 b1] c1] d1].
    destruct (flushPending cfg (withTouched tm2 env) next now rest q2) as [[[a2 b2] c2] d2].
    simpl in *. congruence.
  + specialize (IH q1 q2). unfold flushOf in *.
    destruct (flushPending cfg (withTouched tm1 env) next now rest q1) as [[[a1 b1] c1] d1].
    destruct (flushPending cfg (withTouched tm2 env) next now rest q2) as [[[a2 b2] c2] d2].
    simpl in *. congruence.
  + specialize (IH q1 q2). unfold flushOf in *.
    destruct (flushPending cfg (withTouched tm1 env) next now rest q1) as [[[a1 b1] c1] d1].
    destruct (flushPending cfg (withTouched tm2 env) next now rest q2) as [[[a2 b2] c2] d2].
    simpl in *. congruence.
  + destruct (getFileStub env p) as [stub|]; [|apply IH].
    pose proof (@DispatcherFacts.appendQueue_one_outcome
                  (queueEnv (withTouched tm1 env)) (queueEnv (withTouched tm2 env))
                  (releaseEvent w stub) q1 q2 eq_refl) as O.
    simpl in O.
    destruct (Dispatcher.appendQueue _ _ q1) as [qa ra] eqn:A1.
    destruct (Dispatcher.appendQueue _ _ q2) as [qb rb] eqn:A2.
    simpl in O. subst rb. destruct ra as [u|e]; [|reflexivity].
    specialize (IH qa qb). unfold flushOf in *.
    destruct (flushPending cfg (withTouched tm1 env) next now rest qa) as [[[a1 b1] c1] d1].
    destruct (flushPending cfg (withTouched tm2 env) next now rest qb) as [[[a2 b2] c2] d2].
    simpl in *. congruence.
Qed.

(** What a tick keeps and what it hands to [appendQueue] is the same
  under any two touched maps. *)
Lemma pollTick_touched cfg tm1 tm2 env e :
snapshot (fst (pollTick cfg (withTouched tm1 env) e))
= snapshot (fst (pollTick cfg (withTouched tm2 env) e))
/\ pendingWrites (fst (pollTick cfg (withTouched tm1 env) e))
   = pendingWrites (fst (pollTick cfg (withTouched tm2 env) e))
/\ snd (pollTick cfg (withTouched tm1 env) e)
   = snd (pollTick cfg (withTouched tm2 env) e).
Proof.
unfold pollTick. simpl.
destruct (getFiles env) as [files|err]; [|auto].
pose proof (detectDeletions_touched tm1 tm2 env (_scanSnapshot files)
              (JsMap.entries (snapshot e)) (queue e) (queue e)) as D.
unfold delsOf in D.
destruct (detectDeletions (withTouched tm1 env) _ _ _) as [[qa da] ra].
destruct (detectDeletions (withTouched tm2 env) _ _ _) as [[qb db] rb].
simpl in D. inversion D; subst. destruct rb as [u|err]; [|auto].
change (detectChanges (withTouched tm2 env)) with (detectChanges (withTouched tm1 env)).
pose proof (flushPending_touched cfg tm1 tm2 env (_scanSnapshot files)
              (dateNow env FlushNow)
              (JsMap.entries (detectChanges (withTouched tm1 env) (snapshot e)
                                (_scanSnapshot files) (pendingWrites e))) qa qb) as F.
unfold flushOf in F. simpl in F.
destruct (flushPending cfg (withTouched tm1 env) _ _ _ qa) as [[[a1 b1] c1] d1].
destruct (flushPending cfg (withTouched tm2 env) _ _ _ qb) as [[[a2 b2] c2] d2].
simpl in F. inversion F; subst. destruct d2; simpl; auto.
Qed.

End TickIndependence.

(** C5.  After [touched] marked the path of a CREATE or CHANGED event at a
    clock reading [t] other than 0, [appendQueue] leaves the queue as it was
    (apart from the note that the file list may have changed) as long as
    the clock reads less than [t + 5000]; from [t + 5000] on it does
    what it does when the path was never touched, and enqueues the event
    when the other filters accept it.  What the poll tick keeps in its
    snapshot and pending table, and what it hands to [appendQueue], does
    not depend on the touched map. *)
Theorem touched_path_suppressed_within_ttl :
  forall (sv : Dispatcher.Services) (tm : FileAccess.TouchedMap)
         (clock : string -> Z) (ev : FileEvent) (s : Dispatcher.State) (t : Z),
    t <> 0%Z ->
    isCreateOrChanged (ev_type ev) = true ->
    ((clock (stub_path (ev_file ev)) - t < FileAccess.touchedTtlMs)%Z ->
       fst (Dispatcher.appendQueue
              (Dispatcher.mkQueueEnv sv
                 (FileAccess.touched tm t (stub_path (ev_file ev))) clock) [ev] s) = s
       \/ fst (Dispatcher.appendQueue
              (Dispatcher.mkQueueEnv sv
                 (FileAccess.touched tm t (stub_path (ev_file ev))) clock) [ev] s)
          = Dispatcher.log Dispatcher.OMarkFileListPossiblyChanged s)
    /\ ((FileAccess.touchedTtlMs <= clock (stub_path (ev_file ev)) - t)%Z ->
        Dispatcher.appendQueue
          (Dispatcher.mkQueueEnv sv
             (FileAccess.touched tm t (stub_path (ev_file ev))) clock) [ev] s
        = Dispatcher.appendQueue (Dispatcher.mkQueueEnv sv JsMap.empty clock) [ev] s
        /\ (Dispatcher.isConfigured sv = true ->
            Dispatcher.suspendFileWatching sv = false ->
            Dispatcher.shouldBeIgnored sv (stub_path (ev_file ev)) = false ->
            Dispatcher.isFileSizeTooLarge sv (ux_size (stub_stat (ev_file ev))) = false ->
            Dispatcher.isTargetFile sv (stub_path (ev_file ev)) = Returned true ->
            Dispatcher.appendQueue
              (Dispatcher.mkQueueEnv sv
                 (FileAccess.touched tm t (stub_path (ev_file ev))) clock) [ev] s
            = (Dispatcher.enqueue
                 (mkQueueItem (ev_type ev) (ev_file ev) (ev_oldPath ev)
                    (ev_cachedData ev) (ev_skipBatchWait ev)
                    (Dispatcher.randomKey sv (Dispatcher.randomDraws s)))
                 (snd (Dispatcher.drawKey sv
                         (Dispatcher.log Dispatcher.OMarkFileListPossiblyChanged s))),
               Returned tt)))
    /\ (forall cfg env e,
          Watcher.snapshot (fst (Watcher.pollTick cfg (Watcher.withTouched tm env) e))
          = Watcher.snapshot
              (fst (Watcher.pollTick cfg (Watcher.withTouched JsMap.empty env) e))
          /\ Watcher.pendingWrites
               (fst (Watcher.pollTick cfg (Watcher.withTouched tm env) e))
             = Watcher.pendingWrites
                 (fst (Watcher.pollTick cfg (Watcher.withTouched JsMap.empty env) e))
          /\ snd (Watcher.pollTick cfg (Watcher.withTouched tm env) e)
             = snd (Watcher.pollTick cfg (Watcher.withTouched JsMap.empty env) e)).
Proof.
  intros sv tm clock ev s t Ht Hty.
  pose proof (DispatcherFacts.recentlyTouched_after_touched tm t
                (clock (stub_path (ev_file ev))) (stub_path (ev_file ev))) as RT.
  assert (N0 : (t =? 0)%Z = false) by now apply Z.eqb_neq.
  rewrite N0 in RT. simpl in RT.
  split; [|split; [|intros; apply TickIndependence.pollTick_touched]].
  - intros Hlt. apply Z.ltb_lt in Hlt. rewrite Hlt in RT.
    unfold Dispatcher.appendQueue. simpl.
    destruct (Dispatcher.isConfigured sv); simpl; [|now left].
    destruct (Dispatcher.suspendFileWatching sv); simpl; [now left|].
    destruct (Dispatcher.shouldBeIgnored _ _); simpl; [now right|].
    destruct (negb _ && _); simpl; [now right|].
    destruct (Dispatcher.isTargetFile _ _) as [[|]|]; simpl; try (now right).
    rewrite RT, Hty. simpl. now right.
  - intros Hge. assert (F : (clock (stub_path (ev_file ev)) - t <? FileAccess.touchedTtlMs)%Z = false)
      by (apply Z.ltb_ge; exact Hge).
    rewrite F in RT.
    split.
    + unfold Dispatcher.appendQueue. simpl.
      destruct (Dispatcher.isConfigured sv); simpl; [|reflexivity].
      destruct (Dispatcher.suspendFileWatching sv); simpl; [reflexivity|].
      destruct (Dispatcher.shouldBeIgnored _ _); simpl; [reflexivity|].
      destruct (negb _ && _); simpl; [reflexivity|].
      destruct (Dispatcher.isTargetFile _ _) as [[|]|]; simpl; try reflexivity.
      rewrite RT. unfold FileAccess.recentlyTouched at 1. simpl.
      rewrite Bool.andb_false_r. reflexivity.
    + intros C S I L T.
      unfold Dispatcher.appendQueue. simpl.
      rewrite C, S. simpl. rewrite I, L. simpl.
      rewrite Bool.andb_false_r. rewrite T, RT, Bool.andb_false_r.
      reflexivity.
Qed.

Lemma touched_path_suppressed_witness :
  fst (Dispatcher.appendQueue
         (Dispatcher.mkQueueEnv Sample.acceptAll
            (FileAccess.touched JsMap.empty 1000 "a.md") (fun _ => 1200%Z))
         [Sample.changedEvent "a.md" 3 1] Dispatcher.init) = Dispatcher.init
  \/ fst (Dispatcher.appendQueue
         (Dispatcher.mkQueueEnv Sample.acceptAll
            (FileAccess.touched JsMap.empty 1000 "a.md") (fun _ => 1200%Z))
         [Sample.changedEvent "a.md" 3 1] Dispatcher.init)
     = Dispatcher.log Dispatcher.OMarkFileListPossiblyChanged Dispatcher.init.
Proof.
  refine (proj1 (@touched_path_suppressed_within_ttl Sample.acceptAll JsMap.empty
                   (fun _ => 1200%Z) (Sample.changedEvent "a.md" 3 1) Dispatcher.init
                   1000%Z _ _) _).
  - lia.
  - reflexivity.
  - reflexivity.
Defined.

(** The same event 5000 ms after the mark is enqueued. *)
Example touched_path_accepted_after_ttl :
  map Dispatcher.taskFile
      (Dispatcher.semWaiting
         (fst (Dispatcher.appendQueue
                 (Dispatcher.mkQueueEnv Sample.acceptAll
                    (FileAccess.touched JsMap.empty 1000 "a.md") (fun _ => 6000%Z))
                 [Sample.changedEvent "a.md" 3 1] Dispatcher.init)))
  = ["a.md"].
Proof. vm_compute. reflexivity. Qed.

(** ** The poll loop: errors *)

Module PollFacts.
Import Watcher.

(** After a tick the snapshot is the old one or the newly scanned one. *)
Lemma pollTick_snapshot cfg env e :
match caught (snd (pollTick cfg env e)) with
| Some _ => snapshot (fst (pollTick cfg env e)) = snapshot e
| None => exists files, getFiles env = Returned files
                        /\ snapshot (fst (pollTick cfg env e)) = _scanSnapshot files
end.
Proof.
unfold pollTick.
destruct (getFiles env) as [files|err]; simpl; [|reflexivity].
destruct (detectDeletions _ _ _ _) as [[q1 dels] [u|err]]; simpl; [|reflexivity].
destruct (flushPending _ _ _ _ _ _) as [[[pw2 q2] evs] [u'|err]]; simpl; eauto.
Qed.

Lemma pollTick_running cfg env e :
running (fst (pollTick cfg env e)) = running e.
Proof.
unfold pollTick.
destruct (getFiles env) as [files|err]; simpl; [|reflexivity].
destruct (detectDeletions _ _ _ _) as [[q1 dels] [u|err]]; simpl; [|reflexivity].
destruct (flushPending _ _ _ _ _ _) as [[[pw2 q2] evs] [u'|err]]; reflexivity.
Qed.

End PollFacts.

(** C8.  When a poll tick throws, whether in the enumeration of the vault
    or later in the tick, the loop logs the error, keeps the snapshot it
    had, sleeps [scanIntervalMs] and goes on with the next tick.  When the
    enumeration itself throws, nothing of the state changes.  When a tick
    does not throw, the snapshot is replaced by the scanned one. *)
Theorem poll_error_keeps_snapshot :
  forall (cfg : Watcher.Config) (env : Watcher.TickEnv) (rest : list Watcher.TickEnv)
         (e : Watcher.Engine),
    Watcher.running e = true ->
    (forall err,
        Watcher.caught (snd (Watcher.pollTick cfg env e)) = Some err ->
        Watcher.snapshot (fst (Watcher.pollTick cfg env e)) = Watcher.snapshot e
        /\ Watcher._pollLoop cfg (env :: rest) e
           = (fst (Watcher._pollLoop cfg rest
                     (Watcher.afterSleep env (fst (Watcher.pollTick cfg env e)))),
              Watcher.Ticked (snd (Watcher.pollTick cfg env e))
              :: Watcher.Logged "Watcher poll failed"
              :: Watcher.Logged err
              :: Watcher.Slept (Watcher.scanIntervalMs cfg)
              :: snd (Watcher._pollLoop cfg rest
                        (Watcher.afterSleep env (fst (Watcher.pollTick cfg env e))))))
    /\ (forall err,
           Watcher.getFiles env = Threw err ->
           Watcher.pollTick cfg env e = (e, Watcher.mkTickLog [] (Some err)))
    /\ (Watcher.caught (snd (Watcher.pollTick cfg env e)) = None ->
        exists files,
          Watcher.getFiles env = Returned files
          /\ Watcher.snapshot (fst (Watcher.pollTick cfg env e))
             = Watcher._scanSnapshot files).
Proof.
  intros cfg env rest e R.
  pose proof (PollFacts.pollTick_snapshot cfg env e) as S.
  split; [|split].
  - intros err C. rewrite C in S. split; [exact S|].
    simpl. rewrite R.
    destruct (Watcher.pollTick cfg env e) as [e1 lg]. simpl in *. rewrite C.
    destruct (Watcher._pollLoop cfg rest (Watcher.afterSleep env e1)); reflexivity.
  - intros err G. unfold Watcher.pollTick. rewrite G. reflexivity.
  - intros C. rewrite C in S. exact S.
Qed.

Lemma poll_error_keeps_snapshot_witness :
  Watcher.pollTick Watcher.defaultConfig (Sample.failingTick 5)
    (Watcher.beginWatch [Sample.fileStub "a.md" 3 1] Watcher.initial)
  = (Watcher.beginWatch [Sample.fileStub "a.md" 3 1] Watcher.initial,
     Watcher.mkTickLog [] (Some "EACCES")).
Proof.
  refine (proj1 (proj2 (@poll_error_keeps_snapshot Watcher.defaultConfig
                          (Sample.failingTick 5) []
                          (Watcher.beginWatch [Sample.fileStub "a.md" 3 1]
                             Watcher.initial) _)) "EACCES" _).
  - reflexivity.
  - reflexivity.
Defined.

(** A loop of three ticks whose second enumeration fails: the file that
    appeared in the first tick is released by the third. *)
Example poll_loop_survives_failure :
  let envs := [Sample.tickAt Sample.acceptAll 0 [Sample.fileStub "a.md" 3 1];
               Sample.failingTick 750;
               Sample.tickAt Sample.acceptAll 1500 [Sample.fileStub "a.md" 3 1]] in
  let r := Watcher._pollLoop Watcher.defaultConfig envs
             (Watcher.beginWatch [] Watcher.initial) in
  Watcher.snapshot (fst r) = [("a.md", Watcher.mkInfo 1 3)]
  /\ snd r
     = [Watcher.Ticked (Watcher.mkTickLog [] None);
        Watcher.Slept 750;
        Watcher.Ticked (Watcher.mkTickLog [] (Some "EACCES"));
        Watcher.Logged "Watcher poll failed"; Watcher.Logged "EACCES";
        Watcher.Slept 750;
        Watcher.Ticked
          (Watcher.mkTickLog
             [mkFileEvent CREATE (Sample.fileStub "a.md" 3 1) None None None] None);
        Watcher.Slept 750].
Proof. vm_compute. split; reflexivity. Qed.

(** ** The poll loop: one path through a tick *)

Module TickFacts.
Import Watcher PathView.

Lemma flushDecision_on cfg next now p w :
flushDecision cfg next now p w = decisionOn cfg (JsMap.get next p) now w.
Proof. reflexivity. Qed.

Lemma appendQueue_noReject env ev q :
noReject env ->
snd (Dispatcher.appendQueue (queueEnv env) [ev] q) = Returned tt.
Proof.
intros NR. unfold Dispatcher.appendQueue.
destruct (Dispatcher.isConfigured _); simpl; [|reflexivity].
destruct (Dispatcher.suspendFileWatching _); simpl; [reflexivity|].
destruct (Dispatcher.shouldBeIgnored _ _); simpl; [reflexivity|].
destruct (negb _ && _); simpl; [reflexivity|].
destruct (Dispatcher.isTargetFile _ _) as [[|]|err] eqn:T; simpl; try reflexivity.
- destruct (isCreateOrChanged _ && _); reflexivity.
- exfalso. exact (NR _ _ T).
Qed.

Lemma scanSnapshot_NoDup_acc files acc :
NoDup (JsMap.keys acc) ->
NoDup (JsMap.keys
         (fold_left
            (fun snap f =>
               JsMap.set snap (stub_path f)
                 (mkInfo (ux_mtime (stub_stat f)) (ux_size (stub_stat f))))
            files acc)).
Proof.
revert acc. induction files as [|f r IH]; intros acc ND; simpl; auto.
apply IH. now apply JsMapFacts.NoDup_set.
Qed.

Lemma scanSnapshot_NoDup files : NoDup (JsMap.keys (_scanSnapshot files)).
Proof. apply scanSnapshot_NoDup_acc. constructor. Qed.

(** *** Detection *)

Lemma detectOne_same env prev pw p info :
JsMap.get (detectOne env prev pw (p, info)) p
= detectEntry env (JsMap.get prev p) (JsMap.get pw p) p info.
Proof.
unfold detectOne, detectEntry.
destruct (JsMap.get prev p) as [pi|].
- destruct (differs _ _ info); [|reflexivity].
  destruct (JsMap.get pw p) as [ex|] eqn:G.
  + destruct (differs _ _ info); [|exact G]. apply JsMapFacts.get_set_same.
  + apply JsMapFacts.get_set_same.
- destruct (JsMap.get pw p) as [ex|] eqn:G.
  + destruct (differs _ _ info); rewrite JsMapFacts.get_set_same;
      destruct (kind ex); reflexivity.
  + apply JsMapFacts.get_set_same.
Qed.

Lemma detectOne_other env prev pw q info p :
q <> p ->
JsMap.get (detectOne env prev pw (q, info)) p = JsMap.get pw p.
Proof.
intros N. unfold detectOne.
destruct (JsMap.get prev q) as [pi|].
- destruct (differs _ _ info); [|reflexivity].
  destruct (JsMap.get pw q) as [ex|].
  + destruct (differs _ _ info); [|reflexivity].
    now apply JsMapFacts.get_set_other.
  + now apply JsMapFacts.get_set_other.
- destruct (JsMap.get pw q) as [ex|].
  + destruct (differs _ _ info); now apply JsMapFacts.get_set_other.
  + now apply JsMapFacts.get_set_other.
Qed.

Lemma detectOne_NoDup env prev pw entry :
NoDup (JsMap.keys pw) -> NoDup (JsMap.keys (detectOne env prev pw entry)).
Proof.
intros ND. destruct entry as [q info]. unfold detectOne.
destruct (JsMap.get prev q) as [pi|].
- destruct (differs _ _ info); [|assumption].
  destruct (JsMap.get pw q) as [ex|].
  + destruct (differs _ _ info); [|assumption]. now apply JsMapFacts.NoDup_set.
  + now apply JsMapFacts.NoDup_set.
- destruct (JsMap.get pw q) as [ex|].
  + destruct (differs _ _ info); now apply JsMapFacts.NoDup_set.
  + now apply JsMapFacts.NoDup_set.
Qed.

Lemma detect_fold_absent env prev es pw p :
~ In p (JsMap.keys es) ->
JsMap.get (fold_left (detectOne env prev) es pw) p = JsMap.get pw p.
Proof.
revert pw. induction es as [|[q i] r IH]; intros pw NI;
  cbn [fold_left]; auto.
rewrite IH.
- apply detectOne_other. intros ->. apply NI. now left.
- intros H. apply NI. now right.
Qed.

Lemma detect_fold_get env prev es pw p :
NoDup (JsMap.keys es) ->
JsMap.get (fold_left (detectOne env prev) es pw) p
= pathDetect env (JsMap.get prev p) (JsMap.get pw p) p (JsMap.get es p).
Proof.
revert pw. induction es as [|[q i] r IH]; intros pw ND;
  cbn [fold_left JsMap.get]; auto.
inversion ND as [|? ? N1 N2]; subst.
destruct (String.eqb q p) eqn:E.
- apply String.eqb_eq in E. subst q.
  rewrite detect_fold_absent by exact N1.
  apply detectOne_same.
- apply String.eqb_neq in E. rewrite IH by exact N2.
  now rewrite detectOne_other.
Qed.

Lemma detectChanges_get env prev next pw p :
NoDup (JsMap.keys next) ->
JsMap.get (detectChanges env prev next pw) p
= pathDetect env (JsMap.get prev p) (JsMap.get pw p) p (JsMap.get next p).
Proof. apply detect_fold_get. Qed.

Lemma detectChanges_NoDup env prev next pw :
NoDup (JsMap.keys pw) -> NoDup (JsMap.keys (detectChanges env prev next pw)).
Proof.
unfold detectChanges, JsMap.entries. revert pw.
induction next as [|en r IH]; intros pw ND; simpl; auto.
apply IH. now apply detectOne_NoDup.
Qed.

(** *** Flush *)

Lemma eventsFor_cons p ev evs :
eventsFor p (ev :: evs)
= if String.eqb (stub_path (ev_file ev)) p then ev :: eventsFor p evs
  else eventsFor p evs.
Proof. reflexivity. Qed.

Lemma eventsFor_app p a b :
eventsFor p (a ++ b) = (eventsFor p a ++ eventsFor p b)%list.
Proof. apply filter_app. Qed.

Lemma flushPending_path cfg env next now p ws :
noReject env -> faithfulStubs env ->
forall q,
  NoDup (JsMap.keys ws) ->
  snd (flushPending cfg env next now ws q) = Returned tt
  /\ JsMap.get (fst (fst (fst (flushPending cfg env next now ws q)))) p
     = pendingAfterFlush cfg (JsMap.get next p) now (JsMap.get ws p)
  /\ eventsFor p (snd (fst (flushPending cfg env next now ws q)))
     = releasedBy cfg env (JsMap.get next p) now p (JsMap.get ws p)
  /\ (forall k, In k (JsMap.keys (fst (fst (fst (flushPending cfg env next now ws q)))))
                -> In k (JsMap.keys ws))
  /\ NoDup (JsMap.keys (fst (fst (fst (flushPending cfg env next now ws q))))).
Proof.
intros NR FS. induction ws as [|[k w] rest IH]; intros q ND.
- simpl. repeat split; auto; try constructor; contradiction.
- unfold JsMap.keys in ND. simpl in ND.
  inversion ND as [|? ? N1 N2]; subst.
  assert (RestNone : String.eqb k p = true -> JsMap.get rest p = None).
  { intros E. apply String.eqb_eq in E. subst k.
    now apply JsMapFacts.get_None_notin. }
  cbn [flushPending JsMap.get]. rewrite flushDecision_on.
  unfold pendingAfterFlush, releasedBy.
  assert (Keep : forall q0 w0,
             let R := flushPending cfg env next now rest q0 in
             snd R = Returned tt ->
             JsMap.get (fst (fst (fst R))) p
             = pendingAfterFlush cfg (JsMap.get next p) now (JsMap.get rest p) ->
             (forall k0, In k0 (JsMap.keys (fst (fst (fst R)))) ->
                         In k0 (JsMap.keys rest)) ->
             NoDup (JsMap.keys (fst (fst (fst R)))) ->
             JsMap.get ((k, w0) :: fst (fst (fst R))) p
             = (if String.eqb k p then Some w0
                else pendingAfterFlush cfg (JsMap.get next p) now (JsMap.get rest p))
             /\ (forall k0, In k0 (JsMap.keys ((k, w0) :: fst (fst (fst R)))) ->
                            In k0 (JsMap.keys ((k, w) :: rest)))
             /\ NoDup (JsMap.keys ((k, w0) :: fst (fst (fst R))))).
  { intros q0 w0 R HR HG HS HN. cbn [JsMap.get]. split; [|split].
    - destruct (String.eqb k p); [reflexivity|exact HG].
    - unfold JsMap.keys. simpl. intros k0 [Hk|Hk]; [now left|right].
      now apply HS.
    - unfold JsMap.keys. simpl. constructor; [|exact HN].
      intros Hk. apply N1. now apply HS. }
  assert (Drop : forall q0,
             let R := flushPending cfg env next now rest q0 in
             (forall k0, In k0 (JsMap.keys (fst (fst (fst R)))) ->
                         In k0 (JsMap.keys rest)) ->
             forall k0, In k0 (JsMap.keys (fst (fst (fst R)))) ->
                        In k0 (JsMap.keys ((k, w) :: rest))).
  { intros q0 R HS k0 Hk. unfold JsMap.keys. simpl. right. now apply HS. }
  destruct (decisionOn cfg (JsMap.get next k) now w) eqn:D.
  + (* Vanished *)
    destruct (IH q N2) as (R & G & Ev & Sub & ND').
    split; [exact R|]. split; [|split; [|split; [now apply Drop|exact ND']]].
    * rewrite G. destruct (String.eqb k p) eqn:E; [|reflexivity].
      rewrite (RestNone eq_refl). apply String.eqb_eq in E. subst k.
      now rewrite D.
    * rewrite Ev. destruct (String.eqb k p) eqn:E; [|reflexivity].
      rewrite (RestNone eq_refl). apply String.eqb_eq in E. subst k.
      now rewrite D.
  + (* StillChanging *)
    destruct (IH q N2) as (R & G & Ev & Sub & ND').
    destruct (Keep q w' R G Sub ND') as (K1 & K2 & K3).
    destruct (flushPending cfg env next now rest q) as [[[ws' q'] evs] r].
    simpl in *. split; [exact R|]. split; [|split; [|split; assumption]].
    * rewrite K1. destruct (String.eqb k p) eqn:E; [|reflexivity].
      apply String.eqb_eq in E. subst k. now rewrite D.
    * rewrite Ev. destruct (String.eqb k p) eqn:E; [|reflexivity].
      rewrite (RestNone eq_refl). apply String.eqb_eq in E. subst k.
      now rewrite D.
  + (* Waiting *)
    destruct (IH q N2) as (R & G & Ev & Sub & ND').
    destruct (Keep q w R G Sub ND') as (K1 & K2 & K3).
    destruct (flushPending cfg env next now rest q) as [[[ws' q'] evs] r].
    simpl in *. split; [exact R|]. split; [|split; [|split; assumption]].
    * rewrite K1. destruct (String.eqb k p) eqn:E; [|reflexivity].
      apply String.eqb_eq in E. subst k. now rewrite D.
    * rewrite Ev. destruct (String.eqb k p) eqn:E; [|reflexivity].
      rewrite (RestNone eq_refl). apply String.eqb_eq in E. subst k.
      now rewrite D.
  + (* HeldEmpty *)
    destruct (IH q N2) as (R & G & Ev & Sub & ND').
    destruct (Keep q w R G Sub ND') as (K1 & K2 & K3).
    destruct (flushPending cfg env next now rest q) as [[[ws' q'] evs] r].
    simpl in *. split; [exact R|]. split; [|split; [|split; assumption]].
    * rewrite K1. destruct (String.eqb k p) eqn:E; [|reflexivity].
      apply String.eqb_eq in E. subst k. now rewrite D.
    * rewrite Ev. destruct (String.eqb k p) eqn:E; [|reflexivity].
      rewrite (RestNone eq_refl). apply String.eqb_eq in E. subst k.
      now rewrite D.
  + (* Release *)
    destruct (getFileStub env k) as [stub|] eqn:St.
    * pose proof (appendQueue_noReject (releaseEvent w stub) q NR) as A.
      destruct (Dispatcher.appendQueue (queueEnv env) [releaseEvent w stub] q)
        as [q1 r1].
      simpl in A. subst r1.
      destruct (IH q1 N2) as (R & G & Ev & Sub & ND').
      pose proof (Drop q1 Sub) as Dr.
      destruct (flushPending cfg env next now rest q1) as [[[ws' q'] evs] r].
      simpl in *. split; [exact R|]. split; [|split; [|split; assumption]].
      -- rewrite G. destruct (String.eqb k p) eqn:E; [|reflexivity].
         rewrite (RestNone eq_refl). apply String.eqb_eq in E. subst k.
         now rewrite D.
      -- unfold eventsFor in *. cbn [filter releaseEvent ev_file].
         rewrite (FS _ _ St), Ev.
         destruct (String.eqb k p) eqn:E; [|reflexivity].
         rewrite (RestNone eq_refl). apply String.eqb_eq in E. subst k.
         rewrite D, St. reflexivity.
    * destruct (IH q N2) as (R & G & Ev & Sub & ND').
      split; [exact R|]. split; [|split; [|split; [now apply Drop|exact ND']]].
      -- rewrite G. destruct (String.eqb k p) eqn:E; [|reflexivity].
         rewrite (RestNone eq_refl). apply String.eqb_eq in E. subst k.
         now rewrite D.
      -- rewrite Ev. destruct (String.eqb k p) eqn:E; [|reflexivity].
         rewrite (RestNone eq_refl). apply String.eqb_eq in E. subst k.
         rewrite D, St. reflexivity.
Qed.

(** *** Deletions *)

Lemma detectDeletions_path env next p prev :
noReject env ->
forall q,
  NoDup (JsMap.keys prev) ->
  snd (detectDeletions env next prev q) = Returned tt
  /\ eventsFor p (snd (fst (detectDeletions env next prev q)))
     = deletedBy env p (JsMap.get prev p) (JsMap.get next p).
Proof.
intros NR. induction prev as [|[k i] rest IH]; intros q ND.
- simpl. auto.
- unfold JsMap.keys in ND. simpl in ND.
  inversion ND as [|? ? N1 N2]; subst.
  assert (RestNone : String.eqb k p = true -> JsMap.get rest p = None).
  { intros E. apply String.eqb_eq in E. subst k.
    now apply JsMapFacts.get_None_notin. }
  cbn [detectDeletions JsMap.get]. unfold JsMap.has.
  destruct (JsMap.get next k) as [cur|] eqn:C; cbn [negb].
  + destruct (IH q N2) as (R & Ev). split; [exact R|].
    rewrite Ev. destruct (String.eqb k p) eqn:E; [|reflexivity].
    rewrite (RestNone eq_refl). apply String.eqb_eq in E. subst k.
    rewrite C. reflexivity.
  + pose proof (appendQueue_noReject (deleteEvent env k i) q NR) as A.
    destruct (Dispatcher.appendQueue (queueEnv env) [deleteEvent env k i] q)
      as [q1 r1].
    simpl in A. subst r1.
    destruct (IH q1 N2) as (R & Ev).
    destruct (detectDeletions env next rest q1) as [[q2 evs] r].
    simpl in R, Ev. cbn [fst snd]. split; [exact R|].
    unfold eventsFor in *. cbn [filter deleteEvent deletedStub ev_file stub_path].
    rewrite Ev. destruct (String.eqb k p) eqn:E; [|reflexivity].
    rewrite (RestNone eq_refl). apply String.eqb_eq in E. subst k.
    rewrite C. reflexivity.
Qed.

(** *** The whole tick *)

Lemma pollTick_path cfg env e files p :
wf e -> noReject env -> faithfulStubs env ->
getFiles env = Returned files ->
caught (snd (pollTick cfg env e)) = None
/\ snapshot (fst (pollTick cfg env e)) = _scanSnapshot files
/\ JsMap.get (pendingWrites (fst (pollTick cfg env e))) p
   = pendingAfterFlush cfg (JsMap.get (_scanSnapshot files) p)
       (dateNow env FlushNow)
       (pathDetect env (JsMap.get (snapshot e) p) (JsMap.get (pendingWrites e) p)
          p (JsMap.get (_scanSnapshot files) p))
/\ eventsFor p (submitted (snd (pollTick cfg env e)))
   = (deletedBy env p (JsMap.get (snapshot e) p) (JsMap.get (_scanSnapshot files) p)
      ++ releasedBy cfg env (JsMap.get (_scanSnapshot files) p)
           (dateNow env FlushNow) p
           (pathDetect env (JsMap.get (snapshot e) p)
              (JsMap.get (pendingWrites e) p) p
              (JsMap.get (_scanSnapshot files) p)))%list
/\ wf (fst (pollTick cfg env e))
/\ running (fst (pollTick cfg env e)) = running e.
Proof.
intros [W1 W2] NR FS G. unfold pollTick. rewrite G.
destruct (@detectDeletions_path env (_scanSnapshot files) p
            (JsMap.entries (snapshot e)) NR (queue e) W1) as (DR & DE).
destruct (detectDeletions env (_scanSnapshot files) (JsMap.entries (snapshot e))
            (queue e)) as [[q1 dels] r1].
simpl in DR, DE. subst r1.
pose proof (@detectChanges_NoDup env (snapshot e) (_scanSnapshot files)
              (pendingWrites e) W2) as ND1.
destruct (@flushPending_path cfg env (_scanSnapshot files) (dateNow env FlushNow) p
            (JsMap.entries (detectChanges env (snapshot e) (_scanSnapshot files)
                              (pendingWrites e)))
            NR FS q1 ND1) as (FR & FG & FE & FSub & FND).
destruct (flushPending cfg env (_scanSnapshot files) (dateNow env FlushNow)
            (JsMap.entries (detectChanges env (snapshot e) (_scanSnapshot files)
                              (pendingWrites e))) q1) as [[[pw2 q2] evs] r2].
simpl in FR, FG, FE, FSub, FND. subst r2. cbn [fst snd caught snapshot pendingWrites
                                                submitted running].
unfold JsMap.entries in *.
rewrite (@detectChanges_get env (snapshot e) (_scanSnapshot files) (pendingWrites e) p
           (scanSnapshot_NoDup files)) in FG, FE.
split; [reflexivity|]. split; [reflexivity|]. split; [exact FG|].
split; [rewrite eventsFor_app, DE, FE; reflexivity|].
split; [|reflexivity].
split; [apply scanSnapshot_NoDup|exact FND].
Qed.

End TickFacts.

(** ** The poll loop: a pending write whose path vanishes *)

(** C7, counterexample.  [a.md] appears in one tick, where it becomes a
    pending CREATE and nothing is handed to the queue, and is gone in the
    next tick, 750 ms later and inside the quiet window: the pending
    write is discarded, and a DELETE event for [a.md] is handed to
    [appendQueue] and enqueued. *)
Lemma created_then_vanished_emits_delete :
  JsMap.get (Watcher.pendingWrites (fst ShortLived.afterCreate)) "a.md"
  = Some (Watcher.mkPending Watcher.KCreate 1 3 0 0)
  /\ Watcher.submitted (snd ShortLived.afterCreate) = []
  /\ JsMap.get (Watcher.pendingWrites (fst ShortLived.afterGone)) "a.md" = None
  /\ map ev_type
         (Watcher.eventsFor "a.md" (Watcher.submitted (snd ShortLived.afterGone)))
     = [DELETE]
  /\ map (fun t => (qi_type (Dispatcher.t_item t), Dispatcher.taskFile t))
         (Dispatcher.semWaiting (Watcher.queue (fst ShortLived.afterGone)))
     = [(DELETE, "a.md")].
Proof. vm_compute. repeat split; reflexivity. Qed.

(** C7, amended.  When a path with a pending write is absent from the
    scan of a tick that completes, the tick discards the pending write
    and hands no CREATE or CHANGED event for the path to the queue.  The
    deletion detector of the same tick hands over one DELETE event for
    the path when the previous snapshot held it, and nothing otherwise. *)
Theorem vanished_pending_is_dropped :
  forall (cfg : Watcher.Config) (env : Watcher.TickEnv) (e : Watcher.Engine)
         (files : list UXFileInfoStub) (p : string) (w : Watcher.PendingWrite),
    PathView.wf e ->
    PathView.noReject env ->
    PathView.faithfulStubs env ->
    Watcher.getFiles env = Returned files ->
    JsMap.get (Watcher.pendingWrites e) p = Some w ->
    JsMap.get (Watcher._scanSnapshot files) p = None ->
    JsMap.get (Watcher.pendingWrites (fst (Watcher.pollTick cfg env e))) p = None
    /\ (forall ev,
           In ev (Watcher.eventsFor p
                    (Watcher.submitted (snd (Watcher.pollTick cfg env e)))) ->
           ev_type ev = DELETE)
    /\ (forall i,
           JsMap.get (Watcher.snapshot e) p = Some i ->
           Watcher.eventsFor p (Watcher.submitted (snd (Watcher.pollTick cfg env e)))
           = [Watcher.deleteEvent env p i])
    /\ (JsMap.get (Watcher.snapshot e) p = None ->
        Watcher.eventsFor p (Watcher.submitted (snd (Watcher.pollTick cfg env e)))
        = []).
Proof.
  intros cfg env e files p w WF NR FS G PW Gone.
  destruct (@TickFacts.pollTick_path cfg env e files p WF NR FS G)
    as (_ & _ & HP & HE & _ & _).
  rewrite Gone, PW in HP, HE. simpl in HP, HE.
  split; [exact HP|]. rewrite HE.
  unfold PathView.deletedBy.
  destruct (JsMap.get (Watcher.snapshot e) p) as [i|]; simpl.
  - split; [|split].
    + intros ev [<-|[]]. reflexivity.
    + intros i' [= <-]. reflexivity.
    + discriminate.
  - split; [|split].
    + intros ev [].
    + discriminate.
    + reflexivity.
Qed.

Lemma sample_noReject now files :
  PathView.noReject (Sample.tickAt Sample.acceptAll now files).
Proof. intros p e. discriminate. Qed.

Lemma sample_faithfulStubs sv now files :
  PathView.faithfulStubs (Sample.tickAt sv now files).
Proof.
  intros q s H. simpl in H. apply find_some in H. destruct H as [_ H].
  now apply String.eqb_eq in H.
Qed.

Lemma vanished_pending_is_dropped_witness :
  JsMap.get (Watcher.pendingWrites (fst ShortLived.afterGone)) "a.md" = None.
Proof.
  refine (proj1 (@vanished_pending_is_dropped Watcher.defaultConfig
                   ShortLived.goneTick (fst ShortLived.afterCreate) [] "a.md"
                   (Watcher.mkPending Watcher.KCreate 1 3 0 0) _ _ _ _ _ _)).
  - split; vm_compute; repeat constructor; simpl; intuition discriminate.
  - apply sample_noReject.
  - apply sample_faithfulStubs.
  - reflexivity.
  - reflexivity.
  - reflexivity.
Defined.

(** ** The poll loop: the hold on empty creations *)

Module Crunch.

(** Case analysis on the integer tests of the tick. *)
Ltac zcases :=
repeat match goal with
       | H : context [Z.geb ?a ?b] |- _ => rewrite (Z.geb_leb a b) in H
       | |- context [Z.geb ?a ?b] => rewrite (Z.geb_leb a b)
       end;
repeat match goal with
       | H : context [Z.eqb ?a ?b] |- _ => destruct (Z.eqb_spec a b)
       | |- context [Z.eqb ?a ?b] => destruct (Z.eqb_spec a b)
       | H : context [Z.leb ?a ?b] |- _ => destruct (Z.leb_spec a b)
       | |- context [Z.leb ?a ?b] => destruct (Z.leb_spec a b)
       | H : context [Z.ltb ?a ?b] |- _ => destruct (Z.ltb_spec a b)
       | |- context [Z.ltb ?a ?b] => destruct (Z.ltb_spec a b)
       end.

Ltac calm := cbn -[Z.eqb Z.leb Z.ltb Z.geb Z.sub Z.add] in *.

Ltac settle := repeat (zcases; try subst; calm).

Ltac unfoldPath :=
unfold PathView.pathDetect, PathView.detectEntry, PathView.pendingAfterFlush,
  PathView.releasedBy, PathView.decisionOn, PathView.deletedBy,
  Watcher.differs, Watcher.isEmptyCreate in *.

End Crunch.

Unset Implicit Arguments.

Module RunFacts.
Import Watcher PathView.

Lemma timedFor_map now p evs :
timedFor p (map (pair now) evs) = map (pair now) (eventsFor p evs).
Proof.
unfold timedFor, eventsFor. induction evs as [|ev r IH]; simpl; auto.
destruct (String.eqb _ p); simpl; now rewrite IH.
Qed.

Lemma timedFor_app p a b :
timedFor p (a ++ b) = (timedFor p a ++ timedFor p b)%list.
Proof. apply filter_app. Qed.

Lemma timedFor_tick cfg env rest e p :
running e = true ->
timedFor p (releasedAt cfg (env :: rest) e)
= (map (pair (dateNow env FlushNow))
       (eventsFor p (submitted (snd (pollTick cfg env e))))
   ++ timedFor p (releasedAt cfg rest (afterSleep env (fst (pollTick cfg env e)))))%list.
Proof.
intros R. cbn [releasedAt]. rewrite R, timedFor_app, timedFor_map. reflexivity.
Qed.

(** [releasedAt] lists what [_pollLoop] handed to [appendQueue]. *)
Lemma releasedAt_pollLoop cfg envs :
forall e,
  map snd (releasedAt cfg envs e) = loopSubmitted (snd (_pollLoop cfg envs e)).
Proof.
induction envs as [|env rest IH]; intros e; [reflexivity|].
cbn [releasedAt _pollLoop]. destruct (running e); [|reflexivity].
specialize (IH (afterSleep env (fst (pollTick cfg env e)))).
destruct (pollTick cfg env e) as [e1 lg]. cbn [fst snd] in *.
destruct (_pollLoop cfg rest (afterSleep env e1)) as [e2 obs]. cbn [snd] in *.
rewrite map_app, map_map. cbn [snd]. rewrite map_id, IH.
unfold loopSubmitted. cbn [flat_map]. f_equal.
destruct (caught lg); reflexivity.
Qed.

Lemma timedFor_pollLoop cfg envs e p :
map snd (timedFor p (releasedAt cfg envs e))
= eventsFor p (loopSubmitted (snd (_pollLoop cfg envs e))).
Proof.
rewrite <- releasedAt_pollLoop. unfold timedFor, eventsFor.
induction (releasedAt cfg envs e) as [|[t ev] r IH]; [reflexivity|].
cbn [filter map snd]. destruct (String.eqb _ p); cbn [map snd]; now rewrite IH.
Qed.

Lemma afterSleep_on env e : stopCalled env = false -> afterSleep env e = e.
Proof. intros H. unfold afterSleep. now rewrite H. Qed.

(** What a completed tick does to the path [p]. *)
Lemma tick_view cfg env e p :
wf e -> completes env ->
JsMap.get (pendingWrites (fst (pollTick cfg env e))) p
= pendingAfterFlush cfg (seen env p) (dateNow env FlushNow)
    (pathDetect env (JsMap.get (snapshot e) p) (JsMap.get (pendingWrites e) p)
       p (seen env p))
/\ eventsFor p (submitted (snd (pollTick cfg env e)))
   = (deletedBy env p (JsMap.get (snapshot e) p) (seen env p)
      ++ releasedBy cfg env (seen env p) (dateNow env FlushNow) p
           (pathDetect env (JsMap.get (snapshot e) p)
              (JsMap.get (pendingWrites e) p) p (seen env p)))%list
/\ JsMap.get (snapshot (fst (pollTick cfg env e))) p = seen env p
/\ wf (fst (pollTick cfg env e))
/\ running (fst (pollTick cfg env e)) = running e.
Proof.
intros WF ((files & G) & NR & FS).
destruct (@TickFacts.pollTick_path cfg env e files p WF NR FS G)
  as (_ & HS & HP & HE & HW & HR).
unfold seen. rewrite G. rewrite HS. auto.
Qed.

(** The flush of a pending write that the scan shows unchanged. *)
Lemma stable_flush cfg env cur now p w :
mtimeMs cur = lastMtimeMs w -> size cur = lastSize w ->
pendingAfterFlush cfg (Some cur) now (Some w)
= (if due cfg now w then None else Some w)
/\ releasedBy cfg env (Some cur) now p (Some w)
   = (if due cfg now w
      then match getFileStub env p with
           | Some stub => [releaseEvent w stub]
           | None => []
           end
      else []).
Proof.
intros M S. unfold pendingAfterFlush, releasedBy, decisionOn, due.
rewrite M, S, !Z.eqb_refl. cbn [negb orb].
destruct (Z.geb _ _); cbn [andb]; [|auto].
destruct (isEmptyCreate w && _); cbn [negb]; auto.
Qed.

(** A path that is in the snapshot, unchanged in the scan and not
  pending: nothing happens. *)
Lemma quiet_tick cfg env e p cur :
wf e -> completes env ->
JsMap.get (snapshot e) p = Some cur ->
JsMap.get (pendingWrites e) p = None ->
seen env p = Some cur ->
eventsFor p (submitted (snd (pollTick cfg env e))) = []
/\ JsMap.get (pendingWrites (fst (pollTick cfg env e))) p = None.
Proof.
intros WF C PS PW Sn.
destruct (tick_view cfg env e p WF C) as (HP & HE & _).
rewrite Sn, PS, PW in HP, HE. rewrite HP, HE.
unfold pathDetect, detectEntry, differs.
rewrite !Z.eqb_refl. cbn. auto.
Qed.

Lemma quiet_run cfg p cur envs :
forall e,
  wf e ->
  JsMap.get (snapshot e) p = Some cur ->
  JsMap.get (pendingWrites e) p = None ->
  Forall (fun env => completes env /\ seen env p = Some cur) envs ->
  timedFor p (releasedAt cfg envs e) = [].
Proof.
induction envs as [|env rest IH]; intros e WF PS PW F; [reflexivity|].
inversion F as [|? ? [C Sn] F']; subst.
destruct (running e) eqn:R; [|cbn [releasedAt]; now rewrite R].
rewrite timedFor_tick by exact R.
destruct (quiet_tick cfg env e p cur WF C PS PW Sn) as (HE & HP).
destruct (tick_view cfg env e p WF C) as (_ & _ & HS & HW & _).
rewrite HE. cbn [map app]. apply IH; auto.
- unfold afterSleep. destruct (stopCalled env); [split|]; apply HW.
- unfold afterSleep. destruct (stopCalled env); cbn; congruence.
- unfold afterSleep. destruct (stopCalled env); cbn; congruence.
Qed.

Lemma differs_neq a b :
differs (mtimeMs a) (size a) b = true <-> a <> b.
Proof.
destruct a as [am asz], b as [bm bsz]. unfold differs. Crunch.calm.
destruct (Z.eqb_spec am bm), (Z.eqb_spec asz bsz); Crunch.calm;
  split; intros H; try congruence; try reflexivity.
all: exfalso; apply H; congruence.
Qed.

Lemma differs_same a : differs (mtimeMs a) (size a) a = false.
Proof. unfold differs. now rewrite !Z.eqb_refl. Qed.

(** A pending write whose file the tick sees unchanged, in the snapshot
  and in the pending write itself. *)
Lemma stable_tick cfg env e p cur w :
wf e -> completes env ->
JsMap.get (snapshot e) p = Some cur ->
JsMap.get (pendingWrites e) p = Some w ->
mtimeMs cur = lastMtimeMs w -> size cur = lastSize w ->
seen env p = Some cur ->
JsMap.get (pendingWrites (fst (pollTick cfg env e))) p
= (if due cfg (dateNow env FlushNow) w then None else Some w)
/\ eventsFor p (submitted (snd (pollTick cfg env e)))
   = (if due cfg (dateNow env FlushNow) w
      then match getFileStub env p with
           | Some stub => [releaseEvent w stub]
           | None => []
           end
      else []).
Proof.
intros WF C PS PW M S Sn.
destruct (tick_view cfg env e p WF C) as (HP & HE & _).
rewrite Sn, PS, PW in HP, HE. rewrite HP, HE.
unfold pathDetect, detectEntry. rewrite differs_same.
destruct (stable_flush cfg env cur (dateNow env FlushNow) p w M S) as (F1 & F2).
rewrite F1, F2. auto.
Qed.

(** A pending write whose file the tick sees changed. *)
Lemma change_tick cfg env e p prevInfo cur w :
wf e -> completes env ->
JsMap.get (snapshot e) p = Some prevInfo ->
JsMap.get (pendingWrites e) p = Some w ->
seen env p = Some cur ->
prevInfo <> cur ->
differs (lastMtimeMs w) (lastSize w) cur = true ->
JsMap.get (pendingWrites (fst (pollTick cfg env e))) p
= (if due cfg (dateNow env FlushNow)
           (mkPending (kind w) (mtimeMs cur) (size cur)
                      (dateNow env (ChangeSeen p)) (firstSeenAt w))
   then None
   else Some (mkPending (kind w) (mtimeMs cur) (size cur)
                        (dateNow env (ChangeSeen p)) (firstSeenAt w)))
/\ eventsFor p (submitted (snd (pollTick cfg env e)))
   = (if due cfg (dateNow env FlushNow)
              (mkPending (kind w) (mtimeMs cur) (size cur)
                         (dateNow env (ChangeSeen p)) (firstSeenAt w))
      then match getFileStub env p with
           | Some stub =>
               [releaseEvent (mkPending (kind w) (mtimeMs cur) (size cur)
                                (dateNow env (ChangeSeen p)) (firstSeenAt w)) stub]
           | None => []
           end
      else []).
Proof.
intros WF C PS PW Sn NE D.
destruct (tick_view cfg env e p WF C) as (HP & HE & _).
rewrite Sn, PS, PW in HP, HE. rewrite HP, HE.
unfold pathDetect, detectEntry.
apply differs_neq in NE. rewrite NE, D.
destruct (stable_flush cfg env cur (dateNow env FlushNow) p
            (mkPending (kind w) (mtimeMs cur) (size cur)
                       (dateNow env (ChangeSeen p)) (firstSeenAt w))
            eq_refl eq_refl) as (F1 & F2).
rewrite F1, F2. auto.
Qed.

(** A path that is not pending and that the tick sees new or changed. *)
Lemma fresh_tick cfg env e p cur :
wf e -> completes env ->
JsMap.get (pendingWrites e) p = None ->
JsMap.get (snapshot e) p <> Some cur ->
seen env p = Some cur ->
JsMap.get (pendingWrites (fst (pollTick cfg env e))) p
= (if due cfg (dateNow env FlushNow)
           (mkPending (entryKind (JsMap.get (snapshot e) p))
                      (mtimeMs cur) (size cur)
                      (dateNow env (ChangeSeen p)) (dateNow env (FirstSeen p)))
   then None
   else Some (mkPending (entryKind (JsMap.get (snapshot e) p))
                        (mtimeMs cur) (size cur)
                        (dateNow env (ChangeSeen p)) (dateNow env (FirstSeen p))))
/\ eventsFor p (submitted (snd (pollTick cfg env e)))
   = (if due cfg (dateNow env FlushNow)
              (mkPending (entryKind (JsMap.get (snapshot e) p))
                         (mtimeMs cur) (size cur)
                         (dateNow env (ChangeSeen p)) (dateNow env (FirstSeen p)))
      then match getFileStub env p with
           | Some stub =>
               [releaseEvent
                  (mkPending (entryKind (JsMap.get (snapshot e) p))
                             (mtimeMs cur) (size cur)
                             (dateNow env (ChangeSeen p))
                             (dateNow env (FirstSeen p))) stub]
           | None => []
           end
      else []).
Proof.
intros WF C PW NS Sn.
destruct (tick_view cfg env e p WF C) as (HP & HE & _).
rewrite Sn, PW in HP, HE. rewrite HP, HE.
unfold pathDetect, detectEntry, deletedBy.
destruct (JsMap.get (snapshot e) p) as [pi|] eqn:PS.
- assert (NE : pi <> cur) by congruence.
  apply differs_neq in NE. rewrite NE.
  destruct (stable_flush cfg env cur (dateNow env FlushNow) p
              (mkPending KChanged (mtimeMs cur) (size cur)
                         (dateNow env (ChangeSeen p)) (dateNow env (FirstSeen p)))
              eq_refl eq_refl) as (F1 & F2).
  cbn [entryKind]. rewrite F1, F2. auto.
- destruct (stable_flush cfg env cur (dateNow env FlushNow) p
              (mkPending KCreate (mtimeMs cur) (size cur)
                         (dateNow env (ChangeSeen p)) (dateNow env (FirstSeen p)))
              eq_refl eq_refl) as (F1 & F2).
  cbn [entryKind]. rewrite F1, F2. auto.
Qed.

(** A pending CREATE of a file the tick sees empty, inside the hold. *)
Lemma held_tick cfg env e p cur w :
wf e -> completes env ->
seen env p = Some cur ->
JsMap.get (pendingWrites e) p = Some w ->
kind w = KCreate ->
size cur = 0%Z ->
(dateNow env FlushNow - firstSeenAt w < minCreateHoldMsForEmptyFile cfg)%Z ->
eventsFor p (submitted (snd (pollTick cfg env e))) = []
/\ exists w',
    JsMap.get (pendingWrites (fst (pollTick cfg env e))) p = Some w'
    /\ kind w' = KCreate
    /\ firstSeenAt w' = firstSeenAt w
    /\ lastSize w' = 0%Z.
Proof.
intros WF C Sn PW K S0 Hold.
destruct (tick_view cfg env e p WF C) as (HP & HE & _).
rewrite Sn, PW in HP, HE. rewrite HP, HE. clear HP HE.
destruct w as [k lm ls lc fs]. Crunch.calm. subst k.
destruct cur as [cm cs]. Crunch.calm. subst cs.
Crunch.unfoldPath. Crunch.calm.
destruct (JsMap.get (snapshot e) p) as [[pm psz]|]; Crunch.calm.
all: Crunch.settle; try lia.
all: try (split; [reflexivity|eexists; repeat split; reflexivity]).
Qed.

Lemma afterSleep_fields env e :
snapshot (afterSleep env e) = snapshot e
/\ pendingWrites (afterSleep env e) = pendingWrites e.
Proof. unfold afterSleep. destruct (stopCalled env); auto. Qed.

Lemma afterSleep_wf env e : wf e -> wf (afterSleep env e).
Proof.
intros WF. unfold wf. destruct (afterSleep_fields env e) as (-> & ->). exact WF.
Qed.

Lemma held_run cfg p envs :
forall e w,
  wf e ->
  JsMap.get (pendingWrites e) p = Some w ->
  kind w = KCreate ->
  Forall (fun env =>
            completes env
            /\ (exists cur, seen env p = Some cur /\ size cur = 0%Z)
            /\ (dateNow env FlushNow - firstSeenAt w
                < minCreateHoldMsForEmptyFile cfg)%Z) envs ->
  timedFor p (releasedAt cfg envs e) = [].
Proof.
induction envs as [|env rest IH]; intros e w WF PW K F; [reflexivity|].
inversion F as [|? ? (C & (cur & Sn & S0) & Hold) F']; subst.
destruct (running e) eqn:R; [|cbn [releasedAt]; now rewrite R].
rewrite timedFor_tick by exact R.
destruct (held_tick cfg env e p cur w WF C Sn PW K S0 Hold)
  as (HE & w' & HP & K' & FS' & _).
destruct (tick_view cfg env e p WF C) as (_ & _ & _ & HW & _).
rewrite HE. cbn [map app].
apply (IH _ w').
- now apply afterSleep_wf.
- destruct (afterSleep_fields env (fst (pollTick cfg env e))) as (_ & ->).
  exact HP.
- exact K'.
- rewrite FS'. exact F'.
Qed.

Lemma stable_run cfg p cur w rest :
mtimeMs cur = lastMtimeMs w -> size cur = lastSize w ->
forall e,
  wf e -> running e = true ->
  JsMap.get (snapshot e) p = Some cur ->
  JsMap.get (pendingWrites e) p = Some w ->
  Forall (fun env =>
            (completes env /\ stopCalled env = false)
            /\ seen env p = Some cur /\ stubSize env p (size cur)) rest ->
  (timedFor p (releasedAt cfg rest e) = []
   /\ Forall (fun env => due cfg (dateNow env FlushNow) w = false) rest)
  \/ (exists env stub,
         In env rest
         /\ due cfg (dateNow env FlushNow) w = true
         /\ getFileStub env p = Some stub
         /\ ux_size (stub_stat stub) = size cur
         /\ timedFor p (releasedAt cfg rest e)
            = [(dateNow env FlushNow, releaseEvent w stub)]).
Proof.
intros M S. induction rest as [|env rest IH]; intros e WF R PS PW F.
- left. split; [reflexivity|constructor].
- inversion F as [|? ? ((C & St) & Sn & (stub & G & Sz)) F']; subst.
  rewrite timedFor_tick by exact R.
  destruct (stable_tick cfg env e p cur w WF C PS PW M S Sn) as (HP & HE).
  destruct (tick_view cfg env e p WF C) as (_ & _ & HS & HW & HR).
  rewrite (afterSleep_on _ _ St). rewrite HE.
  destruct (due cfg (dateNow env FlushNow) w) eqn:D.
  + right. exists env, stub. rewrite G. cbn [map app].
    rewrite (quiet_run cfg p cur rest (fst (pollTick cfg env e))); auto.
    * repeat split; auto. now left.
    * congruence.
    * eapply Forall_impl; [|exact F']. cbv beta. intros a H. tauto.
  + cbn [map app].
    assert (PS' : JsMap.get (snapshot (fst (pollTick cfg env e))) p = Some cur)
      by congruence.
    assert (R' : running (fst (pollTick cfg env e)) = true) by congruence.
    destruct (IH (fst (pollTick cfg env e)) HW R' PS' HP F')
      as [(T & NF)|(env' & stub' & I & H)].
    * left. split; [exact T|]. constructor; assumption.
    * right. exists env', stub'. split; [now right|exact H].
Qed.

(** From the tick that sees a pending write change to [cur], over ticks
  that see [cur]: at most one event is handed over, by the first tick
  at which the write is due. *)
Lemma change_run cfg p prevInfo cur w env1 rest e :
wf e -> running e = true ->
JsMap.get (snapshot e) p = Some prevInfo ->
JsMap.get (pendingWrites e) p = Some w ->
prevInfo <> cur ->
differs (lastMtimeMs w) (lastSize w) cur = true ->
Forall (fun env =>
          (completes env /\ stopCalled env = false)
          /\ seen env p = Some cur /\ stubSize env p (size cur)) (env1 :: rest) ->
(timedFor p (releasedAt cfg (env1 :: rest) e) = []
 /\ Forall (fun env =>
              due cfg (dateNow env FlushNow)
                  (mkPending (kind w) (mtimeMs cur) (size cur)
                             (dateNow env1 (ChangeSeen p)) (firstSeenAt w))
              = false) (env1 :: rest))
\/ (exists env stub,
       In env (env1 :: rest)
       /\ due cfg (dateNow env FlushNow)
              (mkPending (kind w) (mtimeMs cur) (size cur)
                         (dateNow env1 (ChangeSeen p)) (firstSeenAt w)) = true
       /\ getFileStub env p = Some stub
       /\ ux_size (stub_stat stub) = size cur
       /\ timedFor p (releasedAt cfg (env1 :: rest) e)
          = [(dateNow env FlushNow,
              releaseEvent (mkPending (kind w) (mtimeMs cur) (size cur)
                              (dateNow env1 (ChangeSeen p)) (firstSeenAt w))
                           stub)]).
Proof.
intros WF R PS PW NE D F.
inversion F as [|? ? ((C & St) & Sn & (stub & G & Sz)) F']; subst.
rewrite timedFor_tick by exact R.
destruct (change_tick cfg env1 e p prevInfo cur w WF C PS PW Sn NE D) as (HP & HE).
destruct (tick_view cfg env1 e p WF C) as (_ & _ & HS & HW & HR).
rewrite (afterSleep_on _ _ St). rewrite HE.
destruct (due cfg (dateNow env1 FlushNow) _) eqn:Du.
- right. exists env1, stub. rewrite G. cbn [map app].
  rewrite (quiet_run cfg p cur rest (fst (pollTick cfg env1 e))); auto.
  + repeat split; auto. now left.
  + congruence.
  + eapply Forall_impl; [|exact F']. cbv beta. intros a H. tauto.
- cbn [map app].
  assert (PS' : JsMap.get (snapshot (fst (pollTick cfg env1 e))) p = Some cur)
    by congruence.
  assert (R' : running (fst (pollTick cfg env1 e)) = true) by congruence.
  destruct (stable_run cfg p cur
              (mkPending (kind w) (mtimeMs cur) (size cur)
                         (dateNow env1 (ChangeSeen p)) (firstSeenAt w))
              rest eq_refl eq_refl (fst (pollTick cfg env1 e)) HW R' PS' HP F')
    as [(T & NF)|(env' & stub' & I & H)].
  + left. split; [exact T|]. constructor; assumption.
  + right. exists env', stub'. split; [now right|exact H].
Qed.

Lemma due_quiet cfg now w :
due cfg now w = true -> (awaitWriteFinishMs cfg <= now - lastChangeAt w)%Z.
Proof.
unfold due. intros H. apply andb_prop in H. destruct H as [H _].
rewrite Z.geb_leb in H. now apply Z.leb_le.
Qed.

Lemma not_due_inside_window cfg now w :
(now - lastChangeAt w < awaitWriteFinishMs cfg)%Z -> due cfg now w = false.
Proof.
intros H. unfold due. rewrite Z.geb_leb.
destruct (Z.leb_spec (awaitWriteFinishMs cfg) (now - lastChangeAt w)); [lia|reflexivity].
Qed.

Lemma due_when cfg now w :
(awaitWriteFinishMs cfg <= now - lastChangeAt w)%Z ->
lastSize w <> 0%Z
\/ (minCreateHoldMsForEmptyFile cfg <= now - firstSeenAt w)%Z ->
due cfg now w = true.
Proof.
intros Q H. unfold due, isEmptyCreate. rewrite Z.geb_leb.
destruct (Z.leb_spec (awaitWriteFinishMs cfg) (now - lastChangeAt w)); [|lia].
cbn [andb]. destruct (kind w); [|reflexivity].
destruct (Z.eqb_spec (lastSize w) 0); [|reflexivity].
destruct (Z.ltb_spec (now - firstSeenAt w) (minCreateHoldMsForEmptyFile cfg));
  [|reflexivity].
destruct H; [contradiction|lia].
Qed.

Lemma not_due_held cfg now w :
kind w = KCreate -> lastSize w = 0%Z ->
(now - firstSeenAt w < minCreateHoldMsForEmptyFile cfg)%Z ->
due cfg now w = false.
Proof.
intros K S H. unfold due, isEmptyCreate. rewrite K, S. cbn [Z.eqb andb].
destruct (Z.ltb_spec (now - firstSeenAt w) (minCreateHoldMsForEmptyFile cfg));
  [|lia].
cbn [andb negb]. apply Bool.andb_false_r.
Qed.

End RunFacts.

Lemma sample_completes now files :
  PathView.completes (Sample.tickAt Sample.acceptAll now files).
Proof.
  split; [exists files; reflexivity|].
  split; [apply sample_noReject|apply sample_faithfulStubs].
Qed.

Lemma watching_wf : PathView.wf Scenario.watching.
Proof. split; constructor. Qed.

(** C2.  From the tick that first sees an empty file, over ticks that see
    it empty and whose flush clock is less than
    [minCreateHoldMsForEmptyFile] past [firstSeenAt], nothing is handed
    to the queue for the path, however long the quiet window is; the same
    holds from any state in which the path is a pending CREATE.  When a
    tick sees the file changed to a size other than 0, the pending write
    takes the clock reading of that observation as [lastChangeAt]; from
    then on, while the file is unchanged, the write is released by the
    first tick at least [awaitWriteFinishMs] later, and by none before,
    whatever the hold. *)
Theorem empty_create_is_held :
  forall (cfg : Watcher.Config) (env0 : Watcher.TickEnv)
         (rest : list Watcher.TickEnv) (e : Watcher.Engine) (p : string),
    PathView.wf e ->
    JsMap.get (Watcher.snapshot e) p = None ->
    JsMap.get (Watcher.pendingWrites e) p = None ->
    Forall (fun env =>
              PathView.completes env
              /\ (exists cur, PathView.seen env p = Some cur
                              /\ Watcher.size cur = 0%Z)
              /\ (Watcher.dateNow env Watcher.FlushNow
                  - Watcher.dateNow env0 (Watcher.FirstSeen p)
                  < Watcher.minCreateHoldMsForEmptyFile cfg)%Z) (env0 :: rest) ->
    Watcher.eventsFor p
      (PathView.loopSubmitted (snd (Watcher._pollLoop cfg (env0 :: rest) e))) = []
    /\ PathView.timedFor p (PathView.releasedAt cfg (env0 :: rest) e) = []
    /\ (forall envs e' w,
           PathView.wf e' ->
           JsMap.get (Watcher.pendingWrites e') p = Some w ->
           Watcher.kind w = Watcher.KCreate ->
           Forall (fun env =>
                     PathView.completes env
                     /\ (exists cur, PathView.seen env p = Some cur
                                     /\ Watcher.size cur = 0%Z)
                     /\ (Watcher.dateNow env Watcher.FlushNow - Watcher.firstSeenAt w
                         < Watcher.minCreateHoldMsForEmptyFile cfg)%Z) envs ->
           PathView.timedFor p (PathView.releasedAt cfg envs e') = [])
    /\ (forall env e' w prevInfo cur,
           PathView.wf e' -> PathView.completes env ->
           JsMap.get (Watcher.pendingWrites e') p = Some w ->
           JsMap.get (Watcher.snapshot e') p = Some prevInfo ->
           PathView.seen env p = Some cur ->
           prevInfo <> cur ->
           Watcher.differs (Watcher.lastMtimeMs w) (Watcher.lastSize w) cur = true ->
           Watcher.size cur <> 0%Z ->
           ((Watcher.dateNow env Watcher.FlushNow
             - Watcher.dateNow env (Watcher.ChangeSeen p)
             < Watcher.awaitWriteFinishMs cfg)%Z ->
            Watcher.eventsFor p (Watcher.submitted (snd (Watcher.pollTick cfg env e')))
            = []
            /\ JsMap.get (Watcher.pendingWrites (fst (Watcher.pollTick cfg env e'))) p
               = Some (Watcher.mkPending (Watcher.kind w) (Watcher.mtimeMs cur)
                         (Watcher.size cur)
                         (Watcher.dateNow env (Watcher.ChangeSeen p))
                         (Watcher.firstSeenAt w)))
           /\ ((Watcher.awaitWriteFinishMs cfg
                <= Watcher.dateNow env Watcher.FlushNow
                   - Watcher.dateNow env (Watcher.ChangeSeen p))%Z ->
               JsMap.get (Watcher.pendingWrites (fst (Watcher.pollTick cfg env e'))) p
               = None
               /\ forall stub,
                   Watcher.getFileStub env p = Some stub ->
                   Watcher.eventsFor p
                     (Watcher.submitted (snd (Watcher.pollTick cfg env e')))
                   = [Watcher.releaseEvent
                        (Watcher.mkPending (Watcher.kind w) (Watcher.mtimeMs cur)
                           (Watcher.size cur)
                           (Watcher.dateNow env (Watcher.ChangeSeen p))
                           (Watcher.firstSeenAt w)) stub]))
    /\ (forall env e' w cur,
           PathView.wf e' -> PathView.completes env ->
           JsMap.get (Watcher.pendingWrites e') p = Some w ->
           JsMap.get (Watcher.snapshot e') p = Some cur ->
           PathView.seen env p = Some cur ->
           Watcher.mtimeMs cur = Watcher.lastMtimeMs w ->
           Watcher.size cur = Watcher.lastSize w ->
           Watcher.size cur <> 0%Z ->
           ((Watcher.dateNow env Watcher.FlushNow - Watcher.lastChangeAt w
             < Watcher.awaitWriteFinishMs cfg)%Z ->
            Watcher.eventsFor p (Watcher.submitted (snd (Watcher.pollTick cfg env e')))
            = []
            /\ JsMap.get (Watcher.pendingWrites (fst (Watcher.pollTick cfg env e'))) p
               = Some w)
           /\ ((Watcher.awaitWriteFinishMs cfg
                <= Watcher.dateNow env Watcher.FlushNow - Watcher.lastChangeAt w)%Z ->
               JsMap.get (Watcher.pendingWrites (fst (Watcher.pollTick cfg env e'))) p
               = None
               /\ forall stub,
                   Watcher.getFileStub env p = Some stub ->
                   Watcher.eventsFor p
                     (Watcher.submitted (snd (Watcher.pollTick cfg env e')))
                   = [Watcher.releaseEvent w stub])).
Proof.
  intros cfg env0 rest e p WF PS PW F.
  assert (Held : PathView.timedFor p (PathView.releasedAt cfg (env0 :: rest) e) = []);
    [|split; [rewrite <- RunFacts.timedFor_pollLoop, Held; reflexivity|];
      split; [exact Held|split; [|split]]].
  - inversion F as [|? ? (C & (cur & Sn & S0) & Hold) F']; subst.
    destruct (Watcher.running e) eqn:R;
      [|cbn [PathView.releasedAt]; now rewrite R].
    rewrite RunFacts.timedFor_tick by exact R.
    assert (NS : JsMap.get (Watcher.snapshot e) p <> Some cur) by congruence.
    destruct (RunFacts.fresh_tick cfg env0 e p cur WF C PW NS Sn) as (HP & HE).
    destruct (RunFacts.tick_view cfg env0 e p WF C) as (_ & _ & _ & HW & _).
    rewrite PS in HP, HE. cbn [PathView.entryKind] in HP, HE.
    rewrite RunFacts.not_due_held in HP, HE by (cbn; auto).
    rewrite HE. cbn [map app].
    apply (RunFacts.held_run cfg p rest _
             (Watcher.mkPending Watcher.KCreate (Watcher.mtimeMs cur)
                (Watcher.size cur) (Watcher.dateNow env0 (Watcher.ChangeSeen p))
                (Watcher.dateNow env0 (Watcher.FirstSeen p)))).
    + now apply RunFacts.afterSleep_wf.
    + destruct (RunFacts.afterSleep_fields env0
                  (fst (Watcher.pollTick cfg env0 e))) as (_ & ->).
      exact HP.
    + reflexivity.
    + exact F'.
  - intros envs e' w WF' PW' K F'.
    exact (RunFacts.held_run cfg p envs e' w WF' PW' K F').
  - intros env e' w prevInfo cur WF' C PW' PS' Sn NE D NZ.
    destruct (RunFacts.change_tick cfg env e' p prevInfo cur w WF' C PS' PW' Sn NE D)
      as (HP & HE).
    split.
    + intros Q. rewrite RunFacts.not_due_inside_window in HP, HE by exact Q.
      auto.
    + intros Q. rewrite RunFacts.due_when in HP, HE by (cbn; auto).
      split; [exact HP|]. intros stub St. rewrite St in HE. exact HE.
  - intros env e' w cur WF' C PW' PS' Sn M S NZ.
    destruct (RunFacts.stable_tick cfg env e' p cur w WF' C PS' PW' M S Sn)
      as (HP & HE).
    split.
    + intros Q. rewrite RunFacts.not_due_inside_window in HP, HE by exact Q.
      auto.
    + intros Q.
      rewrite RunFacts.due_when in HP, HE by (auto; left; congruence).
      split; [exact HP|]. intros stub St. rewrite St in HE. exact HE.
Qed.

Lemma empty_create_is_held_witness :
  PathView.timedFor "a.md"
    (PathView.releasedAt Watcher.defaultConfig
       [Scenario.emptyAt 0; Scenario.emptyAt 750; Scenario.emptyAt 1500;
        Scenario.emptyAt 14250] Scenario.watching) = [].
Proof.
  refine (proj1 (proj2 (empty_create_is_held Watcher.defaultConfig (Scenario.emptyAt 0)
                   [Scenario.emptyAt 750; Scenario.emptyAt 1500;
                    Scenario.emptyAt 14250]
                   Scenario.watching "a.md" watching_wf eq_refl eq_refl _))).
  repeat constructor; try apply sample_completes;
    try (exists (Watcher.mkInfo 1 0); split; reflexivity);
    vm_compute; reflexivity.
Defined.

(** The empty file is released as a CREATE once the hold is over, and a
    file that got content at 1500 is released at 3000, long before it. *)
Example empty_create_released_after_hold :
  PathView.timedFor "a.md"
    (PathView.releasedAt Watcher.defaultConfig
       [Scenario.emptyAt 0; Scenario.emptyAt 14250; Scenario.emptyAt 15000;
        Scenario.emptyAt 15750] Scenario.watching)
  = [(15000%Z, mkFileEvent CREATE (Sample.fileStub "a.md" 0 1) None None None)]
  /\ PathView.timedFor "a.md"
       (PathView.releasedAt Watcher.defaultConfig
          [Scenario.emptyAt 0; Scenario.emptyAt 750; Scenario.secondWriteAt 1500;
           Scenario.secondWriteAt 2250; Scenario.secondWriteAt 3000]
          Scenario.watching)
     = [(3000%Z, mkFileEvent CREATE (Sample.fileStub "a.md" 5 2) None None None)].
Proof. vm_compute. split; reflexivity. Qed.

(** ** The poll loop: stabilisation *)

(** C1.  A path that is not pending is seen new or changed, as
    [(m1, s1)], by tick T, and seen changed again, as [(m2, s2)], by the
    next tick and unchanged by every tick after it, with [getFileStub]
    finding the file at size [s2].  The ticks complete, the loop is not
    stopped, and the quiet window does not pass inside tick T.  Then
    [_pollLoop] hands at most one event for the path to [appendQueue]
    ([releasedAt] lists what it hands over, with the flush clock of the
    tick); such an
    event carries size [s2], is a CREATE for a path that was not in the
    snapshot and a CHANGED otherwise, and is handed over by a tick whose
    flush clock is at least [awaitWriteFinishMs] past the clock reading
    at which the second write was observed; and there is exactly one
    event as soon as one of the ticks is that late and, for an empty
    file, also past the empty-file hold. *)
Theorem rewrite_coalesced_into_one_event :
  forall (cfg : Watcher.Config) (envT envT1 : Watcher.TickEnv)
         (rest : list Watcher.TickEnv) (e : Watcher.Engine) (p : string)
         (m1 s1 m2 s2 : Z),
    PathView.wf e ->
    Watcher.running e = true ->
    JsMap.get (Watcher.pendingWrites e) p = None ->
    JsMap.get (Watcher.snapshot e) p <> Some (Watcher.mkInfo m1 s1) ->
    Forall (fun env => PathView.completes env /\ Watcher.stopCalled env = false)
           (envT :: envT1 :: rest) ->
    PathView.seen envT p = Some (Watcher.mkInfo m1 s1) ->
    Watcher.mkInfo m1 s1 <> Watcher.mkInfo m2 s2 ->
    Forall (fun env => PathView.seen env p = Some (Watcher.mkInfo m2 s2)
                       /\ PathView.stubSize env p s2) (envT1 :: rest) ->
    (Watcher.dateNow envT Watcher.FlushNow - Watcher.dateNow envT (Watcher.ChangeSeen p)
     < Watcher.awaitWriteFinishMs cfg)%Z ->
    map snd (PathView.timedFor p (PathView.releasedAt cfg (envT :: envT1 :: rest) e))
    = Watcher.eventsFor p
        (PathView.loopSubmitted
           (snd (Watcher._pollLoop cfg (envT :: envT1 :: rest) e)))
    /\ (List.length
         (PathView.timedFor p (PathView.releasedAt cfg (envT :: envT1 :: rest) e))
       <= 1)%nat
    /\ (forall t ev,
           In (t, ev)
              (PathView.timedFor p
                 (PathView.releasedAt cfg (envT :: envT1 :: rest) e)) ->
           ux_size (stub_stat (ev_file ev)) = s2
           /\ ev_type ev
              = Watcher.kindType (PathView.entryKind (JsMap.get (Watcher.snapshot e) p))
           /\ (Watcher.awaitWriteFinishMs cfg
               <= t - Watcher.dateNow envT1 (Watcher.ChangeSeen p))%Z
           /\ exists env, In env (envT1 :: rest)
                          /\ t = Watcher.dateNow env Watcher.FlushNow)
    /\ ((exists env,
            In env (envT1 :: rest)
            /\ (Watcher.awaitWriteFinishMs cfg
                <= Watcher.dateNow env Watcher.FlushNow
                   - Watcher.dateNow envT1 (Watcher.ChangeSeen p))%Z
            /\ (s2 <> 0%Z
                \/ (Watcher.minCreateHoldMsForEmptyFile cfg
                    <= Watcher.dateNow env Watcher.FlushNow
                       - Watcher.dateNow envT (Watcher.FirstSeen p))%Z)) ->
        List.length
          (PathView.timedFor p (PathView.releasedAt cfg (envT :: envT1 :: rest) e))
        = 1%nat).
Proof.
  intros cfg envT envT1 rest e p m1 s1 m2 s2 WF R PW NS FC SnT NE FS Q.
  split; [apply RunFacts.timedFor_pollLoop|].
  inversion FC as [|? ? (CT & StT) FC']; subst.
  rewrite RunFacts.timedFor_tick by exact R.
  destruct (RunFacts.fresh_tick cfg envT e p _ WF CT PW NS SnT) as (HP & HE).
  destruct (RunFacts.tick_view cfg envT e p WF CT) as (_ & _ & HS & HW & HR).
  rewrite RunFacts.not_due_inside_window in HP, HE by exact Q.
  rewrite HE, (RunFacts.afterSleep_on _ _ StT). cbn [map app].
  cbn [Watcher.mtimeMs Watcher.size] in HP.
  assert (D : Watcher.differs m1 s1 (Watcher.mkInfo m2 s2) = true).
  { apply (proj2 (RunFacts.differs_neq (Watcher.mkInfo m1 s1) (Watcher.mkInfo m2 s2))).
    exact NE. }
  assert (F2 : Forall (fun env =>
                         (PathView.completes env /\ Watcher.stopCalled env = false)
                         /\ PathView.seen env p = Some (Watcher.mkInfo m2 s2)
                         /\ PathView.stubSize env p (Watcher.size (Watcher.mkInfo m2 s2)))
                      (envT1 :: rest)).
  { clear - FC' FS. revert FC' FS. generalize (envT1 :: rest).
    induction l as [|a l IH]; intros A B; [constructor|].
    inversion A; inversion B; subst. constructor; [tauto|auto]. }
  assert (R1 : Watcher.running (fst (Watcher.pollTick cfg envT e)) = true)
    by congruence.
  assert (PS1 : JsMap.get (Watcher.snapshot (fst (Watcher.pollTick cfg envT e))) p
                = Some (Watcher.mkInfo m1 s1)) by congruence.
  destruct (RunFacts.change_run cfg p (Watcher.mkInfo m1 s1) (Watcher.mkInfo m2 s2)
              _ envT1 rest (fst (Watcher.pollTick cfg envT e))
              HW R1 PS1 HP NE D F2)
    as [(T & NF)|(env & stub & I & Du & G & Sz & T)];
    rewrite T; cbn [Watcher.kind Watcher.firstSeenAt Watcher.mtimeMs Watcher.size] in *.
  - split; [cbn; lia|]. split; [intros t ev []|].
    intros (env & I & Q1 & H). exfalso.
    rewrite Forall_forall in NF. specialize (NF env I).
    rewrite RunFacts.due_when in NF; [discriminate|exact Q1|exact H].
  - split; [cbn; lia|]. split; [|reflexivity].
    intros t ev [[= <- <-]|[]].
    split; [exact Sz|]. split; [reflexivity|].
    split; [exact (RunFacts.due_quiet _ _ _ Du)|].
    exists env. auto.
Qed.

Lemma rewrite_coalesced_witness :
  (List.length
     (PathView.timedFor "a.md"
        (PathView.releasedAt Watcher.defaultConfig
           [Scenario.firstWrite; Scenario.secondWriteAt 750;
            Scenario.secondWriteAt 1500; Scenario.secondWriteAt 2250]
           Scenario.watching))
   <= 1)%nat.
Proof.
  refine (proj1 (proj2 (rewrite_coalesced_into_one_event Watcher.defaultConfig
                   Scenario.firstWrite (Scenario.secondWriteAt 750)
                   [Scenario.secondWriteAt 1500; Scenario.secondWriteAt 2250]
                   Scenario.watching "a.md" 1 3 2 5
                   watching_wf eq_refl eq_refl _ _ eq_refl _ _ _))).
  - discriminate.
  - repeat constructor; apply sample_completes.
  - discriminate.
  - repeat constructor;
      exists (Sample.fileStub "a.md" 5 2); split; reflexivity.
  - vm_compute. reflexivity.
Defined.

(** The two writes come out as one CREATE of size 5, at 2250: the second
    write was observed at 750 and the quiet window is 1000 ms. *)
Example rewrite_coalesced_run :
  PathView.timedFor "a.md"
    (PathView.releasedAt Watcher.defaultConfig
       [Scenario.firstWrite; Scenario.secondWriteAt 750;
        Scenario.secondWriteAt 1500; Scenario.secondWriteAt 2250;
        Scenario.secondWriteAt 3000]
       Scenario.watching)
  = [(2250%Z, mkFileEvent CREATE (Sample.fileStub "a.md" 5 2) None None None)].
Proof. vm_compute. reflexivity. Qed.

(** ** The event queue *)

Module QueueFacts.
Import Dispatcher QueueView QueueInv QueueSample.
Import Instances.Lists.
Local Open Scope nat_scope.
Local Open Scope list_scope.

(** *** Lists of tasks *)

Lemma findTask_In id l t : findTask id l = Some t -> In t l /\ t_id t = id.
Proof.
induction l as [|x r IH]; simpl; [discriminate|].
destruct (Nat.eqb_spec (t_id x) id).
- intros [= <-]. auto.
- intros H. destruct (IH H). auto.
Qed.

Lemma findTask_perm id l t :
findTask id l = Some t -> Permutation l (t :: removeTask id l).
Proof.
induction l as [|x r IH]; simpl; [discriminate|].
destruct (Nat.eqb_spec (t_id x) id).
- intros [= <-]. reflexivity.
- intros H. rewrite (IH H) at 1. apply perm_swap.
Qed.

Lemma removeTask_In id l x : In x (removeTask id l) -> In x l.
Proof.
induction l as [|y r IH]; simpl; auto.
destruct (Nat.eqb (t_id y) id); simpl; intuition.
Qed.

Lemma removeTask_sorted id l :
StronglySorted lt (map t_id l) -> StronglySorted lt (map t_id (removeTask id l)).
Proof.
induction l as [|y r IH]; simpl; auto.
intros H. inversion H as [|? ? S F]; subst.
destruct (Nat.eqb (t_id y) id); simpl; auto.
constructor; auto.
rewrite Forall_forall in *. intros z Hz. apply F.
apply in_map_iff in Hz. destruct Hz as (t & <- & Ht).
apply in_map. eapply removeTask_In; eauto.
Qed.

Lemma findFinishing_In id l t ok :
findFinishing id l = Some (t, ok) -> In (t, ok) l /\ t_id t = id.
Proof.
induction l as [|[x b] r IH]; simpl; [discriminate|].
destruct (Nat.eqb_spec (t_id x) id).
- intros [= <- <-]. auto.
- intros H. destruct (IH H). auto.
Qed.

Lemma findFinishing_perm id l t ok :
findFinishing id l = Some (t, ok) ->
Permutation l ((t, ok) :: removeFinishing id l).
Proof.
induction l as [|[x b] r IH]; simpl; [discriminate|].
destruct (Nat.eqb_spec (t_id x) id).
- intros [= <- <-]. reflexivity.
- intros H. rewrite (IH H) at 1. apply perm_swap.
Qed.

Lemma removeFinishing_In id l x : In x (removeFinishing id l) -> In x l.
Proof.
induction l as [|[y b] r IH]; simpl; auto.
destruct (Nat.eqb (t_id y) id); simpl; intuition.
Qed.

(** *** [enqueue] and [runQueuedEvents] on an empty buffer *)

Lemma runQueuedEvents_idle s :
bufferedQueuedItems s = [] -> runQueuedEvents s = s.
Proof. intros H. unfold runQueuedEvents. now rewrite H. Qed.

Lemma enqueue_idle item s :
bufferedQueuedItems s = [] ->
enqueue item s
= mkState [] (JsMap.set (waitingMap s) (filename item) (nextTask s))
          (semWaiting s ++ [mkTask (nextTask s) item]) (semHeld s)
          (lockWaiting s) (processing s) (finishing s) (resolved s)
          (S (nextTask s)) (randomDraws s) (idleWaits s) (nextIdle s)
          (OShifted (mkTask (nextTask s) item) :: OPushed item :: trace s).
Proof.
intros H. unfold enqueue, fireAndForget, runQueuedEvents. simpl.
rewrite H. reflexivity.
Qed.

(** *** Lists *)

Lemma NoDup_map_inj {A B} (f : A -> B) l x y :
NoDup (map f l) -> In x l -> In y l -> f x = f y -> x = y.
Proof.
induction l as [|z r IH]; simpl; [contradiction|].
intros ND Hx Hy E. inversion ND as [|? ? N1 N2]; subst.
destruct Hx as [<-|Hx], Hy as [<-|Hy]; auto.
- exfalso. apply N1. rewrite E. now apply in_map.
- exfalso. apply N1. rewrite <- E. now apply in_map.
Qed.

Lemma NoDup_map_perm {A B} (f : A -> B) l l' :
Permutation l l' -> NoDup (map f l) -> NoDup (map f l').
Proof.
intros P. apply Permutation_NoDup. now apply Permutation_map.
Qed.

Lemma sorted_snoc l n :
StronglySorted lt l -> (forall x, In x l -> x < n) -> StronglySorted lt (l ++ [n]).
Proof.
induction l as [|y r IH]; simpl; intros S F.
- constructor; constructor.
- inversion S as [|? ? S' F']; subst. constructor.
  + apply IH; auto.
  + rewrite Forall_forall in *. intros z Hz. apply in_app_iff in Hz.
    destruct Hz as [Hz|[<-|[]]]; auto.
Qed.

Lemma sorted_head_least l h (f : Task -> bool) a :
StronglySorted lt (map t_id l) -> find f l = Some h ->
In a l -> f a = true -> t_id h <= t_id a.
Proof.
induction l as [|y r IH]; simpl; [discriminate|].
intros S F Ha Fa. inversion S as [|? ? S' F']; subst.
destruct (f y) eqn:Fy.
- inversion F; subst. destruct Ha as [<-|Ha]; [lia|].
  rewrite Forall_forall in F'. specialize (F' (t_id a) (in_map t_id _ _ Ha)). lia.
- destruct Ha as [<-|Ha]; [congruence|]. auto.
Qed.

Lemma In_fst {A B} (x : A) (y : B) l : In (x, y) l -> In x (map fst l).
Proof. intros H. change x with (fst (x, y)). now apply in_map. Qed.

Lemma In_fst_ex {A B} (x : A) (l : list (A * B)) :
In x (map fst l) -> exists y, In (x, y) l.
Proof.
intros H. apply in_map_iff in H. destruct H as ([a b] & <- & H). eauto.
Qed.

(** *** Traces *)

Lemma sequenced_cons o tr :
(forall b, o <> OStart b) -> sequenced tr -> sequenced (o :: tr).
Proof.
intros NS S later b earlier E a Ha Hf Hlt.
destruct later as [|o' later]; simpl in E; inversion E; subst.
- exfalso. now apply (NS b).
- eapply S; eauto.
Qed.

Lemma sequenced_start b tr :
sequenced tr ->
(forall a, In (OShifted a) tr -> taskFile a = taskFile b -> t_id a < t_id b ->
           exists ok, In (OEnd a ok) tr) ->
sequenced (OStart b :: tr).
Proof.
intros S H later b' earlier E a Ha Hf Hlt.
destruct later as [|o' later]; simpl in E; inversion E; subst.
- now apply H.
- eapply S; eauto.
Qed.

Lemma In_settleTrace o t ok tr :
In o tr -> In o (settleTrace t ok tr).
Proof. unfold settleTrace. destruct ok; simpl; auto. Qed.

Lemma settleTrace_inv o t ok tr :
In o (settleTrace t ok tr) ->
In o tr \/ o = OResolved t ok
\/ o = OLog ("Failed to process file event: " ++ taskFile t)%string.
Proof. unfold settleTrace. destruct ok; simpl; intuition. Qed.

Lemma sequenced_settle t ok tr : sequenced tr -> sequenced (settleTrace t ok tr).
Proof.
intros S. unfold settleTrace. destruct ok.
- apply sequenced_cons; [discriminate|exact S].
- apply sequenced_cons; [discriminate|].
  apply sequenced_cons; [discriminate|exact S].
Qed.

Lemma shiftedOf_settle t ok tr : shiftedOf (settleTrace t ok tr) = shiftedOf tr.
Proof. unfold settleTrace. destruct ok; reflexivity. Qed.

Lemma pushedOf_settle t ok tr : pushedOf (settleTrace t ok tr) = pushedOf tr.
Proof. unfold settleTrace. destruct ok; reflexivity. Qed.

(** *** The invariant *)

Ltac views :=
unfold allTasks, started, ended, live in *;
cbn [semWaiting lockWaiting processing finishing resolved trace nextTask
     waitingMap bufferedQueuedItems semHeld idleWaits nextIdle randomDraws
     map List.length] in *.

Ltac inapp := rewrite ?in_app_iff in *; cbn [In] in *.

Ltac solveIn :=
unfold allTasks, started, ended, live in *;
rewrite ?in_app_iff in *; cbn [In] in *; tauto.

Lemma inv_init limit : Inv limit init.
Proof.
constructor; cbn; auto; try contradiction; try (intros; contradiction); try lia.
- constructor.
- constructor.
- constructor.
- constructor.
- intros later b earlier E. destruct later; discriminate.
Qed.

Lemma inv_enqueue limit s item : Inv limit s -> Inv limit (enqueue item s).
Proof.
intros I. rewrite (enqueue_idle item s (inv_buf I)).
assert (Fresh : forall t, In t (allTasks s) -> t_id t <> nextTask s).
{ intros t H. pose proof (inv_ids I t H). lia. }
assert (P : Permutation
              ((semWaiting s ++ [mkTask (nextTask s) item]) ++ lockWaiting s
               ++ started s)
              (mkTask (nextTask s) item :: allTasks s)).
{ unfold allTasks. rewrite <- app_assoc. cbn [app].
  symmetry. apply Permutation_middle. }
constructor;
  cbn [semWaiting lockWaiting processing finishing resolved trace nextTask
       waitingMap bufferedQueuedItems semHeld].
- reflexivity.
- exact (inv_sem I).
- exact (inv_lim I).
- intros t H. apply (Permutation_in _ P) in H. destruct H as [<-|H]; cbn; [lia|].
  pose proof (inv_ids I t H). lia.
- apply (NoDup_map_perm t_id _ _ (Permutation_sym P)). cbn. constructor.
  + intros H. apply in_map_iff in H. destruct H as (t & E & H).
    now apply (Fresh t H).
  + exact (inv_nodup I).
- cbn [semWaiting]. rewrite map_app. cbn. apply sorted_snoc; [exact (inv_semq I)|].
  intros x H. apply in_map_iff in H. destruct H as (t & <- & H).
  apply (inv_ids I). solveIn.
- intros x y Hx Hy. apply in_app_iff in Hy. destruct Hy as [Hy|[<-|[]]].
  + apply (inv_ahead I); auto.
  + cbn. apply (inv_ids I). solveIn.
- exact (inv_lockq I).
- exact (inv_excl I).
- intros t [H|[H|H]]; try discriminate. now apply (inv_started I).
- intros t ok H. right. right. now apply (inv_ended I).
- intros t [H|[H|H]]; try discriminate.
  + inversion H; subst. apply (Permutation_in _ (Permutation_sym P)). now left.
  + apply (inv_shifted I) in H.
    apply (Permutation_in _ (Permutation_sym P)). now right.
- intros a b Ha Hb Hf Hlt.
  assert (Hb' : In b (allTasks s)) by solveIn.
  apply (Permutation_in _ P) in Ha. destruct Ha as [<-|Ha].
  + cbn in Hlt. pose proof (inv_ids I b Hb'). lia.
  + apply (inv_order I a b); auto.
- apply sequenced_cons; [discriminate|].
  apply sequenced_cons; [discriminate|]. exact (inv_seq I).
- destruct (inv_numbering I) as (N1 & N2). cbn [shiftedOf pushedOf].
  rewrite !map_app, N1, N2. cbn [map t_id t_item]. split; [|reflexivity].
  rewrite seq_S. reflexivity.
- intros ND t Ht.
  assert (ND0 : NoDup (map taskFile (mkTask (nextTask s) item :: allTasks s))).
  { apply (NoDup_map_perm taskFile _ _ P). exact ND. }
  cbn in ND0. inversion ND0 as [|? ? N1 N2]; subst.
  assert (Old : In t (live s) ->
                JsMap.get (JsMap.set (waitingMap s) (filename item) (nextTask s))
                          (taskFile t) = Some (t_id t)).
  { intros H. rewrite JsMapFacts.get_set_other.
    - apply (inv_wait I); auto.
    - intros E. apply N1. unfold taskFile at 1. cbn [t_item]. rewrite E.
      apply in_map. solveIn. }
  unfold live in Ht. cbn [semWaiting lockWaiting processing finishing] in Ht.
  rewrite <- app_assoc in Ht. apply in_app_iff in Ht.
  destruct Ht as [Ht|[<-|Ht]].
  + apply Old. solveIn.
  + cbn. apply JsMapFacts.get_set_same.
  + apply Old. solveIn.
- intros t Ht. apply (Permutation_in _ P) in Ht. destruct Ht as [<-|Ht].
  + now left.
  + right. right. now apply (inv_created I).
Qed.

Lemma inv_grant limit s t rest :
Inv limit s -> semWaiting s = t :: rest -> Nat.ltb (semHeld s) limit = true ->
Inv limit (mkState (bufferedQueuedItems s) (waitingMap s) rest (S (semHeld s))
                   (lockWaiting s ++ [t]) (processing s) (finishing s)
                   (resolved s) (nextTask s) (randomDraws s) (idleWaits s)
                   (nextIdle s) (trace s)).
Proof.
intros I E L. apply Nat.ltb_lt in L.
assert (P : Permutation (rest ++ (lockWaiting s ++ [t]) ++ started s) (allTasks s)).
{ unfold allTasks. rewrite E. change (t :: rest) with ([t] ++ rest).
  aac_reflexivity. }
assert (PL : Permutation
               (rest ++ (lockWaiting s ++ [t]) ++ processing s
                ++ map fst (finishing s)) (live s)).
{ unfold live. rewrite E. change (t :: rest) with ([t] ++ rest).
  aac_reflexivity. }
pose proof (inv_semq I) as SQ. rewrite E in SQ. cbn in SQ.
inversion SQ as [|? ? SQ1 SQ2]; subst.
constructor;
  cbn [semWaiting lockWaiting processing finishing resolved trace nextTask
       waitingMap bufferedQueuedItems semHeld];
  change (started (mkState (bufferedQueuedItems s) (waitingMap s) rest
                     (S (semHeld s)) (lockWaiting s ++ [t]) (processing s)
                     (finishing s) (resolved s) (nextTask s) (randomDraws s)
                     (idleWaits s) (nextIdle s) (trace s)))
    with (started s);
  change (ended (mkState (bufferedQueuedItems s) (waitingMap s) rest
                   (S (semHeld s)) (lockWaiting s ++ [t]) (processing s)
                   (finishing s) (resolved s) (nextTask s) (randomDraws s)
                   (idleWaits s) (nextIdle s) (trace s)))
    with (ended s).
- exact (inv_buf I).
- rewrite (inv_sem I), length_app. cbn. lia.
- lia.
- intros x H. apply (inv_ids I). apply (Permutation_in _ P). exact H.
- apply (NoDup_map_perm t_id _ _ (Permutation_sym P)). exact (inv_nodup I).
- exact SQ1.
- intros x y Hx Hy. rewrite <- app_assoc in Hx. apply in_app_iff in Hx.
  destruct Hx as [Hx|Hx].
  + apply (inv_ahead I); [solveIn|rewrite E; now right].
  + cbn in Hx. destruct Hx as [<-|Hx].
    * rewrite Forall_forall in SQ2. apply SQ2. now apply in_map.
    * apply (inv_ahead I); [solveIn|rewrite E; now right].
- rewrite map_app. cbn. apply sorted_snoc; [exact (inv_lockq I)|].
  intros x H. apply in_map_iff in H. destruct H as (x' & <- & H).
  apply (inv_ahead I); [solveIn|rewrite E; now left].
- exact (inv_excl I).
- exact (inv_started I).
- exact (inv_ended I).
- intros x H. apply (Permutation_in _ (Permutation_sym P)).
  now apply (inv_shifted I).
- intros a b Ha Hb Hf Hlt. apply (inv_order I a b); auto.
  apply (Permutation_in _ P). exact Ha.
- exact (inv_seq I).
- exact (inv_numbering I).
- intros ND x Hx. apply (inv_wait I).
  + apply (NoDup_map_perm taskFile _ _ P). exact ND.
  + apply (Permutation_in _ PL). exact Hx.
- intros x Hx. apply (Permutation_in _ P) in Hx. apply (inv_created I) in Hx.
  cbn [In]. auto.
Qed.

Lemma same_id_same_task limit s a b :
Inv limit s -> In a (allTasks s) -> In b (allTasks s) -> t_id a = t_id b -> a = b.
Proof. intros I. apply NoDup_map_inj. exact (inv_nodup I). Qed.

(** When [serialized] starts the callback of a task, the calls for the
  earlier tasks of the same path have ended. *)
Lemma begin_predecessors limit s id t h :
Inv limit s ->
findTask id (lockWaiting s) = Some t ->
existsb (sameFile (taskFile t)) (processing s) = false ->
headOfKey (taskFile t) (lockWaiting s) = Some h ->
Nat.eqb (t_id h) id = true ->
forall a, In a (allTasks s) -> taskFile a = taskFile t -> t_id a < t_id t ->
          In a (ended s).
Proof.
intros I F X H E a Ha Hf Hlt.
destruct (findTask_In _ _ _ F) as (Tin & Tid).
apply Nat.eqb_eq in E.
assert (SF : sameFile (taskFile t) a = true)
  by (unfold sameFile; rewrite Hf; apply String.eqb_refl).
unfold allTasks, started in Ha. rewrite !in_app_iff in Ha.
destruct Ha as [Ha|[Ha|[Ha|Ha]]].
- pose proof (inv_ahead I t a). assert (t_id t < t_id a); [|lia].
  apply H0; [solveIn|exact Ha].
- assert (Hh : h = t).
  { unfold headOfKey in H. apply find_some in H. destruct H as (Hin & _).
    apply (same_id_same_task limit s); auto; try solveIn. congruence. }
  subst h.
  pose proof (sorted_head_least _ _ _ a (inv_lockq I) H Ha SF). lia.
- exfalso. assert (existsb (sameFile (taskFile t)) (processing s) = true);
    [|congruence].
  apply existsb_exists. eauto.
- unfold ended. rewrite in_app_iff. exact Ha.
Qed.

Lemma inv_begin limit s id t h :
Inv limit s ->
findTask id (lockWaiting s) = Some t ->
existsb (sameFile (taskFile t)) (processing s) = false ->
headOfKey (taskFile t) (lockWaiting s) = Some h ->
Nat.eqb (t_id h) id = true ->
Inv limit (mkState (bufferedQueuedItems s) (waitingMap s) (semWaiting s)
                   (semHeld s) (removeTask id (lockWaiting s))
                   (processing s ++ [t]) (finishing s) (resolved s)
                   (nextTask s) (randomDraws s) (idleWaits s) (nextIdle s)
                   (OStart t :: trace s)).
Proof.
intros I F X H E.
pose proof (begin_predecessors limit s id t h I F X H E) as Pred.
pose proof (findTask_perm _ _ _ F) as PT.
change (t :: removeTask id (lockWaiting s))
  with ([t] ++ removeTask id (lockWaiting s)) in PT.
destruct (findTask_In _ _ _ F) as (Tin & Tid).
assert (P : Permutation
              (semWaiting s ++ removeTask id (lockWaiting s)
               ++ (processing s ++ [t]) ++ map fst (finishing s)
               ++ map fst (resolved s)) (allTasks s)).
{ unfold allTasks, started. revert PT.
  generalize (removeTask id (lockWaiting s)). intros rm PT.
  rewrite PT. aac_reflexivity. }
assert (PL : Permutation
               (semWaiting s ++ removeTask id (lockWaiting s)
                ++ (processing s ++ [t]) ++ map fst (finishing s)) (live s)).
{ unfold live. revert PT.
  generalize (removeTask id (lockWaiting s)). intros rm PT.
  rewrite PT. aac_reflexivity. }
assert (St : forall x, In x ((processing s ++ [t]) ++ map fst (finishing s)
                             ++ map fst (resolved s))
                       -> x = t \/ In x (started s)).
{ intros x Hx. unfold started. rewrite !in_app_iff in *. cbn in Hx.
  intuition (subst; auto). }
constructor; unfold allTasks, started, ended, live;
  cbn [semWaiting lockWaiting processing finishing resolved trace nextTask
       waitingMap bufferedQueuedItems semHeld].
- exact (inv_buf I).
- pose proof (Permutation_length PT) as Len. cbn in Len.
  rewrite (inv_sem I), length_app. cbn. lia.
- exact (inv_lim I).
- intros x Hx. apply (inv_ids I). apply (Permutation_in _ P). exact Hx.
- apply (NoDup_map_perm t_id _ _ (Permutation_sym P)). exact (inv_nodup I).
- exact (inv_semq I).
- intros x y Hx Hy. apply (inv_ahead I); [|exact Hy].
  apply in_app_iff in Hx. destruct Hx as [Hx|Hx].
  + apply removeTask_In in Hx. solveIn.
  + destruct (St x Hx) as [->|Hs]; solveIn.
- apply removeTask_sorted. exact (inv_lockq I).
- apply (NoDup_map_perm taskFile ([t] ++ processing s));
    [aac_reflexivity|]. cbn. constructor; [|exact (inv_excl I)].
  intros Hin. apply in_map_iff in Hin. destruct Hin as (y & Ey & Hy).
  assert (existsb (sameFile (taskFile t)) (processing s) = true); [|congruence].
  apply existsb_exists. exists y. split; auto. unfold sameFile.
  now apply String.eqb_eq.
- intros x [Hx|Hx].
  + inversion Hx; subst. rewrite !in_app_iff. cbn. tauto.
  + apply (inv_started I) in Hx. unfold started in Hx.
    rewrite !in_app_iff in *. tauto.
- intros x ok Hx. right. now apply (inv_ended I).
- intros x [Hx|Hx]; [discriminate|].
  apply (Permutation_in _ (Permutation_sym P)). now apply (inv_shifted I).
- intros a b Ha Hb Hf Hlt. apply (Permutation_in _ P) in Ha.
  destruct (St b Hb) as [->|Hs].
  + apply (Pred a Ha Hf Hlt).
  + apply (inv_order I a b); auto.
- apply sequenced_start; [exact (inv_seq I)|].
  intros a Ha Hf Hlt. apply (inv_shifted I) in Ha.
  pose proof (Pred a Ha Hf Hlt) as He. unfold ended in He.
  rewrite <- map_app in He. apply In_fst_ex in He. destruct He as (ok & He).
  exists ok. now apply (inv_ended I).
- exact (inv_numbering I).
- intros ND x Hx. apply (inv_wait I).
  + apply (NoDup_map_perm taskFile _ _ P). exact ND.
  + apply (Permutation_in _ PL). exact Hx.
- intros x Hx. apply (Permutation_in _ P) in Hx. apply (inv_created I) in Hx.
  cbn [In]. auto.
Qed.

Lemma inv_finish limit s id ok t :
Inv limit s ->
findTask id (processing s) = Some t ->
Inv limit (mkState (bufferedQueuedItems s) (waitingMap s) (semWaiting s)
                   (semHeld s) (lockWaiting s) (removeTask id (processing s))
                   (finishing s ++ [(t, ok)]) (resolved s)
                   (nextTask s) (randomDraws s) (idleWaits s) (nextIdle s)
                   (OEnd t ok :: trace s)).
Proof.
intros I F.
pose proof (findTask_perm _ _ _ F) as PT.
change (t :: removeTask id (processing s))
  with ([t] ++ removeTask id (processing s)) in PT.
destruct (findTask_In _ _ _ F) as (Tin & Tid).
assert (PS : Permutation
               (removeTask id (processing s) ++ map fst (finishing s ++ [(t, ok)])
                ++ map fst (resolved s)) (started s)).
{ unfold started. rewrite map_app. cbn [map fst]. revert PT.
  generalize (removeTask id (processing s)). intros rm PT.
  rewrite PT. aac_reflexivity. }
assert (P : Permutation
              (semWaiting s ++ lockWaiting s
               ++ removeTask id (processing s) ++ map fst (finishing s ++ [(t, ok)])
               ++ map fst (resolved s)) (allTasks s)).
{ unfold allTasks. now rewrite PS. }
assert (PL : Permutation
               (semWaiting s ++ lockWaiting s ++ removeTask id (processing s)
                ++ map fst (finishing s ++ [(t, ok)])) (live s)).
{ unfold live. rewrite map_app. cbn [map fst]. revert PT.
  generalize (removeTask id (processing s)). intros rm PT.
  rewrite PT. aac_reflexivity. }
constructor; unfold allTasks, started, ended, live;
  cbn [semWaiting lockWaiting processing finishing resolved trace nextTask
       waitingMap bufferedQueuedItems semHeld].
- exact (inv_buf I).
- pose proof (Permutation_length PT) as Len. cbn in Len.
  rewrite (inv_sem I), length_app. cbn. lia.
- exact (inv_lim I).
- intros x Hx. apply (inv_ids I). apply (Permutation_in _ P). exact Hx.
- apply (NoDup_map_perm t_id _ _ (Permutation_sym P)). exact (inv_nodup I).
- exact (inv_semq I).
- intros x y Hx Hy. apply (inv_ahead I); [|exact Hy].
  apply in_app_iff in Hx. apply in_app_iff. destruct Hx as [Hx|Hx]; [now left|].
  right. apply (Permutation_in _ PS). exact Hx.
- exact (inv_lockq I).
- pose proof (NoDup_map_perm taskFile _ _ PT (inv_excl I)) as ND.
  cbn in ND. now inversion ND.
- intros x [Hx|Hx]; [discriminate|].
  apply (Permutation_in _ (Permutation_sym PS)). now apply (inv_started I).
- intros x ok' Hx. rewrite <- app_assoc in Hx. apply in_app_iff in Hx.
  destruct Hx as [Hx|[Hx|Hx]].
  + right. apply (inv_ended I). apply in_app_iff. now left.
  + inversion Hx; subst. now left.
  + right. apply (inv_ended I). apply in_app_iff. now right.
- intros x [Hx|Hx]; [discriminate|].
  apply (Permutation_in _ (Permutation_sym P)). now apply (inv_shifted I).
- intros a b Ha Hb Hf Hlt.
  apply (Permutation_in _ P) in Ha. apply (Permutation_in _ PS) in Hb.
  pose proof (inv_order I a b Ha Hb Hf Hlt) as He.
  unfold ended in He. rewrite map_app. rewrite !in_app_iff in *. tauto.
- apply sequenced_cons; [discriminate|exact (inv_seq I)].
- exact (inv_numbering I).
- intros ND x Hx. apply (inv_wait I).
  + apply (NoDup_map_perm taskFile _ _ P). exact ND.
  + apply (Permutation_in _ PL). exact Hx.
- intros x Hx. apply (Permutation_in _ P) in Hx. apply (inv_created I) in Hx.
  cbn [In]. auto.
Qed.

Lemma inv_resume limit s id t ok :
Inv limit s ->
findFinishing id (finishing s) = Some (t, ok) ->
Inv limit (mkState (bufferedQueuedItems s)
                   (JsMap.delete (waitingMap s) (taskFile t))
                   (semWaiting s) (Nat.pred (semHeld s))
                   (lockWaiting s) (processing s)
                   (removeFinishing id (finishing s))
                   ((t, ok) :: resolved s) (nextTask s)
                   (randomDraws s) (idleWaits s) (nextIdle s)
                   (settleTrace t ok (trace s))).
Proof.
intros I F.
pose proof (findFinishing_perm _ _ _ _ F) as PT.
destruct (findFinishing_In _ _ _ _ F) as (Tin & Tid).
assert (PF : Permutation (map fst (finishing s))
                         ([t] ++ map fst (removeFinishing id (finishing s)))).
{ rewrite PT at 1. reflexivity. }
assert (PE : Permutation
               (map fst (removeFinishing id (finishing s))
                ++ map fst ((t, ok) :: resolved s)) (ended s)).
{ unfold ended. cbn [map fst]. revert PF.
  generalize (map fst (removeFinishing id (finishing s))). intros rm PF.
  rewrite PF. change (t :: map fst (resolved s)) with ([t] ++ map fst (resolved s)).
  aac_reflexivity. }
assert (PS : Permutation
               (processing s ++ map fst (removeFinishing id (finishing s))
                ++ map fst ((t, ok) :: resolved s)) (started s)).
{ unfold started. fold (ended s). now rewrite PE. }
assert (P : Permutation
              (semWaiting s ++ lockWaiting s ++ processing s
               ++ map fst (removeFinishing id (finishing s))
               ++ map fst ((t, ok) :: resolved s)) (allTasks s)).
{ unfold allTasks. now rewrite PS. }
assert (PA : Permutation (allTasks s)
               ([t] ++ (semWaiting s ++ lockWaiting s ++ processing s
                        ++ map fst (removeFinishing id (finishing s)))
                    ++ map fst (resolved s))).
{ unfold allTasks, started. revert PF.
  generalize (map fst (removeFinishing id (finishing s))). intros rm PF.
  rewrite PF. aac_reflexivity. }
constructor; unfold allTasks, started, ended, live;
  cbn [semWaiting lockWaiting processing finishing resolved trace nextTask
       waitingMap bufferedQueuedItems semHeld].
- exact (inv_buf I).
- pose proof (Permutation_length PT) as Len. cbn in Len.
  rewrite (inv_sem I). lia.
- pose proof (inv_lim I). lia.
- intros x Hx. apply (inv_ids I). apply (Permutation_in _ P). exact Hx.
- apply (NoDup_map_perm t_id _ _ (Permutation_sym P)). exact (inv_nodup I).
- exact (inv_semq I).
- intros x y Hx Hy. apply (inv_ahead I); [|exact Hy].
  apply in_app_iff in Hx. apply in_app_iff. destruct Hx as [Hx|Hx]; [now left|].
  right. apply (Permutation_in _ PS). exact Hx.
- exact (inv_lockq I).
- exact (inv_excl I).
- intros x Hx. apply (Permutation_in _ (Permutation_sym PS)).
  apply (inv_started I).
  destruct (settleTrace_inv _ _ _ _ Hx) as [H|[H|H]]; [exact H|discriminate..].
- intros x ok' Hx. apply In_settleTrace. apply (inv_ended I).
  rewrite in_app_iff in *. cbn in Hx. destruct Hx as [Hx|[Hx|Hx]].
  + left. eapply removeFinishing_In; eauto.
  + inversion Hx; subst. now left.
  + now right.
- intros x Hx. apply (Permutation_in _ (Permutation_sym P)).
  apply (inv_shifted I).
  destruct (settleTrace_inv _ _ _ _ Hx) as [H|[H|H]]; [exact H|discriminate..].
- intros a b Ha Hb Hf Hlt.
  apply (Permutation_in _ P) in Ha. apply (Permutation_in _ PS) in Hb.
  apply (Permutation_in _ (Permutation_sym PE)).
  exact (inv_order I a b Ha Hb Hf Hlt).
- apply sequenced_settle. exact (inv_seq I).
- rewrite shiftedOf_settle, pushedOf_settle. exact (inv_numbering I).
- intros ND x Hx.
  assert (ND0 : NoDup (map taskFile (allTasks s))).
  { apply (NoDup_map_perm taskFile _ _ P). exact ND. }
  pose proof (NoDup_map_perm taskFile _ _ PA ND0) as ND1.
  cbn [app map] in ND1. inversion ND1 as [|? ? N1 N2]; subst.
  rewrite JsMapFacts.get_delete_other.
  + apply (inv_wait I ND0). unfold live.
    rewrite !in_app_iff in *. destruct Hx as [Hx|[Hx|[Hx|Hx]]]; auto.
    right. right. right. apply (Permutation_in _ (Permutation_sym PF)).
    now right.
  + intros E. apply N1. rewrite E. apply in_map. apply in_app_iff. left.
    rewrite !in_app_iff in *. tauto.
- intros x Hx. apply (Permutation_in _ P) in Hx. apply In_settleTrace.
  now apply (inv_created I).
Qed.

Lemma inv_idle limit s iw ni o :
Inv limit s -> (forall b, o <> OStart b) -> (forall t, o <> OShifted t) ->
(forall i, o <> OPushed i) ->
Inv limit (mkState (bufferedQueuedItems s) (waitingMap s) (semWaiting s)
                   (semHeld s) (lockWaiting s) (processing s) (finishing s)
                   (resolved s) (nextTask s) (randomDraws s) iw ni
                   (o :: trace s)).
Proof.
intros I N1 N2 N3.
constructor; unfold allTasks, started, ended, live;
  cbn [semWaiting lockWaiting processing finishing resolved trace nextTask
       waitingMap bufferedQueuedItems semHeld].
- exact (inv_buf I).
- exact (inv_sem I).
- exact (inv_lim I).
- exact (inv_ids I).
- exact (inv_nodup I).
- exact (inv_semq I).
- exact (inv_ahead I).
- exact (inv_lockq I).
- exact (inv_excl I).
- intros x [Hx|Hx]; [subst; now destruct (N1 x)|]. now apply (inv_started I).
- intros x ok Hx. right. now apply (inv_ended I).
- intros x [Hx|Hx]; [subst; now destruct (N2 x)|]. now apply (inv_shifted I).
- exact (inv_order I).
- apply sequenced_cons; [exact N1|exact (inv_seq I)].
- destruct o; try exact (inv_numbering I).
  + now destruct (N3 item).
  + now destruct (N2 t).
- exact (inv_wait I).
- intros x Hx. right. now apply (inv_created I).
Qed.

Theorem inv_step limit s a s' :
Inv limit s -> step limit s a = Some s' -> Inv limit s'.
Proof.
intros I H. destruct a; cbn [step] in H; unfold semaphoreAdmit, serializedStart, fireAndForget in H.
- inversion H; subst. now apply inv_enqueue.
- destruct (semWaiting s) as [|t rest] eqn:E; [discriminate|].
  destruct (Nat.ltb (semHeld s) limit) eqn:L; [|discriminate].
  inversion H; subst. now apply inv_grant.
- destruct (findTask id (lockWaiting s)) as [t|] eqn:F; [|discriminate].
  destruct (existsb (sameFile (taskFile t)) (processing s)) eqn:X; [discriminate|].
  destruct (headOfKey (taskFile t) (lockWaiting s)) as [h|] eqn:Hd; [|discriminate].
  destruct (Nat.eqb (t_id h) id) eqn:E; [|discriminate].
  inversion H; subst. eapply inv_begin; eauto.
- destruct (findTask id (processing s)) as [t|] eqn:F; [|discriminate].
  inversion H; subst. now apply inv_finish.
- destruct (findFinishing id (finishing s)) as [[t ok]|] eqn:F; [|discriminate].
  inversion H; subst. rewrite runQueuedEvents_idle by (cbn; exact (inv_buf I)).
  now apply inv_resume.
- inversion H; subst. apply inv_idle; auto; discriminate.
- destruct (lookupIdle k (idleWaits s)) as [hs|]; [|discriminate].
  destruct (forallb (isResolved s) hs); [|discriminate].
  inversion H; subst. apply inv_idle; auto; discriminate.
Qed.

Theorem inv_run limit acts :
forall s s', Inv limit s -> run limit s acts = Some s' -> Inv limit s'.
Proof.
induction acts as [|a r IH]; cbn [run]; intros s s' I H.
- now inversion H; subst.
- destruct (step limit s a) as [s1|] eqn:E; [|discriminate].
  eapply IH; [|exact H]. eapply inv_step; eauto.
Qed.

(** *** What only grows *)

Lemma trace_step limit s a s' :
bufferedQueuedItems s = [] -> step limit s a = Some s' ->
forall o, In o (trace s) -> In o (trace s').
Proof.
intros B H o Ho. destruct a; cbn [step] in H; unfold semaphoreAdmit, serializedStart, fireAndForget in H.
- inversion H; subst. rewrite (enqueue_idle _ _ B). cbn. auto.
- destruct (semWaiting s); [discriminate|].
  destruct (Nat.ltb _ _); [|discriminate]. inversion H; subst. exact Ho.
- destruct (findTask _ _); [|discriminate].
  destruct (existsb _ _); [discriminate|].
  destruct (headOfKey _ _); [|discriminate].
  destruct (Nat.eqb _ _); [|discriminate]. inversion H; subst. cbn. auto.
- destruct (findTask _ _); [|discriminate]. inversion H; subst. cbn. auto.
- destruct (findFinishing _ _) as [[t ok]|]; [|discriminate].
  inversion H; subst. rewrite runQueuedEvents_idle by (cbn; exact B).
  cbn. now apply In_settleTrace.
- inversion H; subst. cbn. auto.
- destruct (lookupIdle _ _); [|discriminate].
  destruct (forallb _ _); [|discriminate]. inversion H; subst. cbn. auto.
Qed.

Lemma trace_run limit acts :
forall s s', Inv limit s -> run limit s acts = Some s' ->
             forall o, In o (trace s) -> In o (trace s').
Proof.
induction acts as [|a r IH]; cbn [run]; intros s s' I H o Ho.
- now inversion H; subst.
- destruct (step limit s a) as [s1|] eqn:E; [|discriminate].
  apply (IH s1 s' (inv_step _ _ _ _ I E) H).
  eapply trace_step; eauto. exact (inv_buf I).
Qed.

Lemma pushed_step limit s a s' :
bufferedQueuedItems s = [] -> step limit s a = Some s' ->
pushedOf (trace s') = pushedOf (trace s) ++ enqueuedItems [a].
Proof.
intros B H. destruct a; cbn [step enqueuedItems] in *; unfold semaphoreAdmit, serializedStart, fireAndForget in H;
  rewrite ?app_nil_r.
- inversion H; subst. rewrite (enqueue_idle _ _ B). reflexivity.
- destruct (semWaiting s); [discriminate|].
  destruct (Nat.ltb _ _); [|discriminate]. now inversion H; subst.
- destruct (findTask _ _); [|discriminate].
  destruct (existsb _ _); [discriminate|].
  destruct (headOfKey _ _); [|discriminate].
  destruct (Nat.eqb _ _); [|discriminate]. now inversion H; subst.
- destruct (findTask _ _); [|discriminate]. now inversion H; subst.
- destruct (findFinishing _ _) as [[t ok]|]; [|discriminate].
  inversion H; subst. rewrite runQueuedEvents_idle by (cbn; exact B).
  cbn. apply pushedOf_settle.
- now inversion H; subst.
- destruct (lookupIdle _ _); [|discriminate].
  destruct (forallb _ _); [|discriminate]. now inversion H; subst.
Qed.

Lemma enqueuedItems_cons a r :
enqueuedItems (a :: r) = enqueuedItems [a] ++ enqueuedItems r.
Proof. destruct a; reflexivity. Qed.

Lemma pushed_run limit acts :
forall s s', Inv limit s -> run limit s acts = Some s' ->
             pushedOf (trace s') = pushedOf (trace s) ++ enqueuedItems acts.
Proof.
induction acts as [|a r IH]; cbn [run]; intros s s' I H.
- inversion H; subst. cbn. now rewrite app_nil_r.
- destruct (step limit s a) as [s1|] eqn:E; [|discriminate].
  rewrite (IH s1 s' (inv_step _ _ _ _ I E) H).
  rewrite (pushed_step _ _ _ _ (inv_buf I) E), (enqueuedItems_cons a r).
  rewrite <- app_assoc. reflexivity.
Qed.

(** *** [waitForIdle] *)

Lemma lookupIdle_removed k l : lookupIdle k (removeIdle k l) = None.
Proof.
induction l as [|[k0 h0] r IH]; cbn; [reflexivity|].
destruct (Nat.eqb_spec k0 k); cbn; [exact IH|].
destruct (Nat.eqb_spec k0 k); [contradiction|exact IH].
Qed.

Lemma lookupIdle_remove k k' l hs :
lookupIdle k (removeIdle k' l) = Some hs -> lookupIdle k l = Some hs.
Proof.
destruct (Nat.eqb_spec k k') as [->|NE].
- rewrite lookupIdle_removed. discriminate.
- induction l as [|[k0 h0] r IH]; cbn; [discriminate|].
  destruct (Nat.eqb_spec k0 k'); cbn.
  + intros H. destruct (Nat.eqb_spec k0 k); [congruence|auto].
  + destruct (Nat.eqb_spec k0 k); auto.
Qed.

Lemma awaits_step limit k hs s a s' :
bufferedQueuedItems s = [] -> awaits k hs s -> step limit s a = Some s' ->
awaits k hs s'.
Proof.
intros B (L & A) H. destruct a as [item| |id|id ok|id| |k']; cbn [step] in H; unfold semaphoreAdmit, serializedStart, fireAndForget in H.
- inversion H; subst. rewrite (enqueue_idle _ _ B). split; cbn; auto.
- destruct (semWaiting s); [discriminate|].
  destruct (Nat.ltb _ _); [|discriminate]. inversion H; subst. split; cbn; auto.
- destruct (findTask _ _); [|discriminate].
  destruct (existsb _ _); [discriminate|].
  destruct (headOfKey _ _); [|discriminate].
  destruct (Nat.eqb _ _); [|discriminate]. inversion H; subst. split; cbn; auto.
- destruct (findTask _ _); [|discriminate]. inversion H; subst. split; cbn; auto.
- destruct (findFinishing _ _) as [[t ok]|]; [|discriminate].
  inversion H; subst. rewrite runQueuedEvents_idle by (cbn; exact B).
  split; cbn; auto.
- inversion H; subst. split; cbn; [lia|].
  intros hs'. destruct (Nat.eqb_spec (nextIdle s) k); [lia|]. apply A.
- destruct (lookupIdle k' (idleWaits s)) as [hs0|]; [|discriminate].
  destruct (forallb (isResolved s) hs0); [|discriminate]. inversion H; subst.
  split; cbn; auto. intros hs' Hl. apply A. eapply lookupIdle_remove; eauto.
Qed.

Lemma awaits_run limit k hs acts :
forall s s', Inv limit s -> awaits k hs s -> run limit s acts = Some s' ->
             awaits k hs s'.
Proof.
induction acts as [|a r IH]; cbn [run]; intros s s' I A H.
- now inversion H; subst.
- destruct (step limit s a) as [s1|] eqn:E; [|discriminate].
  apply (IH s1 s' (inv_step _ _ _ _ I E)); auto.
  eapply awaits_step; eauto. exact (inv_buf I).
Qed.

Lemma get_In_values {V} (m : JsMap.t V) k v :
JsMap.get m k = Some v -> In v (JsMap.values m).
Proof.
intros H. apply JsMapFacts.get_In in H. unfold JsMap.values.
change v with (snd (k, v)). now apply in_map.
Qed.

(** When the [waitForIdle] call made in [s1] can resolve in [s2], the
  calls of [processFileEvent] for all tasks of [s1] have ended. *)
Lemma idle_barrier limit s1 acts2 s2 s3 :
Inv limit s1 ->
NoDup (map taskFile (allTasks s1)) ->
run limit s1 (AWaitForIdle :: acts2) = Some s2 ->
step limit s2 (AIdleDone (nextIdle s1)) = Some s3 ->
forall t, In t (allTasks s1) -> exists ok, In (OEnd t ok) (trace s2).
Proof.
intros I1 ND R D t Ht.
cbn [run step] in R.
set (s1' := mkState (bufferedQueuedItems s1) (waitingMap s1) (semWaiting s1)
                    (semHeld s1) (lockWaiting s1) (processing s1) (finishing s1)
                    (resolved s1) (nextTask s1) (randomDraws s1)
                    ((nextIdle s1, JsMap.values (waitingMap s1)) :: idleWaits s1)
                    (S (nextIdle s1))
                    (OIdleCalled (nextIdle s1) (JsMap.values (waitingMap s1))
                     :: trace s1)) in *.
assert (I1' : Inv limit s1').
{ apply (inv_step limit s1 AWaitForIdle); [exact I1|reflexivity]. }
assert (A1 : awaits (nextIdle s1) (JsMap.values (waitingMap s1)) s1').
{ split; cbn; [lia|]. rewrite Nat.eqb_refl. now intros hs' [= <-]. }
pose proof (inv_run limit acts2 s1' s2 I1' R) as I2.
pose proof (awaits_run limit _ _ acts2 s1' s2 I1' A1 R) as (_ & A2).
assert (Tr : forall o, In o (trace s1) -> In o (trace s2)).
{ intros o Ho. apply (trace_run limit acts2 s1' s2 I1' R). cbn. auto. }
cbn [step] in D.
destruct (lookupIdle (nextIdle s1) (idleWaits s2)) as [hs|] eqn:L; [|discriminate].
destruct (forallb (isResolved s2) hs) eqn:FA; [|discriminate].
rewrite (A2 hs eq_refl) in FA. rewrite forallb_forall in FA.
assert (T2 : In t (allTasks s2)).
{ apply (inv_shifted I2). apply Tr. now apply (inv_created I1). }
assert (Cases : In t (live s1) \/ In t (map fst (resolved s1))).
{ unfold allTasks, started, live in *. rewrite !in_app_iff in *. tauto. }
destruct Cases as [Hl|Hr].
- pose proof (inv_wait I1 ND t Hl) as W. apply get_In_values in W.
  specialize (FA _ W). unfold isResolved in FA.
  apply existsb_exists in FA. destruct FA as ([t' ok] & Hin & E).
  apply Nat.eqb_eq in E. cbn in E.
  assert (t' = t).
  { apply (same_id_same_task limit s2); auto.
    unfold allTasks, started. rewrite !in_app_iff. right. right. right. right.
    eapply In_fst; eauto. }
  subst t'. exists ok. apply (inv_ended I2). apply in_app_iff. now right.
- apply In_fst_ex in Hr. destruct Hr as (ok & Hr). exists ok.
  apply Tr. apply (inv_ended I1). apply in_app_iff. now right.
Qed.

End QueueFacts.


(** A run of seven events for distinct paths against five slots: five
    calls are in flight, two tasks wait for a slot and the semaphore
    admits no sixth. *)
Example seven_paths_five_slots :
  List.length (Dispatcher.processing (QueueSample.stateAfter 5 QueueSample.sevenPaths))
  = 5%nat
  /\ List.length (Dispatcher.semWaiting (QueueSample.stateAfter 5 QueueSample.sevenPaths))
     = 2%nat
  /\ Dispatcher.step 5 (QueueSample.stateAfter 5 QueueSample.sevenPaths)
       Dispatcher.AGrant = None.
Proof. vm_compute. repeat split; reflexivity. Qed.

(** In that run [waitForIdle] cannot resolve while the last task has
    not settled, and can once it has. *)
Example seven_paths_idle :
  Dispatcher.step 5
    (QueueSample.stateAfter 5
       (QueueSample.sevenPaths
        ++ Dispatcher.AWaitForIdle :: removelast QueueSample.sevenPathsDrain)%list)
    (Dispatcher.AIdleDone 0) = None
  /\ Dispatcher.step 5
       (QueueSample.stateAfter 5
          (QueueSample.sevenPaths
           ++ Dispatcher.AWaitForIdle :: QueueSample.sevenPathsDrain)%list)
       (Dispatcher.AIdleDone 0) <> None.
Proof. vm_compute. split; [reflexivity|discriminate]. Qed.



(** The run of [QueueSample.twoForOnePath]: the second event for [a.md]
    starts after the first one ended, while the event for [b.md] runs
    beside the first. *)
Example two_for_one_path_trace :
  rev (flat_map
         (fun o => match o with
                   | Dispatcher.OStart t => [("start", Dispatcher.t_id t)]
                   | Dispatcher.OEnd t _ => [("end", Dispatcher.t_id t)]
                   | _ => []
                   end)
         (Dispatcher.trace (QueueSample.stateAfter 5 QueueSample.twoForOnePath)))
  = [("start", 0%nat); ("start", 1%nat); ("end", 1%nat); ("end", 0%nat);
     ("start", 2%nat); ("end", 2%nat)].
Proof. vm_compute. reflexivity. Qed.

(** C4.  In every state a run of the queue reaches, the tasks are the
    enqueued items, numbered in the order of the [enqueue] calls; no two
    calls of [processFileEvent] for one path are in flight; and for two
    tasks of the same path, the call for the later one has started only
    if the call for the earlier one has ended: in the trace, every start
    comes after the end of each earlier task of its path. *)
Theorem same_path_strictly_sequential :
  forall (limit : nat) (acts : list Dispatcher.Action) (s : Dispatcher.State),
    Dispatcher.run limit Dispatcher.init acts = Some s ->
    map Dispatcher.t_item (QueueView.shiftedOf (Dispatcher.trace s))
    = QueueView.enqueuedItems acts
    /\ map Dispatcher.t_id (QueueView.shiftedOf (Dispatcher.trace s))
       = seq 0 (List.length (QueueView.enqueuedItems acts))
    /\ (forall t, In t (QueueView.allTasks s)
                  <-> In (Dispatcher.OShifted t) (Dispatcher.trace s))
    /\ QueueView.sequenced (Dispatcher.trace s)
    /\ NoDup (map Dispatcher.taskFile (Dispatcher.processing s))
    /\ (forall a b,
           In a (QueueView.allTasks s) -> In b (QueueView.allTasks s) ->
           Dispatcher.taskFile a = Dispatcher.taskFile b ->
           (Dispatcher.t_id a < Dispatcher.t_id b)%nat ->
           In (Dispatcher.OStart b) (Dispatcher.trace s) ->
           exists ok, In (Dispatcher.OEnd a ok) (Dispatcher.trace s)).
Proof.
  intros limit acts s R.
  pose proof (QueueFacts.inv_run limit acts _ _ (QueueFacts.inv_init limit) R) as I.
  pose proof (QueueFacts.pushed_run limit acts _ _ (QueueFacts.inv_init limit) R) as P.
  cbn in P. destruct (QueueInv.inv_numbering I) as (N1 & N2).
  assert (Items : map Dispatcher.t_item (QueueView.shiftedOf (Dispatcher.trace s))
                  = QueueView.enqueuedItems acts) by congruence.
  split; [exact Items|]. split.
  - rewrite N1. f_equal.
    pose proof (f_equal (@List.length _) N1) as L1.
    pose proof (f_equal (@List.length _) Items) as L2.
    rewrite length_map, length_seq in L1. rewrite length_map in L2. congruence.
  - split; [intros t; split; [apply (QueueInv.inv_created I)
                             |apply (QueueInv.inv_shifted I)]|].
    split; [exact (QueueInv.inv_seq I)|]. split; [exact (QueueInv.inv_excl I)|].
    intros a b Ha Hb Hf Hlt Hs.
    apply (QueueInv.inv_started I) in Hs.
    pose proof (QueueInv.inv_order I a b Ha Hs Hf Hlt) as He.
    unfold QueueView.ended in He. rewrite <- map_app in He.
    apply QueueFacts.In_fst_ex in He. destruct He as (ok & He).
    exists ok. now apply (QueueInv.inv_ended I).
Qed.

Lemma same_path_sequential_witness :
  QueueView.sequenced
    (Dispatcher.trace (QueueSample.stateAfter 5 QueueSample.twoForOnePath)).
Proof.
  refine (proj1 (proj2 (proj2 (proj2
            (same_path_strictly_sequential 5 QueueSample.twoForOnePath
               (QueueSample.stateAfter 5 QueueSample.twoForOnePath) _))))).
  vm_compute. reflexivity.
Defined.

(* ================================================================== *)
(** * Further properties of the storage adapter, the poll loop and the queue *)

(** ** [ModuleFileAccessNode]: paths *)

Module PathFacts.
Import FileAccess.

Lemma replaceBackslashes_none s :
~ In Str.backslash (list_ascii_of_string (Str.replaceBackslashes s)).
Proof.
induction s as [|c r IH]; simpl; [tauto|].
destruct (Ascii.eqb c Str.backslash) eqn:E; intros [H|H]; auto.
- discriminate.
- subst c. now rewrite Ascii.eqb_refl in E.
Qed.

Lemma strip_In c s :
In c (list_ascii_of_string (Str.stripLeadingSlashes s)) ->
In c (list_ascii_of_string s).
Proof.
induction s as [|d r IH]; simpl; [tauto|].
destruct (Ascii.eqb d Str.slash); simpl; auto.
Qed.

Lemma strip_noLeading s : Str.startsWithSlash (Str.stripLeadingSlashes s) = false.
Proof.
induction s as [|d r IH]; simpl; [reflexivity|].
destruct (Ascii.eqb d Str.slash) eqn:E; [exact IH|]. simpl. exact E.
Qed.

Lemma replaceBackslashes_id s :
~ In Str.backslash (list_ascii_of_string s) -> Str.replaceBackslashes s = s.
Proof.
induction s as [|c r IH]; simpl; [reflexivity|]. intros H.
rewrite IH by tauto.
destruct (Ascii.eqb_spec c Str.backslash) as [->|]; [exfalso; auto|reflexivity].
Qed.

Lemma strip_id s : Str.startsWithSlash s = false -> Str.stripLeadingSlashes s = s.
Proof. destruct s as [|c r]; simpl; [reflexivity|]. now intros ->. Qed.

End PathFacts.

(** X1.  [normalizeVaultRelative] yields a canonical vault path: it holds no
    backslash and does not start with [/]; a path of that form is left as
    it is, so normalising twice is normalising once. *)
Theorem normalizeVaultRelative_canonical :
  forall p : string,
    ~ In Str.backslash
         (list_ascii_of_string (FileAccess.normalizeVaultRelative p))
    /\ Str.startsWithSlash (FileAccess.normalizeVaultRelative p) = false
    /\ FileAccess.normalizeVaultRelative (FileAccess.normalizeVaultRelative p)
       = FileAccess.normalizeVaultRelative p
    /\ (forall q,
           ~ In Str.backslash (list_ascii_of_string q) ->
           Str.startsWithSlash q = false ->
           FileAccess.normalizeVaultRelative q = q).
Proof.
  intros p. unfold FileAccess.normalizeVaultRelative.
  assert (Fix : forall q,
             ~ In Str.backslash (list_ascii_of_string q) ->
             Str.startsWithSlash q = false ->
             Str.stripLeadingSlashes (Str.replaceBackslashes q) = q).
  { intros q B S. rewrite PathFacts.replaceBackslashes_id by exact B.
    now apply PathFacts.strip_id. }
  assert (B : ~ In Str.backslash
                (list_ascii_of_string
                   (Str.stripLeadingSlashes (Str.replaceBackslashes p)))).
  { intros H. apply PathFacts.strip_In in H.
    exact (PathFacts.replaceBackslashes_none p H). }
  pose proof (PathFacts.strip_noLeading (Str.replaceBackslashes p)) as S.
  repeat split; auto.
Qed.

(** ** [ModuleFileAccessNode]: deletion *)

Module DeleteFacts.
Import FileAccess.

Lemma abs_normalized vaultDir p :
abs vaultDir (normalizeVaultRelative p) = abs vaultDir p.
Proof.
unfold abs. now rewrite FileAccessFacts.normalizeVaultRelative_idem.
Qed.

Lemma delete_cases W (fs : NodeFs W) vaultDir (w : W) file force :
delete fs vaultDir w file force
= match fs_stat fs w (abs vaultDir file) with
  | Returned st =>
      match fs_rm fs w (abs vaultDir file) (st_isDirectory st) with
      | Returned w' => Returned w'
      | Threw _ =>
          if force then Returned w
          else Threw ("File not found: " ++ normalizeVaultRelative file)
      end
  | Threw _ =>
      if force then Returned w
      else Threw ("File not found: " ++ normalizeVaultRelative file)
  end.
Proof.
unfold delete, tryCatch, bindRes. rewrite abs_normalized.
destruct (fs_stat fs w _) as [st|e]; simpl.
- destruct (st_isDirectory st); destruct (fs_rm fs w _ _); destruct force; reflexivity.
- destruct force; reflexivity.
Qed.

End DeleteFacts.

(** X3.  [delete] with [force] set does not throw: when [fs.stat] or [fs.rm]
    fails, the failure is dropped and the call returns.  Without
    [force] each of these failures, also that of [fs.rm] on a path that
    is there, is reported as [File not found:] followed by the
    normalised path.  A directory is removed recursively, anything else
    is not; when the removal succeeds, [force] makes no difference. *)
Theorem delete_force_and_errors :
  forall (W : Type) (fs : NodeFs W) (vaultDir : string) (w : W) (file : string),
    (exists w', FileAccess.delete fs vaultDir w file true = Returned w')
    /\ (forall e,
           fs_stat fs w (FileAccess.abs vaultDir file) = Threw e ->
           FileAccess.delete fs vaultDir w file true = Returned w
           /\ FileAccess.delete fs vaultDir w file false
              = Threw ("File not found: " ++ FileAccess.normalizeVaultRelative file))
    /\ (forall st e,
           fs_stat fs w (FileAccess.abs vaultDir file) = Returned st ->
           fs_rm fs w (FileAccess.abs vaultDir file) (st_isDirectory st) = Threw e ->
           FileAccess.delete fs vaultDir w file false
           = Threw ("File not found: " ++ FileAccess.normalizeVaultRelative file))
    /\ (forall st w' force,
           fs_stat fs w (FileAccess.abs vaultDir file) = Returned st ->
           fs_rm fs w (FileAccess.abs vaultDir file) (st_isDirectory st) = Returned w' ->
           FileAccess.delete fs vaultDir w file force = Returned w').
Proof.
  intros W fs vaultDir w file.
  split; [apply FileAccessFacts.delete_force_returns|].
  split; [|split].
  - intros e S. rewrite !DeleteFacts.delete_cases, S. auto.
  - intros st e S R. rewrite !DeleteFacts.delete_cases, S, R. auto.
  - intros st w' force S R. rewrite DeleteFacts.delete_cases, S, R. reflexivity.
Qed.

(** X4.  [removeHidden] answers [true] whatever the filesystem does, also when
    the path is not there or could not be removed: the [delete] it calls
    has [force] set and so never reaches the [catch] that answers
    [false].  What it leaves of the filesystem is what [deleteVaultItem]
    leaves, which does not throw either. *)
Theorem removeHidden_always_true :
  forall (W : Type) (fs : NodeFs W) (vaultDir : string) (w : W) (pathRel : string),
    snd (FileOps.removeHidden fs vaultDir w pathRel) = Returned true
    /\ FileOps.deleteVaultItem fs vaultDir w pathRel
       = Returned (fst (FileOps.removeHidden fs vaultDir w pathRel)).
Proof.
  intros W fs vaultDir w pathRel.
  unfold FileOps.removeHidden, FileOps.deleteVaultItem.
  destruct (FileAccessFacts.delete_force_returns fs vaultDir w pathRel) as (w' & E).
  rewrite E. split; reflexivity.
Qed.

(** ** [ModuleFileAccessNode]: stubs *)

(** X5.  [getStub] does not throw.  For a directory it answers a folder stub
    of size 0; for anything else it answers what [getFileStub] answers,
    a file stub for a regular file and nothing otherwise; and nothing
    when [fs.statSync] fails.  [toStub] computes the same. *)
Theorem getStub_folder_or_file :
  forall (W : Type) (fs : NodeFs W) (vaultDir : string) (w : W) (pathRel : string),
    (exists r, FileOps.getStub fs vaultDir w pathRel = Returned r)
    /\ FileOps.toStub fs vaultDir w pathRel = FileOps.getStub fs vaultDir w pathRel
    /\ (forall e,
           fs_stat fs w (FileAccess.abs vaultDir pathRel) = Threw e ->
           FileOps.getStub fs vaultDir w pathRel = Returned None)
    /\ (forall st,
           fs_stat fs w (FileAccess.abs vaultDir pathRel) = Returned st ->
           st_isDirectory st = true ->
           FileOps.getStub fs vaultDir w pathRel
           = Returned
               (Some (AFolder
                        (mkFolder
                           (Str.basename (FileAccess.normalizeVaultRelative pathRel))
                           (FileAccess.normalizeVaultRelative pathRel)
                           (mkUXStat (st_ctimeMs st) (st_mtimeMs st) 0 TFolder)))))
    /\ (forall st,
           fs_stat fs w (FileAccess.abs vaultDir pathRel) = Returned st ->
           st_isDirectory st = false ->
           FileOps.getStub fs vaultDir w pathRel
           = (r <- FileAccess.getFileStub fs vaultDir w pathRel ;;
              Returned (option_map AFile r))).
Proof.
  intros W fs vaultDir w pathRel.
  unfold FileOps.getStub, FileOps.toStub, FileAccess.getFileStub, tryCatch, bindRes.
  rewrite DeleteFacts.abs_normalized.
  destruct (fs_stat fs w _) as [st|e]; simpl.
  - destruct (st_isDirectory st) eqn:D, (st_isFile st) eqn:F; simpl;
      repeat split; eauto; try discriminate; try congruence.
    all: try (intros ? [= <-]; try rewrite D; try rewrite F; simpl; congruence).
    all: try (intros ? [= <-] ?; try rewrite F; simpl; congruence).
  - repeat split; eauto; discriminate.
Qed.

(** X6.  [isExists], [stat] and [getFileStub] agree on whether a path is a
    regular file: [isExists] answers [true] exactly when [stat] answers
    metadata and exactly when [getFileStub] answers a stub, and [false]
    otherwise; it does not throw. *)
Theorem isExists_agrees_with_stat :
  forall (W : Type) (fs : NodeFs W) (vaultDir : string) (w : W) (pathRel : string),
    (exists b, FileAccess.isExists fs vaultDir w pathRel = Returned b)
    /\ (FileAccess.isExists fs vaultDir w pathRel = Returned true
        <-> exists m, FileAccess.stat fs vaultDir w pathRel = Returned (Some m))
    /\ (FileAccess.isExists fs vaultDir w pathRel = Returned true
        <-> exists s, FileAccess.getFileStub fs vaultDir w pathRel = Returned (Some s))
    /\ (FileAccess.isExists fs vaultDir w pathRel = Returned false
        <-> FileAccess.stat fs vaultDir w pathRel = Returned None).
Proof.
  intros W fs vaultDir w pathRel.
  unfold FileAccess.isExists, FileAccess.stat, FileAccess.getFileStub, tryCatch, bindRes.
  destruct (fs_stat fs w _) as [st|e]; simpl.
  - destruct (st_isFile st); simpl; repeat split; eauto;
      try discriminate; try (intros (? & ?); discriminate).
  - repeat split; eauto; try discriminate; try (intros (? & ?); discriminate).
Qed.

(** ** [ModuleFileAccessNode]: where [abs] leads *)

Module AbsFacts.
Import Segments.

Lemma append_assoc (a b c : string) : ((a ++ b) ++ c = a ++ (b ++ c))%string.
Proof. induction a as [|x r IH]; simpl; [reflexivity|now rewrite IH]. Qed.

Lemma append_empty_r (a : string) : (a ++ "" = a)%string.
Proof. induction a as [|x r IH]; simpl; [reflexivity|now rewrite IH]. Qed.

Lemma split_nonempty s : Str.split s <> [].
Proof.
destruct s as [|c r]; simpl; [discriminate|].
destruct (Ascii.eqb c Str.slash); [discriminate|].
destruct (Str.split r); discriminate.
Qed.

Lemma split_app s t :
Str.split (s ++ String Str.slash t) = (Str.split s ++ Str.split t)%list.
Proof.
induction s as [|c r IH]; simpl.
- reflexivity.
- destruct (Ascii.eqb c Str.slash); rewrite IH; [reflexivity|].
  destruct (Str.split r) as [|seg segs] eqn:E; [now apply split_nonempty in E|].
  reflexivity.
Qed.

Lemma split_noSlash s : noSlash s = true -> Str.split s = [s].
Proof.
unfold noSlash. induction s as [|c r IH]; simpl; [reflexivity|].
intros H. apply andb_prop in H. destruct H as (C & R).
apply negb_true_iff in C. rewrite C, (IH R). reflexivity.
Qed.

Lemma joinWith_cons sep x y r :
Str.joinWith sep (x :: y :: r) = (x ++ sep ++ Str.joinWith sep (y :: r))%string.
Proof. reflexivity. Qed.

Lemma split_join vs :
vs <> [] -> Forall (fun s => noSlash s = true) vs ->
Str.split (Str.joinWith "/" vs) = vs.
Proof.
induction vs as [|x r IH]; [congruence|]. intros _ F.
inversion F as [|? ? Hx Hr]; subst.
destruct r as [|y r'].
- simpl. now apply split_noSlash.
- rewrite joinWith_cons. change ("/" ++ Str.joinWith "/" (y :: r'))%string
    with (String Str.slash (Str.joinWith "/" (y :: r'))).
  rewrite split_app, (split_noSlash _ Hx), IH; [reflexivity|discriminate|exact Hr].
Qed.

Lemma normSegs_plain b segs :
forall acc,
  Forall (fun s => String.eqb s ".." = false) segs ->
  Str.normSegs b acc segs = (rev acc ++ filter keep segs)%list.
Proof.
induction segs as [|seg r IH]; intros acc F; simpl.
- now rewrite app_nil_r.
- inversion F as [|? ? Hs Hr]; subst. unfold keep at 1.
  destruct (Str.isEmpty seg || String.eqb seg ".") eqn:K; simpl.
  + now apply IH.
  + rewrite Hs. rewrite (IH (seg :: acc) Hr). simpl.
    now rewrite <- app_assoc.
Qed.

Lemma plain_parts s :
plain s = true ->
Str.isEmpty s = false /\ String.eqb s "." = false /\ String.eqb s ".." = false
/\ noSlash s = true.
Proof.
unfold plain. intros H.
repeat (apply andb_prop in H; destruct H as (H & ?)).
repeat match goal with X : negb _ = true |- _ => apply negb_true_iff in X end.
auto.
Qed.

Lemma filter_keep_plain vs :
forallb plain vs = true -> filter keep vs = vs.
Proof.
induction vs as [|x r IH]; simpl; [reflexivity|]. intros H.
apply andb_prop in H. destruct H as (P & R).
destruct (plain_parts _ P) as (E & D & _ & _).
unfold keep at 1. rewrite E, D. simpl. now rewrite IH.
Qed.

Lemma joinWith_app sep vs cs :
vs <> [] -> cs <> [] ->
Str.joinWith sep (vs ++ cs)
= (Str.joinWith sep vs ++ sep ++ Str.joinWith sep cs)%string.
Proof.
induction vs as [|x r IH]; [congruence|]. intros _ C.
destruct r as [|y r'].
- simpl. destruct cs; [congruence|reflexivity].
- change ((x :: y :: r') ++ cs)%list with (x :: y :: (r' ++ cs))%list.
  rewrite !joinWith_cons.
  change (y :: (r' ++ cs))%list with ((y :: r') ++ cs)%list.
  rewrite IH by (auto; discriminate).
  now rewrite <- !AbsFacts.append_assoc.
Qed.

Lemma isEmpty_append a b : Str.isEmpty a = false -> Str.isEmpty (a ++ b) = false.
Proof. destruct a; simpl; [discriminate|reflexivity]. Qed.

Lemma joinWith_nonempty sep vs :
vs <> [] -> Forall (fun s => Str.isEmpty s = false) vs ->
Str.isEmpty (Str.joinWith sep vs) = false.
Proof.
destruct vs as [|x r]; [congruence|]. intros _ F.
inversion F; subst. destruct r; simpl; [assumption|now apply isEmpty_append].
Qed.

Lemma filter_keep_nonempty segs :
Forall (fun s => Str.isEmpty s = false) (filter keep segs).
Proof.
apply Forall_forall. intros s H. apply filter_In in H. destruct H as (_ & K).
unfold keep in K. apply negb_true_iff in K. apply orb_false_elim in K. tauto.
Qed.

Lemma forallb_Forall {A} (f : A -> bool) l :
forallb f l = true -> Forall (fun x => f x = true) l.
Proof. intros H. apply Forall_forall. now apply forallb_forall. Qed.

Lemma last_cons_nonempty {A} (x : A) l d : l <> [] -> List.last (x :: l) d = List.last l d.
Proof. destruct l; [congruence|reflexivity]. Qed.

Lemma last_app_nonempty {A} (l1 l2 : list A) d :
l2 <> [] -> List.last (l1 ++ l2) d = List.last l2 d.
Proof.
intros N. induction l1 as [|x r IH]; [reflexivity|].
simpl app. rewrite last_cons_nonempty; [exact IH|].
destruct r; simpl; [exact N|discriminate].
Qed.

(** [normalize] on an absolute path without [..]. *)
Lemma normalize_absolute p :
Str.startsWithSlash p = true ->
Forall (fun s => String.eqb s ".." = false) (Str.split p) ->
filter keep (Str.split p) <> [] ->
Str.normalize p
= ("/" ++ Str.joinWith "/" (filter keep (Str.split p))
       ++ (if Str.endsWithSlash p then "/" else ""))%string.
Proof.
intros A F N. unfold Str.normalize.
destruct p as [|c r]; [discriminate|]. cbn [Str.isEmpty].
rewrite A. cbn [negb]. rewrite (normSegs_plain false _ [] F). cbn [rev app].
rewrite (joinWith_nonempty "/" _ N (filter_keep_nonempty _)).
destruct (Str.endsWithSlash (String c r)).
- reflexivity.
- now rewrite AbsFacts.append_empty_r. 
Qed.

End AbsFacts.

(** X2.  A path without a [..] segment does not leave the vault: for a vault
    directory [/v1/.../vn], [abs] leads to the vault directory itself or
    to a path below it.  (With [..] it can lead elsewhere: [abs] of
    [../x] in [/vault] is [/x].) *)
Theorem abs_stays_in_vault :
  forall (vs : list string) (rel : string),
    vs <> [] ->
    forallb Segments.plain vs = true ->
    Segments.hasDotDot (FileAccess.normalizeVaultRelative rel) = false ->
    exists rest,
      FileAccess.abs ("/" ++ Str.joinWith "/" vs) rel
      = (("/" ++ Str.joinWith "/" vs) ++ rest)%string
      /\ (rest = "" \/ Str.startsWithSlash rest = true).
Proof.
  intros vs rel NE P D.
  set (clean := FileAccess.normalizeVaultRelative rel) in *.
  set (a := ("/" ++ Str.joinWith "/" vs)%string).
  pose proof (AbsFacts.forallb_Forall _ _ P) as PF.
  assert (NS : Forall (fun s => Segments.noSlash s = true) vs).
  { eapply Forall_impl; [|exact PF]. intros s H. now apply AbsFacts.plain_parts in H. }
  assert (ND : Forall (fun s => String.eqb s ".." = false) vs).
  { eapply Forall_impl; [|exact PF]. intros s H. now apply AbsFacts.plain_parts in H. }
  assert (NEm : Forall (fun s => Str.isEmpty s = false) vs).
  { eapply Forall_impl; [|exact PF]. intros s H. now apply AbsFacts.plain_parts in H. }
  assert (Sa : Str.split a = "" :: vs).
  { unfold a. change ("/" ++ Str.joinWith "/" vs)%string
      with ("" ++ String Str.slash (Str.joinWith "/" vs))%string.
    rewrite AbsFacts.split_app, (AbsFacts.split_join _ NE NS). reflexivity. }
  assert (Dc : Forall (fun s => String.eqb s ".." = false) (Str.split clean)).
  { unfold Segments.hasDotDot in D. apply Forall_forall. intros s Hs.
    destruct (String.eqb s "..") eqn:E; [|reflexivity].
    apply String.eqb_eq in E. subst s.
    assert (X : existsb (String.eqb "..") (Str.split clean) = true).
    { apply existsb_exists. exists "..". split; [exact Hs|reflexivity]. }
    congruence. }
  assert (La : List.last vs "x" <> "").
  { assert (In (List.last vs "x") vs).
    { destruct vs as [|v0 vr]; [congruence|].
      change (In (List.last (v0 :: vr) "x") (v0 :: vr)).
      clear. revert v0. induction vr as [|y r IH]; intros v0; [now left|].
      right. change (List.last (v0 :: y :: r) "x") with (List.last (y :: r) "x").
      apply IH. }
    rewrite Forall_forall in NEm. specialize (NEm _ H).
    intros E. rewrite E in NEm. discriminate. }
  unfold FileAccess.abs. fold clean. unfold Str.join. cbn [filter].
  assert (Ea : Str.isEmpty a = false) by reflexivity.
  rewrite Ea. cbn [negb].
  destruct (Str.isEmpty clean) eqn:Ec; cbn [negb].
  - (* the vault directory itself *)
    exists "". split; [|now left].
    cbn [Str.joinWith]. rewrite AbsFacts.normalize_absolute.
    + rewrite Sa. cbn [filter Segments.keep Str.isEmpty orb negb].
      rewrite (AbsFacts.filter_keep_plain _ P).
      unfold Str.endsWithSlash. rewrite Sa.
      rewrite AbsFacts.last_cons_nonempty by exact NE.
      destruct (List.last vs "x") eqn:L; [congruence|].
      rewrite !AbsFacts.append_empty_r. reflexivity.
    + reflexivity.
    + rewrite Sa. constructor; [reflexivity|exact ND].
    + rewrite Sa. cbn [filter Segments.keep Str.isEmpty orb negb].
      now rewrite (AbsFacts.filter_keep_plain _ P).
  - (* below the vault directory *)
    cbn [Str.joinWith].
    change (a ++ "/" ++ clean)%string with (a ++ String Str.slash clean)%string.
    assert (Sp : Str.split (a ++ String Str.slash clean)
                 = ("" :: vs ++ Str.split clean)%list).
    { rewrite AbsFacts.split_app, Sa. reflexivity. }
    assert (Fk : filter Segments.keep (Str.split (a ++ String Str.slash clean))
                 = (vs ++ filter Segments.keep (Str.split clean))%list).
    { rewrite Sp. cbn [filter Segments.keep Str.isEmpty orb negb].
      now rewrite filter_app, (AbsFacts.filter_keep_plain _ P). }
    rewrite AbsFacts.normalize_absolute.
    + rewrite Fk.
      destruct (filter Segments.keep (Str.split clean)) as [|c0 cs] eqn:Ef.
      * rewrite app_nil_r.
        exists (if Str.endsWithSlash (a ++ String Str.slash clean) then "/" else "").
        split; [unfold a; now rewrite <- !AbsFacts.append_assoc|].
        destruct (Str.endsWithSlash _); [now right|now left].
      * rewrite AbsFacts.joinWith_app by (auto; discriminate).
        exists ("/" ++ Str.joinWith "/" (c0 :: cs)
                    ++ (if Str.endsWithSlash (a ++ String Str.slash clean)
                        then "/" else ""))%string.
        split; [unfold a; now rewrite <- !AbsFacts.append_assoc|now right].
    + reflexivity.
    + rewrite Sp. constructor; [reflexivity|]. apply Forall_app. split; assumption.
    + rewrite Fk. destruct vs; [congruence|discriminate].
Qed.

Lemma abs_stays_in_vault_witness :
  exists rest,
    FileAccess.abs "/srv/vault" "\notes\a.md" = ("/srv/vault" ++ rest)%string
    /\ (rest = "" \/ Str.startsWithSlash rest = true).
Proof.
  apply (abs_stays_in_vault ["srv"; "vault"] "\notes\a.md").
  - discriminate.
  - reflexivity.
  - reflexivity.
Defined.

(** A path with [..] segments can lead out of the vault. *)
Example abs_dotdot_leaves_vault :
  FileAccess.abs "/srv/vault" "../../etc/passwd" = "/etc/passwd".
Proof. vm_compute. reflexivity. Qed.

(** ** [ModuleFileAccessNode]: files in process, writing and reading *)

Module ProcessingFacts.
Import FileOps.

Lemma has_set_same {V} (m : JsMap.t V) k v : JsMap.has (JsMap.set m k v) k = true.
Proof. unfold JsMap.has. now rewrite JsMapFacts.get_set_same. Qed.

Lemma has_delete_same {V} (m : JsMap.t V) k : JsMap.has (JsMap.delete m k) k = false.
Proof. unfold JsMap.has. now rewrite JsMapFacts.get_delete_same. Qed.

Lemma has_delete_other {V} (m : JsMap.t V) k k' :
k <> k' -> JsMap.has (JsMap.delete m k) k' = JsMap.has m k'.
Proof. intros N. unfold JsMap.has. now rewrite JsMapFacts.get_delete_other. Qed.

Lemma has_set_other {V} (m : JsMap.t V) k k' v :
k <> k' -> JsMap.has (JsMap.set m k v) k' = JsMap.has m k'.
Proof. intros N. unfold JsMap.has. now rewrite JsMapFacts.get_set_other. Qed.

Lemma processWriteFile_eq W T p (proc : Adapter W -> Adapter W * Res T) a :
processWriteFile p proc a
= (mkAdapter
     (world (fst (proc (mkAdapter (world a) (JsMap.set (processingFiles a) p tt)))))
     (JsMap.delete
        (processingFiles
           (fst (proc (mkAdapter (world a) (JsMap.set (processingFiles a) p tt)))))
        p),
   snd (proc (mkAdapter (world a) (JsMap.set (processingFiles a) p tt)))).
Proof.
unfold processWriteFile, serialized.
destruct (proc _) as [a2 r]. reflexivity.
Qed.

End ProcessingFacts.

(** X7.  [processWriteFile] and [processReadFile] run [proc] with the path
    marked as in process and take the mark away when [proc] has settled,
    also when it threw: [isFileProcessing] answers [true] to [proc] and
    [false] after the call, whatever [proc] did.  The result of [proc],
    or what it threw, is the result of the call; what [proc] left of the
    filesystem and of the marks of other paths stays. *)
Theorem processing_mark_set_and_cleared :
  forall (W T : Type) (p : string)
         (proc : Adapter W -> Adapter W * Res T) (a : Adapter W),
    FileOps.isFileProcessing
      (mkAdapter (world a) (JsMap.set (processingFiles a) p tt)) p = true
    /\ snd (FileOps.processWriteFile p proc a)
       = snd (proc (mkAdapter (world a) (JsMap.set (processingFiles a) p tt)))
    /\ world (fst (FileOps.processWriteFile p proc a))
       = world (fst (proc (mkAdapter (world a) (JsMap.set (processingFiles a) p tt))))
    /\ FileOps.isFileProcessing (fst (FileOps.processWriteFile p proc a)) p = false
    /\ (forall q,
           q <> p ->
           FileOps.isFileProcessing (fst (FileOps.processWriteFile p proc a)) q
           = FileOps.isFileProcessing
               (fst (proc (mkAdapter (world a) (JsMap.set (processingFiles a) p tt)))) q)
    /\ FileOps.processReadFile p proc a = FileOps.processWriteFile p proc a.
Proof.
  intros W T p proc a.
  rewrite ProcessingFacts.processWriteFile_eq. unfold FileOps.isFileProcessing.
  cbn [fst snd world processingFiles].
  split; [apply ProcessingFacts.has_set_same|].
  split; [reflexivity|]. split; [reflexivity|].
  split; [apply ProcessingFacts.has_delete_same|].
  split; [intros q N; apply ProcessingFacts.has_delete_other; congruence|].
  rewrite <- ProcessingFacts.processWriteFile_eq. reflexivity.
Qed.

Module WriteFacts.
Import FileAccess FileOps.

Lemma ensureDir_eq W (fs : NodeFs W) vaultDir w pathRel :
ensureDir fs vaultDir w (normalizeVaultRelative pathRel)
= fs_mkdir fs w (Path.dirname (abs vaultDir pathRel)).
Proof.
unfold ensureDir. now rewrite !DeleteFacts.abs_normalized.
Qed.

End WriteFacts.

(** X8.  [writeFileAuto] creates the directory of the file, writes the file
    and answers [true].  It sets the times of the file only when
    [opt.mtime] or [opt.ctime] is given and is not 0: the modification
    time becomes [opt.mtime], or the clock reading when only [opt.ctime]
    is given; when [fs.utimes] throws, the call answers [true] all the
    same and the written file stays.  When the creation of the directory
    throws, nothing else happens; when the write throws, the call
    throws.  After the call the path is not marked as in process, also
    when the write threw, and the marks of other paths are as before. *)
Theorem writeFileAuto_outcomes :
  forall (W : Type) (fs : NodeFs W) (io : NodeFsIO W) (vaultDir : string)
         (atimeNow mtimeNow : Z) (a : Adapter W) (pathRel data : string)
         (opt : option UXDataWriteOptions),
    (forall e,
        fs_mkdir fs (world a) (Path.dirname (FileAccess.abs vaultDir pathRel)) = Threw e ->
        FileOps.writeFileAuto fs io vaultDir atimeNow mtimeNow a pathRel data opt
        = (a, Threw e))
    /\ (forall w1 e,
           fs_mkdir fs (world a) (Path.dirname (FileAccess.abs vaultDir pathRel))
           = Returned w1 ->
           fs_writeFile io w1 (FileAccess.abs vaultDir pathRel) data = Threw e ->
           snd (FileOps.writeFileAuto fs io vaultDir atimeNow mtimeNow a pathRel data opt)
           = Threw e)
    /\ (forall w1 w2,
           fs_mkdir fs (world a) (Path.dirname (FileAccess.abs vaultDir pathRel))
           = Returned w1 ->
           fs_writeFile io w1 (FileAccess.abs vaultDir pathRel) data = Returned w2 ->
           snd (FileOps.writeFileAuto fs io vaultDir atimeNow mtimeNow a pathRel data opt)
           = Returned true
           /\ world (fst (FileOps.writeFileAuto fs io vaultDir atimeNow mtimeNow a
                            pathRel data opt))
              = (if FileOps.truthy (FileOps.mtimeOf opt)
                    || FileOps.truthy (FileOps.ctimeOf opt)
                 then
                   match fs_utimes io w2 (FileAccess.abs vaultDir pathRel) atimeNow
                           (match FileOps.mtimeOf opt with
                            | Some m => m
                            | None => mtimeNow
                            end)
                   with
                   | Returned w3 => w3
                   | Threw _ => w2
                   end
                 else w2))
    /\ (forall w1,
           fs_mkdir fs (world a) (Path.dirname (FileAccess.abs vaultDir pathRel))
           = Returned w1 ->
           FileOps.isFileProcessing
             (fst (FileOps.writeFileAuto fs io vaultDir atimeNow mtimeNow a
                     pathRel data opt))
             (FileAccess.normalizeVaultRelative pathRel) = false
           /\ forall q,
               q <> FileAccess.normalizeVaultRelative pathRel ->
               FileOps.isFileProcessing
                 (fst (FileOps.writeFileAuto fs io vaultDir atimeNow mtimeNow a
                         pathRel data opt)) q
               = FileOps.isFileProcessing a q).
Proof.
  intros W fs io vaultDir atimeNow mtimeNow a pathRel data opt.
  unfold FileOps.writeFileAuto.
  rewrite WriteFacts.ensureDir_eq, DeleteFacts.abs_normalized.
  destruct (fs_mkdir fs (world a) _) as [w1|e1].
  2:{ repeat split; intros; try discriminate; congruence. }
  rewrite ProcessingFacts.processWriteFile_eq.
  cbn [fst snd world processingFiles FileOps.withWorld].
  unfold FileOps.isFileProcessing. cbn [processingFiles].
  split; [discriminate|]. split; [|split].
  - intros w1' e [= <-] Wr. rewrite Wr. reflexivity.
  - intros w1' w2 [= <-] Wr. rewrite Wr.
    destruct (FileOps.truthy _ || FileOps.truthy _); [|split; reflexivity].
    destruct (fs_utimes io _ _ _ _); split; reflexivity.
  - intros w1' [= <-].
    assert (E : forall m : JsMap.t unit,
               forall q, q <> FileAccess.normalizeVaultRelative pathRel ->
               JsMap.has (JsMap.delete (JsMap.set m (FileAccess.normalizeVaultRelative pathRel) tt)
                            (FileAccess.normalizeVaultRelative pathRel)) q
               = JsMap.has m q).
    { intros m q N. rewrite ProcessingFacts.has_delete_other by congruence.
      apply ProcessingFacts.has_set_other. congruence. }
    destruct (fs_writeFile io _ _ _) as [w2|e2]; cbn [fst processingFiles].
    + destruct (FileOps.truthy _ || FileOps.truthy _);
        [destruct (fs_utimes io _ _ _ _)|];
        cbn [fst processingFiles FileOps.withWorld];
        (split; [apply ProcessingFacts.has_delete_same|apply E]).
    + split; [apply ProcessingFacts.has_delete_same|apply E].
Qed.

(** X9.  [readStubContent] answers [false] when the file cannot be read.
    Otherwise it answers the stub with the bytes read as body and with
    the number of these bytes as size, whatever size the stub carried;
    the times are those of a [fs.stat] made after the read, or those of
    the stub when that [fs.stat] throws.  Name, path and type are those
    of the stub. *)
Theorem readStubContent_size_of_bytes_read :
  forall (W : Type) (fs : NodeFs W) (io : NodeFsIO W) (vaultDir : string)
         (w w' : W) (stub : UXFileInfoStub),
    (forall e,
        fs_readFile io w (FileAccess.abs vaultDir (stub_path stub)) = Threw e ->
        FileOps.readStubContent fs io vaultDir w w' stub = Returned None)
    /\ (forall buf,
           fs_readFile io w (FileAccess.abs vaultDir (stub_path stub)) = Returned buf ->
           exists info,
             FileOps.readStubContent fs io vaultDir w w' stub = Returned (Some info)
             /\ fi_body info = buf
             /\ ux_size (fi_stat info) = Z.of_nat (String.length buf)
             /\ fi_name info = stub_name stub
             /\ fi_path info = stub_path stub
             /\ ux_type (fi_stat info) = ux_type (stub_stat stub)
             /\ (forall st,
                    fs_stat fs w' (FileAccess.abs vaultDir (stub_path stub)) = Returned st ->
                    ux_ctime (fi_stat info) = st_ctimeMs st
                    /\ ux_mtime (fi_stat info) = st_mtimeMs st)
             /\ (forall e,
                    fs_stat fs w' (FileAccess.abs vaultDir (stub_path stub)) = Threw e ->
                    ux_ctime (fi_stat info) = ux_ctime (stub_stat stub)
                    /\ ux_mtime (fi_stat info) = ux_mtime (stub_stat stub))).
Proof.
  intros W fs io vaultDir w w' stub.
  unfold FileOps.readStubContent, tryCatch, bindRes.
  rewrite DeleteFacts.abs_normalized.
  split.
  - intros e R. rewrite R. reflexivity.
  - intros buf R. rewrite R.
    destruct (fs_stat fs w' _) as [st|e]; eexists; (split; [reflexivity|]);
      cbn; repeat split; try congruence; try discriminate;
      intros ? [= <-]; reflexivity.
Qed.

(** ** [ModuleFileAccessNode]: the enumeration of the vault *)

Module WalkFacts.
Import Walk.
Local Open Scope list_scope.

Lemma Node_induction (P : Node -> Prop) :
(forall st, P (NFile st)) ->
(forall e, P (NFileGone e)) ->
(forall es, Forall (fun e => P (snd e)) es -> P (NDir es)) ->
(forall e, P (NDirUnreadable e)) ->
P NOther ->
forall n, P n.
Proof.
intros HF HG HD HU HO. fix IH 1. intros [st|e|es|e|].
- apply HF.
- apply HG.
- apply HD. revert es. fix IHes 1. intros [|[name c] r].
  + constructor.
  + constructor; [apply IH|apply IHes].
- apply HU.
- exact HO.
Qed.

Lemma walkEntries_cons w base name n rest out :
walkEntries w base ((name, n) :: rest) out
= match n with
  | NDir _ | NDirUnreadable _ =>
      match w n (relOf base name) out with
      | (out1, Returned _) => walkEntries w base rest out1
      | (out1, Threw e) => (out1, Threw e)
      end
  | NFile st => walkEntries w base rest (out ++ [fileStub name (relOf base name) st])
  | NFileGone e => (out, Threw e)
  | NOther => walkEntries w base rest out
  end.
Proof. reflexivity. Qed.

Lemma walkNames_cons w base name n rest out :
walkNames w base ((name, n) :: rest) out
= match n with
  | NDir _ | NDirUnreadable _ =>
      match w n (relOf base name) out with
      | (out1, Returned _) => walkNames w base rest out1
      | (out1, Threw e) => (out1, Threw e)
      end
  | NFile _ | NFileGone _ => walkNames w base rest (out ++ [relOf base name])
  | NOther => walkNames w base rest out
  end.
Proof. reflexivity. Qed.

(** A readable directory is walked to its end, and the walk pushes its
  listing. *)
Lemma walkSync_listing n :
forall es base out,
  n = NDir es -> readable n = true ->
  walkSync n base out = (out ++ listing n base, Returned tt).
Proof.
induction n as [st|e|es0 IH|e|] using Node_induction; intros es base out E R;
  try discriminate.
clear E es. cbn [walkSync listing]. cbn [readable] in R.
revert out. induction es0 as [|[name c] r IHr]; intros out.
- cbn. now rewrite app_nil_r.
- cbn [forallb snd] in R. apply andb_prop in R. destruct R as (Rc & Rr).
  inversion IH as [|? ? Pc Pr]; subst. cbn [snd] in Pc.
  rewrite walkEntries_cons. cbn [flat_map snd fst].
  destruct c as [st|e|sub|e|]; try discriminate.
  + rewrite (IHr Pr Rr). now rewrite <- app_assoc.
  + rewrite (Pc sub _ out eq_refl Rc). rewrite (IHr Pr Rr).
    now rewrite <- app_assoc.
  + rewrite (IHr Pr Rr). reflexivity.
Qed.

(** A walk that meets something unreadable throws. *)
Lemma walkSync_unreadable n :
forall base out,
  readable n = false ->
  match n with
  | NDir _ | NDirUnreadable _ => exists out' e, walkSync n base out = (out', Threw e)
  | _ => True
  end.
Proof.
induction n as [st|e|es0 IH|e|] using Node_induction; intros base out R; auto.
- cbn [walkSync]. cbn [readable] in R.
  revert out. induction es0 as [|[name c] r IHr]; intros out; [discriminate|].
  inversion IH as [|? ? Pc Pr]; subst. cbn [snd] in Pc.
  cbn [forallb snd] in R. rewrite walkEntries_cons.
  destruct (readable c) eqn:Rc.
  + cbn [andb] in R.
    destruct c as [st|e|sub|e|]; try discriminate.
    * apply (IHr Pr R).
    * rewrite (walkSync_listing (NDir sub) sub _ out eq_refl Rc). apply (IHr Pr R).
    * apply (IHr Pr R).
  + destruct c as [st|e|sub|e|]; try discriminate.
    * eauto.
    * destruct (Pc (relOf base name) out eq_refl) as (out' & e & E).
      rewrite E. eauto.
    * cbn [walkSync]. eauto.
- cbn [walkSync]. eauto.
Qed.

Lemma fileAt_nonempty n segs st : fileAt n segs st -> segs <> [].
Proof. destruct 1; discriminate. Qed.

Lemma fileAt_dir n segs st : fileAt n segs st -> exists es, n = NDir es.
Proof. destruct 1; eauto. Qed.

Lemma In_segListing n :
forall segs st, In (segs, st) (segListing n) <-> fileAt n segs st.
Proof.
induction n as [st0|e|es IH|e|] using Node_induction; intros segs st;
  try (split; [intros []|intros H; inversion H]).
cbn [segListing]. rewrite in_flat_map. rewrite Forall_forall in IH. split.
- intros ([name c] & Hin & Hs). cbn [snd fst] in Hs.
  destruct c as [st1|e|sub|e|]; try (now destruct Hs).
  + destruct Hs as [[= <- <-]|[]]. now apply fileHere.
  + apply in_map_iff in Hs. destruct Hs as ([segs' st'] & [= <- <-] & Hin').
    eapply fileBelow; [exact Hin|]. apply (IH _ Hin). exact Hin'.
- intros H. inversion H as [? name st1 Hin|? name sub segs' st1 Hin Hsub]; subst.
  + exists (name, NFile st). split; [exact Hin|]. now left.
  + exists (name, sub). split; [exact Hin|]. cbn [snd fst].
    destruct (fileAt_dir _ _ _ Hsub) as (es' & ->).
    apply in_map_iff. exists (segs', st). split; [reflexivity|].
    apply (IH _ Hin). exact Hsub.
Qed.

Lemma segListing_nonempty n x : In x (segListing n) -> fst x <> [].
Proof.
destruct x as [segs st]. intros H. apply In_segListing in H.
now apply fileAt_nonempty in H.
Qed.

Lemma last_cons_ne {A} (x : A) l d : l <> [] -> List.last (x :: l) d = List.last l d.
Proof. destruct l; [congruence|reflexivity]. Qed.

Lemma listing_segListing n :
forall base, listing n base = map (stubAt base) (segListing n).
Proof.
induction n as [st0|e|es IH|e|] using Node_induction; intros base; try reflexivity.
cbn [listing segListing]. rewrite Forall_forall in IH.
induction es as [|[name c] r IHr]; [reflexivity|].
cbn [flat_map snd fst]. rewrite map_app.
rewrite IHr by (intros x Hx; apply IH; now right). f_equal.
destruct c as [st1|e|sub|e|]; try reflexivity.
rewrite (IH (name, NDir sub) (or_introl eq_refl)). cbn [snd].
rewrite map_map. apply map_ext_in. intros [segs st] Hin.
unfold stubAt. cbn [fst snd]. unfold relPath. cbn [fold_left].
rewrite last_cons_ne; [reflexivity|].
exact (segListing_nonempty _ _ Hin).
Qed.

End WalkFacts.

(** X10.  [getFiles] returns exactly when the vault directory and everything
    below it can be read; it throws otherwise.  What it returns are the
    stubs of the regular files below the vault directory, each once for
    every way the names lead to it: the stub of the file that the names
    [n1 ... nk] lead to has the path built from these names with [/]
    between them, the name [nk], and the size and times of the file.
    Entries that are neither directories nor regular files are left
    out.  [getFileNames] returns the paths of these stubs. *)
Theorem getFiles_lists_regular_files :
  forall (nodeAt : string -> Node) (vaultDir : string) (es : list (string * Node)),
    nodeAt vaultDir = NDir es ->
    (Walk.readable (NDir es) = true ->
     exists out,
       Walk.getFiles nodeAt vaultDir = Returned out
       /\ Walk.getFileNames nodeAt vaultDir = Returned (map stub_path out)
       /\ forall s,
           In s out
           <-> exists segs st,
                 Walk.fileAt (NDir es) segs st
                 /\ s = mkStub (List.last segs EmptyString)
                          (fold_left Walk.relOf segs EmptyString)
                          (mkUXStat (st_ctimeMs st) (st_mtimeMs st) (st_size st) TFile)
                          false)
    /\ (Walk.readable (NDir es) = false ->
        exists e,
          Walk.getFiles nodeAt vaultDir = Threw e
          /\ Walk.getFileNames nodeAt vaultDir = Threw e).
Proof.
  intros nodeAt vaultDir es Root. unfold Walk.getFileNames, Walk.getFiles, bindRes.
  rewrite Root. split.
  - intros R. rewrite (WalkFacts.walkSync_listing (NDir es) es "" [] eq_refl R).
    cbn [app]. eexists. split; [reflexivity|]. split; [reflexivity|].
    intros s. rewrite WalkFacts.listing_segListing, in_map_iff. split.
    + intros ([segs st] & <- & Hin). exists segs, st.
      split; [now apply WalkFacts.In_segListing|reflexivity].
    + intros (segs & st & Hf & ->). exists (segs, st).
      split; [reflexivity|now apply WalkFacts.In_segListing].
  - intros R.
    destruct (WalkFacts.walkSync_unreadable (NDir es) "" [] R) as (out' & e & E).
    rewrite E. eauto.
Qed.

Lemma getFiles_lists_regular_files_witness :
  exists out,
    Walk.getFiles
      (fun _ => NDir [("a.md", NFile (MemFs.fileStats 3 1));
                      ("notes", NDir [("b.md", NFile (MemFs.fileStats 5 2))]);
                      ("sock", NOther)]) "/vault"
    = Returned out.
Proof.
  destruct (proj1 (getFiles_lists_regular_files
              (fun _ => NDir [("a.md", NFile (MemFs.fileStats 3 1));
                              ("notes", NDir [("b.md", NFile (MemFs.fileStats 5 2))]);
                              ("sock", NOther)]) "/vault" _ eq_refl) eq_refl)
    as (out & E & _).
  exists out. exact E.
Defined.

Example getFiles_sample :
  Walk.getFileNames
    (fun _ => NDir [("a.md", NFile (MemFs.fileStats 3 1));
                    ("notes", NDir [("b.md", NFile (MemFs.fileStats 5 2));
                                    ("deep", NDir [("c.md", NFile (MemFs.fileStats 7 3))])]);
                    ("sock", NOther)]) "/vault"
  = Returned ["a.md"; "notes/b.md"; "notes/deep/c.md"].
Proof. vm_compute. reflexivity. Qed.

Module WalkNames.
Import Walk.
Local Open Scope list_scope.

Lemma distinct_NoDup l : distinct l = true -> NoDup l.
Proof.
induction l as [|x r IH]; cbn [distinct]; intros H; constructor.
- apply andb_prop in H. destruct H as (N & _). apply negb_true_iff in N.
  intros Hin.
  assert (X : existsb (String.eqb x) r = true).
  { apply existsb_exists. exists x. split; [exact Hin|apply String.eqb_refl]. }
  congruence.
- apply andb_prop in H. now apply IH.
Qed.

Lemma head_of_listing es x :
In x (segListing (NDir es)) ->
exists name tl, fst x = name :: tl /\ In name (map fst es).
Proof.
cbn [segListing]. rewrite in_flat_map.
intros ([name c] & Hin & Hx). cbn [snd fst] in Hx.
assert (N : In name (map fst es)) by (change name with (fst (name, c)); now apply in_map).
destruct c as [st|e|sub|e|]; try (now destruct Hx).
- destruct Hx as [<-|[]]. cbn. eauto.
- apply in_map_iff in Hx. destruct Hx as (y & <- & _). cbn. eauto.
Qed.

(** In a well-named tree the names that lead to a file are names of
  directory entries, and no two files are led to by the same names. *)
Lemma segListing_wellNamed n :
wellNamed n = true ->
NoDup (map fst (segListing n))
/\ forall x, In x (segListing n) -> Forall okName (fst x).
Proof.
induction n as [st0|e|es IH|e|] using WalkFacts.Node_induction; intros WN;
  try (split; [constructor|intros x []]).
cbn [wellNamed] in WN. apply andb_prop in WN. destruct WN as (D & F).
rewrite Forall_forall in IH.
induction es as [|[name c] r IHr].
- split; [constructor|intros x []].
- cbn [map fst distinct] in D. apply andb_prop in D. destruct D as (Dn & Dr).
  cbn [forallb fst snd] in F. apply andb_prop in F. destruct F as (Fc & Fr).
  apply andb_prop in Fc. destruct Fc as (Fn & Wc).
  apply andb_prop in Fn. destruct Fn as (Pn & Bn).
  destruct (IHr (fun x Hx => IH x (or_intror Hx)) Dr Fr) as (NDr & Okr).
  assert (Hc : NoDup (map fst (segListing c))
               /\ forall x, In x (segListing c) -> Forall okName (fst x)).
  { apply (IH (name, c) (or_introl eq_refl)). exact Wc. }
  destruct Hc as (NDc & Okc).
  assert (Nn : ~ In name (map fst r)).
  { intros Hin. apply negb_true_iff in Dn.
    assert (X : existsb (String.eqb name) (map fst r) = true).
    { apply existsb_exists. exists name. split; [exact Hin|apply String.eqb_refl]. }
    congruence. }
  change (segListing (NDir ((name, c) :: r)))
    with ((match c with
           | NFile st => [([name], st)]
           | NDir _ => map (fun x => (name :: fst x, snd x)) (segListing c)
           | _ => []
           end) ++ segListing (NDir r)).
  assert (HeadName : forall x,
             In x (match c with
                   | NFile st => [([name], st)]
                   | NDir _ => map (fun x => (name :: fst x, snd x)) (segListing c)
                   | _ => []
                   end) ->
             exists tl, fst x = name :: tl).
  { intros x Hx. destruct c as [st|e|sub|e|]; try (now destruct Hx).
    - destruct Hx as [<-|[]]. cbn. eauto.
    - apply in_map_iff in Hx. destruct Hx as (y & <- & _). cbn. eauto. }
  split.
  + rewrite map_app. apply NoDup_app.
    * destruct c as [st|e|sub|e|]; try constructor; try (intros []); try constructor.
      rewrite map_map. cbn [fst].
      rewrite <- (map_map fst (cons name)).
      apply NoDup_map_NoDup_ForallPairs; [|exact NDc].
      intros a b _ _ E. now inversion E.
    * exact NDr.
    * intros segs H1 H2.
      apply in_map_iff in H1. destruct H1 as (x & <- & Hx).
      apply in_map_iff in H2. destruct H2 as (y & E & Hy).
      destruct (HeadName x Hx) as (tl & Ex).
      destruct (head_of_listing r y Hy) as (nm & tl' & Ey & Hnm).
      rewrite Ex, Ey in E. inversion E; subst. contradiction.
  + intros x Hx. apply in_app_or in Hx. destruct Hx as [Hx|Hx]; [|now apply Okr].
    assert (On : okName name) by (split; assumption).
    destruct c as [st|e|sub|e|]; try (now destruct Hx).
    * destruct Hx as [<-|[]]. cbn. constructor; [exact On|constructor].
    * apply in_map_iff in Hx. destruct Hx as (y & <- & Hy). cbn [fst].
      constructor; [exact On|]. now apply Okc.
Qed.

Lemma okName_parts s :
okName s ->
Str.isEmpty s = false /\ Segments.noSlash s = true /\ noBackslash s = true.
Proof.
intros (P & B). apply AbsFacts.plain_parts in P. tauto.
Qed.

(** For names that are not empty the walk builds the path with [/]
  between the names. *)
Lemma relPath_join base segs :
Str.isEmpty base = false ->
relPath base segs = Str.joinWith "/" (base :: segs).
Proof.
revert base. induction segs as [|x r IH]; intros base E; [reflexivity|].
unfold relPath. cbn [fold_left]. unfold relOf at 2. rewrite E.
fold (relPath (base ++ "/" ++ x)%string r).
rewrite IH by (now apply AbsFacts.isEmpty_append).
rewrite AbsFacts.joinWith_cons.
destruct r as [|y r'].
- reflexivity.
- rewrite !AbsFacts.joinWith_cons. now rewrite !AbsFacts.append_assoc.
Qed.

Lemma relPath_root segs :
segs <> [] -> Forall okName segs ->
relPath "" segs = Str.joinWith "/" segs.
Proof.
destruct segs as [|x r]; [congruence|]. intros _ F. inversion F; subst.
unfold relPath. cbn [fold_left]. unfold relOf at 2. cbn [Str.isEmpty].
apply relPath_join. now apply okName_parts.
Qed.

Lemma split_of_path segs :
segs <> [] -> Forall okName segs ->
Str.split (relPath "" segs) = segs.
Proof.
intros N F. rewrite (relPath_root segs N F). apply AbsFacts.split_join; [exact N|].
eapply Forall_impl; [|exact F]. intros s H. now apply okName_parts in H.
Qed.

Lemma chars_append a b c :
In c (list_ascii_of_string (a ++ b)) ->
In c (list_ascii_of_string a) \/ In c (list_ascii_of_string b).
Proof.
induction a as [|x r IH]; cbn; [auto|]. intros [H|H]; [auto|].
destruct (IH H); auto.
Qed.

Lemma chars_of_join segs c :
In c (list_ascii_of_string (Str.joinWith "/" segs)) ->
c = Str.slash \/ exists s, In s segs /\ In c (list_ascii_of_string s).
Proof.
induction segs as [|x r IH]; [intros []|].
destruct r as [|y r'].
- cbn [Str.joinWith]. intros H. right. exists x. split; [now left|exact H].
- rewrite AbsFacts.joinWith_cons. intros H.
  apply chars_append in H. destruct H as [H|H].
  + right. exists x. split; [now left|exact H].
  + cbn in H. destruct H as [H|H]; [now left|].
    destruct (IH H) as [E|(s & Hs & Hc)]; [now left|].
    right. exists s. split; [now right|exact Hc].
Qed.

Lemma forallb_chars (f : ascii -> bool) s c :
forallb f (list_ascii_of_string s) = true -> In c (list_ascii_of_string s) -> f c = true.
Proof. intros H Hin. rewrite forallb_forall in H. now apply H. Qed.

Lemma path_normalised segs :
segs <> [] -> Forall okName segs ->
FileAccess.normalizeVaultRelative (relPath "" segs) = relPath "" segs.
Proof.
intros N F. rewrite (relPath_root segs N F). unfold FileAccess.normalizeVaultRelative.
rewrite PathFacts.replaceBackslashes_id.
- apply PathFacts.strip_id.
  destruct segs as [|x r]; [congruence|]. inversion F as [|? ? Hx Hr]; subst.
  apply okName_parts in Hx. destruct Hx as (E & S & _).
  destruct x as [|c x']; [discriminate|].
  unfold Segments.noSlash in S. cbn in S. apply andb_prop in S. destruct S as (S & _).
  apply negb_true_iff in S.
  destruct r; [exact S|rewrite AbsFacts.joinWith_cons; exact S].
- intros H. apply chars_of_join in H. destruct H as [H|(s & Hs & Hc)].
  + discriminate.
  + rewrite Forall_forall in F. apply F in Hs. apply okName_parts in Hs.
    destruct Hs as (_ & _ & B).
    pose proof (forallb_chars _ _ _ B Hc) as X.
    cbn in X. discriminate.
Qed.

Lemma last_In {A} (l : list A) d : l <> [] -> In (List.last l d) l.
Proof.
induction l as [|x r IH]; [congruence|]. intros _.
destruct r as [|y r']; [now left|]. right. apply IH. discriminate.
Qed.

Lemma filter_nonempty_id segs :
Forall okName segs -> filter (fun s => negb (Str.isEmpty s)) segs = segs.
Proof.
induction 1 as [|x r Hx Hr IH]; [reflexivity|]. cbn.
apply okName_parts in Hx. destruct Hx as (E & _). rewrite E. cbn. now rewrite IH.
Qed.

Lemma set_fresh {V} (m : JsMap.t V) k v :
~ In k (JsMap.keys m) -> JsMap.set m k v = m ++ [(k, v)].
Proof.
induction m as [|[k' v'] r IH]; cbn; [reflexivity|]. intros N.
destruct (String.eqb_spec k' k) as [->|NE]; [exfalso; auto|].
rewrite IH by tauto. reflexivity.
Qed.

Lemma scanSnapshot_distinct files :
NoDup (map stub_path files) ->
Watcher._scanSnapshot files
= map (fun f => (stub_path f,
                 Watcher.mkInfo (ux_mtime (stub_stat f)) (ux_size (stub_stat f))))
      files.
Proof.
unfold Watcher._scanSnapshot, JsMap.empty.
change (@nil (string * Watcher.Info)) with
  (map (fun f => (stub_path f,
                  Watcher.mkInfo (ux_mtime (stub_stat f)) (ux_size (stub_stat f))))
       (@nil UXFileInfoStub)) at 1.
rewrite <- (app_nil_l files) at 1 3.
generalize (@nil UXFileInfoStub) as done.
induction files as [|f r IH]; intros done ND.
- cbn. now rewrite app_nil_r.
- cbn [fold_left]. rewrite set_fresh.
  + change (map _ done ++ [_]) with
      (map (fun f => (stub_path f,
                      Watcher.mkInfo (ux_mtime (stub_stat f)) (ux_size (stub_stat f))))
           done ++
       map (fun f => (stub_path f,
                      Watcher.mkInfo (ux_mtime (stub_stat f)) (ux_size (stub_stat f))))
           [f]).
    rewrite <- map_app.
    replace (done ++ f :: r) with ((done ++ [f]) ++ r) by (now rewrite <- app_assoc).
    apply IH. now rewrite <- app_assoc.
  + unfold JsMap.keys. rewrite map_map. cbn [fst].
    rewrite map_app in ND. apply NoDup_remove_2 in ND.
    intros Hin. apply ND. apply in_or_app. now left.
Qed.

End WalkNames.

Module WalkResults.
Import Walk.
Local Open Scope list_scope.

Lemma getFiles_returned nodeAt vaultDir out :
getFiles nodeAt vaultDir = Returned out ->
exists es,
  nodeAt vaultDir = NDir es /\ readable (NDir es) = true
  /\ out = map (stubAt "") (segListing (NDir es)).
Proof.
unfold getFiles. destruct (nodeAt vaultDir) as [st|e|es|e|] eqn:Root;
  try (cbn; discriminate).
destruct (readable (NDir es)) eqn:R.
- rewrite (WalkFacts.walkSync_listing (NDir es) es "" [] eq_refl R).
  change ([] ++ listing (NDir es) "") with (listing (NDir es) "").
  rewrite WalkFacts.listing_segListing. intros [= <-]. now exists es.
- destruct (WalkFacts.walkSync_unreadable (NDir es) "" [] R) as (out' & e & E).
  rewrite E. discriminate.
Qed.

Lemma walk_listing n :
forall es base out,
  n = NDir es -> readable n = true ->
  walk n base out = (out ++ map stub_path (listing n base), Returned tt).
Proof.
induction n as [st|e|es0 IH|e|] using WalkFacts.Node_induction;
  intros es base out E R; try discriminate.
clear E es. cbn [walk listing]. cbn [readable] in R.
revert out. induction es0 as [|[name c] r IHr]; intros out.
- cbn. now rewrite app_nil_r.
- cbn [forallb snd] in R. apply andb_prop in R. destruct R as (Rc & Rr).
  inversion IH as [|? ? Pc Pr]; subst. cbn [snd] in Pc.
  rewrite WalkFacts.walkNames_cons. cbn [flat_map snd fst]. rewrite map_app.
  destruct c as [st|e|sub|e|]; try discriminate.
  + rewrite (IHr Pr Rr). cbn [map stub_path fileStub]. now rewrite <- app_assoc.
  + rewrite (Pc sub _ out eq_refl Rc). rewrite (IHr Pr Rr).
    now rewrite <- app_assoc.
  + rewrite (IHr Pr Rr). reflexivity.
Qed.

(** The walk over the entries after a readable part goes on from what
  that part pushed. *)
Lemma walkNames_prefix base before rest :
forall out,
  readable (NDir before) = true ->
  walkNames walk base (before ++ rest) out
  = walkNames walk base rest
      (out ++ map stub_path (listing (NDir before) base)).
Proof.
induction before as [|[name c] r IH]; intros out R.
- cbn. now rewrite app_nil_r.
- cbn [readable forallb snd] in R. apply andb_prop in R. destruct R as (Rc & Rr).
  change (((name, c) :: r) ++ rest) with ((name, c) :: (r ++ rest)).
  rewrite WalkFacts.walkNames_cons. cbn [listing flat_map snd fst]. rewrite map_app.
  destruct c as [st|e|sub|e|]; try discriminate.
  + rewrite (IH _ Rr). cbn [map stub_path fileStub listing]. now rewrite <- app_assoc.
  + rewrite (walk_listing (NDir sub) sub _ out eq_refl Rc). rewrite (IH _ Rr).
    cbn [listing]. now rewrite <- app_assoc.
  + rewrite (IH _ Rr). reflexivity.
Qed.

End WalkResults.

(** X11.  When the names of the entries below the vault directory are names
    of directory entries without a backslash, and differ within each
    directory, the stubs [getFiles] returns have distinct paths; each
    path is normalised already, and its last segment is the name of the
    stub.  The snapshot [_scanSnapshot] builds of them then has one
    entry for each stub, in the order of the walk. *)
Theorem getFiles_paths_distinct_and_normalised :
  forall (nodeAt : string -> Node) (vaultDir : string) (out : list UXFileInfoStub),
    Walk.wellNamed (nodeAt vaultDir) = true ->
    Walk.getFiles nodeAt vaultDir = Returned out ->
    NoDup (map stub_path out)
    /\ (forall s,
           In s out ->
           FileAccess.normalizeVaultRelative (stub_path s) = stub_path s
           /\ Str.basename (stub_path s) = stub_name s
           /\ Watcher.lastSegmentOr (stub_path s) = stub_name s)
    /\ Watcher._scanSnapshot out
       = map (fun f => (stub_path f,
                        Watcher.mkInfo (ux_mtime (stub_stat f)) (ux_size (stub_stat f))))
             out.
Proof.
  intros nodeAt vaultDir out WN G.
  destruct (WalkResults.getFiles_returned _ _ _ G) as (es & Root & R & ->).
  rewrite Root in WN.
  destruct (WalkNames.segListing_wellNamed _ WN) as (ND & Ok).
  assert (NE : forall x, In x (Walk.segListing (NDir es)) -> fst x <> []).
  { intros x. apply WalkFacts.segListing_nonempty. }
  assert (Paths : NoDup (map stub_path
                           (map (Walk.stubAt "") (Walk.segListing (NDir es))))).
  { rewrite map_map. cbn [Walk.stubAt Walk.fileStub stub_path].
    rewrite <- (map_map fst (Walk.relPath "")).
    apply NoDup_map_NoDup_ForallPairs; [|exact ND].
    intros a b Ha Hb E.
    apply in_map_iff in Ha. destruct Ha as (x & <- & Hx).
    apply in_map_iff in Hb. destruct Hb as (y & <- & Hy).
    rewrite <- (WalkNames.split_of_path (fst x) (NE x Hx) (Ok x Hx)).
    rewrite <- (WalkNames.split_of_path (fst y) (NE y Hy) (Ok y Hy)).
    now rewrite E. }
  split; [exact Paths|]. split.
  - intros s Hs. apply in_map_iff in Hs. destruct Hs as ([segs st] & <- & Hx).
    pose proof (NE _ Hx) as N. pose proof (Ok _ Hx) as F. cbn [fst] in N, F.
    cbn [Walk.stubAt Walk.fileStub stub_path stub_name fst snd].
    split; [now apply WalkNames.path_normalised|].
    assert (L : In (List.last segs "") segs) by now apply WalkNames.last_In.
    split.
    + unfold Str.basename. rewrite (WalkNames.split_of_path segs N F).
      now rewrite WalkNames.filter_nonempty_id.
    + unfold Watcher.lastSegmentOr. rewrite (WalkNames.split_of_path segs N F).
      rewrite Forall_forall in F. apply F in L. apply WalkNames.okName_parts in L.
      destruct L as (E & _). now rewrite E.
  - now apply WalkNames.scanSnapshot_distinct.
Qed.

Lemma getFiles_paths_distinct_witness :
  NoDup (map stub_path
           [Walk.fileStub "a.md" "a.md" (MemFs.fileStats 3 1);
            Walk.fileStub "b.md" "notes/b.md" (MemFs.fileStats 5 2)]).
Proof.
  apply (proj1 (getFiles_paths_distinct_and_normalised
                  (fun _ => NDir [("a.md", NFile (MemFs.fileStats 3 1));
                                  ("notes", NDir [("b.md", NFile (MemFs.fileStats 5 2))])])
                  "/vault" _ eq_refl eq_refl)).
Defined.

(** X12.  [getFilesIncludeHidden] does not throw.  When everything below the
    base directory can be read it returns the paths of the regular
    files below it, each built from the normalised base path and the
    names that lead to the file.  When an entry of the base directory
    is a directory that cannot be read, it returns what it collected
    before that entry, the same as if the directory ended there, and
    reports no error.  When the base path is not a directory that can
    be read, it returns the empty list. *)
Theorem getFilesIncludeHidden_partial_on_error :
  forall (nodeAt : string -> Node) (vaultDir basePath : string),
    (forall es,
        nodeAt (FileAccess.abs vaultDir basePath) = NDir es ->
        Walk.readable (NDir es) = true ->
        forall p,
          In p (Walk.getFilesIncludeHidden nodeAt vaultDir basePath)
          <-> exists segs st,
                Walk.fileAt (NDir es) segs st
                /\ p = fold_left Walk.relOf segs
                         (FileAccess.normalizeVaultRelative basePath))
    /\ (forall before name e after,
           nodeAt (FileAccess.abs vaultDir basePath)
           = NDir (before ++ (name, NDirUnreadable e) :: after)%list ->
           Walk.readable (NDir before) = true ->
           Walk.getFilesIncludeHidden nodeAt vaultDir basePath
           = Walk.getFilesIncludeHidden (fun _ => NDir before) vaultDir basePath)
    /\ ((forall es, nodeAt (FileAccess.abs vaultDir basePath) <> NDir es) ->
        Walk.getFilesIncludeHidden nodeAt vaultDir basePath = []).
Proof.
  intros nodeAt vaultDir basePath. unfold Walk.getFilesIncludeHidden.
  rewrite DeleteFacts.abs_normalized.
  split; [|split].
  - intros es Root R p. rewrite Root.
    rewrite (WalkResults.walk_listing (NDir es) es _ [] eq_refl R).
    cbn [fst app]. rewrite WalkFacts.listing_segListing, map_map, in_map_iff. split.
    + intros ([segs st] & <- & Hin). exists segs, st.
      split; [now apply WalkFacts.In_segListing|reflexivity].
    + intros (segs & st & Hf & ->). exists (segs, st).
      split; [reflexivity|now apply WalkFacts.In_segListing].
  - intros before name e after Root R. rewrite Root.
    rewrite (WalkResults.walk_listing (NDir before) before _ [] eq_refl R).
    cbn [Walk.walk]. rewrite (WalkResults.walkNames_prefix _ before _ [] R).
    rewrite WalkFacts.walkNames_cons. reflexivity.
  - intros N. destruct (nodeAt _) as [st|e|es|e|]; try reflexivity.
    now destruct (N es).
Qed.

(** A vault whose second directory cannot be read: [getFiles] throws,
    [getFilesIncludeHidden] returns what precedes that directory. *)
Example getFilesIncludeHidden_sample :
  let tree := NDir [("a.md", NFile (MemFs.fileStats 3 1));
                    ("locked", NDirUnreadable "EACCES");
                    ("z.md", NFile (MemFs.fileStats 5 2))] in
  Walk.getFiles (fun _ => tree) "/vault" = Threw "EACCES"
  /\ Walk.getFilesIncludeHidden (fun _ => tree) "/vault" "" = ["a.md"].
Proof. vm_compute. split; reflexivity. Qed.

(** ** The poll loop: the snapshot *)

Module SnapshotFacts.
Import Watcher.
Local Open Scope list_scope.

Lemma find_app {A} (f : A -> bool) l1 l2 :
find f (l1 ++ l2) = match find f l1 with
                    | Some x => Some x
                    | None => find f l2
                    end.
Proof.
induction l1 as [|x r IH]; cbn; [reflexivity|].
destruct (f x); [reflexivity|exact IH].
Qed.

Lemma scan_fold_get files :
forall acc p,
  JsMap.get
    (fold_left
       (fun snap f =>
          JsMap.set snap (stub_path f)
            (mkInfo (ux_mtime (stub_stat f)) (ux_size (stub_stat f))))
       files acc) p
  = match find (fun f => String.eqb (stub_path f) p) (rev files) with
    | Some f => Some (mkInfo (ux_mtime (stub_stat f)) (ux_size (stub_stat f)))
    | None => JsMap.get acc p
    end.
Proof.
induction files as [|f r IH]; intros acc p; [reflexivity|].
cbn [fold_left rev]. rewrite IH, find_app.
destruct (find _ (rev r)); [reflexivity|]. cbn [find].
destruct (String.eqb_spec (stub_path f) p) as [->|N].
- apply JsMapFacts.get_set_same.
- now apply JsMapFacts.get_set_other.
Qed.

Lemma scan_fold_keys files :
forall acc k,
  In k (JsMap.keys
          (fold_left
             (fun snap f =>
                JsMap.set snap (stub_path f)
                  (mkInfo (ux_mtime (stub_stat f)) (ux_size (stub_stat f))))
             files acc))
  <-> In k (JsMap.keys acc) \/ In k (map stub_path files).
Proof.
induction files as [|f r IH]; intros acc k; cbn [fold_left map In]; [tauto|].
rewrite IH, JsMapFacts.keys_set_in. intuition congruence.
Qed.

End SnapshotFacts.

(** X14.  [_scanSnapshot] holds for a path the modification time and the size
    of the last stub of the list that has this path, and nothing for a
    path no stub has: of two stubs with one path the later one
    overwrites the earlier.  Its keys are the paths of the stubs, each
    once. *)
Theorem scanSnapshot_last_stub_wins :
  forall (files : list UXFileInfoStub) (p : string),
    JsMap.get (Watcher._scanSnapshot files) p
    = option_map
        (fun f => Watcher.mkInfo (ux_mtime (stub_stat f)) (ux_size (stub_stat f)))
        (find (fun f => String.eqb (stub_path f) p) (rev files))
    /\ (JsMap.has (Watcher._scanSnapshot files) p = true
        <-> In p (map stub_path files))
    /\ NoDup (JsMap.keys (Watcher._scanSnapshot files)).
Proof.
  intros files p. unfold Watcher._scanSnapshot.
  split; [|split].
  - rewrite SnapshotFacts.scan_fold_get.
    destruct (find _ (rev files)); reflexivity.
  - unfold JsMap.has.
    pose proof (SnapshotFacts.scan_fold_keys files JsMap.empty p) as K.
    pose proof (JsMapFacts.get_None_notin
                  (fold_left
                     (fun snap f =>
                        JsMap.set snap (stub_path f)
                          (Watcher.mkInfo (ux_mtime (stub_stat f))
                             (ux_size (stub_stat f))))
                     files JsMap.empty) p) as N.
    cbn [JsMap.keys JsMap.empty map In] in K.
    destruct (JsMap.get _ p) as [i|].
    + split; [intros _|reflexivity].
      destruct (in_dec string_dec p (map stub_path files)) as [H|H]; [exact H|].
      exfalso. assert (X : Some i = None); [|discriminate].
      apply N. intros Hin. apply K in Hin. tauto.
    + split; [discriminate|]. intros H. exfalso.
      destruct N as (N & _). apply (N eq_refl). apply K. now right.
  - apply TickFacts.scanSnapshot_NoDup.
Qed.

(** ** The poll loop: files that do not change, files that are deleted *)

Module LoopFacts.
Import Watcher PathView RunView RunFacts.
Local Open Scope list_scope.

Lemma reported_timed cfg envs e p :
reported cfg envs e p = map snd (timedFor p (releasedAt cfg envs e)).
Proof. unfold reported. now rewrite timedFor_pollLoop. Qed.

Lemma reported_tick cfg env rest e p :
running e = true ->
reported cfg (env :: rest) e p
= eventsFor p (submitted (snd (pollTick cfg env e)))
  ++ reported cfg rest (afterSleep env (fst (pollTick cfg env e))) p.
Proof.
intros R. rewrite !reported_timed, timedFor_tick by exact R.
rewrite map_app, map_map. cbn [snd]. now rewrite map_id.
Qed.

Lemma reported_stopped cfg envs e p :
running e = false -> reported cfg envs e p = [].
Proof.
intros R. rewrite reported_timed. destruct envs; [reflexivity|].
cbn [releasedAt]. now rewrite R.
Qed.

Lemma afterSleep_get env e :
snapshot (afterSleep env e) = snapshot e
/\ pendingWrites (afterSleep env e) = pendingWrites e
/\ queue (afterSleep env e) = queue e.
Proof. unfold afterSleep. destruct (stopCalled env); auto. Qed.

(** A path that is neither in the snapshot nor pending nor seen:
  nothing happens. *)
Lemma absent_tick cfg env e p :
wf e -> completes env ->
JsMap.get (snapshot e) p = None ->
JsMap.get (pendingWrites e) p = None ->
seen env p = None ->
eventsFor p (submitted (snd (pollTick cfg env e))) = []
/\ JsMap.get (pendingWrites (fst (pollTick cfg env e))) p = None
/\ JsMap.get (snapshot (fst (pollTick cfg env e))) p = None.
Proof.
intros WF C PS PW Sn.
destruct (tick_view cfg env e p WF C) as (HP & HE & HS & _).
rewrite Sn, PS, PW in HP, HE. rewrite HP, HE, HS, Sn. auto.
Qed.

Lemma absent_run cfg p envs :
forall e,
  wf e ->
  JsMap.get (snapshot e) p = None ->
  JsMap.get (pendingWrites e) p = None ->
  Forall (fun env => completes env /\ seen env p = None) envs ->
  reported cfg envs e p = [].
Proof.
induction envs as [|env rest IH]; intros e WF PS PW F; [reflexivity|].
inversion F as [|? ? [C Sn] F']; subst.
destruct (running e) eqn:R; [|now apply reported_stopped].
rewrite reported_tick by exact R.
destruct (absent_tick cfg env e p WF C PS PW Sn) as (HE & HP & HS).
destruct (tick_view cfg env e p WF C) as (_ & _ & _ & HW & _).
destruct (afterSleep_get env (fst (pollTick cfg env e))) as (A1 & A2 & _).
rewrite HE. cbn [app]. apply IH; auto.
- now apply afterSleep_wf.
- now rewrite A1.
- now rewrite A2.
Qed.

Lemma quiet_reported cfg p cur envs e :
wf e ->
JsMap.get (snapshot e) p = Some cur ->
JsMap.get (pendingWrites e) p = None ->
Forall (fun env => completes env /\ seen env p = Some cur) envs ->
reported cfg envs e p = [].
Proof.
intros WF PS PW F. rewrite reported_timed.
now rewrite (quiet_run cfg p cur envs e WF PS PW F).
Qed.

(** A path of the snapshot that the tick does not see. *)
Lemma gone_tick cfg env e p i :
wf e -> completes env ->
JsMap.get (snapshot e) p = Some i ->
seen env p = None ->
eventsFor p (submitted (snd (pollTick cfg env e))) = [deleteEvent env p i]
/\ JsMap.get (pendingWrites (fst (pollTick cfg env e))) p = None
/\ JsMap.get (snapshot (fst (pollTick cfg env e))) p = None.
Proof.
intros WF C PS Sn.
destruct (tick_view cfg env e p WF C) as (HP & HE & HS & _).
rewrite Sn, PS in HP, HE. rewrite HP, HE, HS, Sn.
unfold pathDetect, pendingAfterFlush, releasedBy, deletedBy, decisionOn.
destruct (JsMap.get (pendingWrites e) p); auto.
Qed.

Lemma beginWatch_wf files : wf (beginWatch files initial).
Proof.
split; cbn.
- apply TickFacts.scanSnapshot_NoDup.
- constructor.
Qed.

End LoopFacts.

(** X15.  A file that is in the vault when [beginWatch] takes its snapshot, and
    that every later tick sees with the same modification time and size,
    is never reported; nor is a path that is not there then and is not
    seen later.  The snapshot of [beginWatch] is a baseline, not a list
    of creations: this holds at the first start and at a restart after
    [stop], where what happened to a file while the loop was stopped
    goes unreported unless a write of it was pending. *)
Theorem unchanged_files_are_never_reported :
  forall (cfg : Watcher.Config) (e : Watcher.Engine) (files : list UXFileInfoStub)
         (envs : list Watcher.TickEnv) (p : string),
    NoDup (JsMap.keys (Watcher.pendingWrites e)) ->
    JsMap.get (Watcher.pendingWrites e) p = None ->
    Forall (fun env =>
              PathView.completes env
              /\ PathView.seen env p = JsMap.get (Watcher._scanSnapshot files) p)
           envs ->
    Watcher.eventsFor p
      (PathView.loopSubmitted
         (snd (Watcher._pollLoop cfg envs (Watcher.beginWatch files e)))) = [].
Proof.
  intros cfg e files envs p ND PW F.
  change (RunView.reported cfg envs (Watcher.beginWatch files e) p = []).
  assert (WF : PathView.wf (Watcher.beginWatch files e)).
  { split; cbn; [apply TickFacts.scanSnapshot_NoDup|exact ND]. }
  destruct (JsMap.get (Watcher._scanSnapshot files) p) as [cur|] eqn:G.
  - apply (LoopFacts.quiet_reported cfg p cur envs _ WF); auto.
  - apply (LoopFacts.absent_run cfg p envs _ WF); auto.
Qed.

Lemma unchanged_files_witness :
  Watcher.eventsFor "a.md"
    (PathView.loopSubmitted
       (snd (Watcher._pollLoop Watcher.defaultConfig
               [Sample.tickAt Sample.acceptAll 750 [Sample.fileStub "a.md" 3 1];
                Sample.tickAt Sample.acceptAll 1500 [Sample.fileStub "a.md" 3 1]]
               (Watcher.beginWatch [Sample.fileStub "a.md" 3 1] Watcher.initial))))
  = [].
Proof.
  refine (unchanged_files_are_never_reported Watcher.defaultConfig Watcher.initial
            [Sample.fileStub "a.md" 3 1]
            [Sample.tickAt Sample.acceptAll 750 [Sample.fileStub "a.md" 3 1];
             Sample.tickAt Sample.acceptAll 1500 [Sample.fileStub "a.md" 3 1]]
            "a.md" _ _ _).
  - constructor.
  - reflexivity.
  - repeat constructor; try apply sample_completes.
Defined.

(** X16.  A file of the snapshot that the next tick and the ticks after it do
    not see is reported once, by the first of these ticks, as a DELETE:
    the stub is marked deleted, has the size the snapshot held, the last
    segment of the path as name and the clock readings of that tick as
    times, and the event skips the batch wait.  This does not depend on
    whether a write of the file was pending; the ticks after it report
    nothing for the path. *)
Theorem deleted_file_is_reported_once :
  forall (cfg : Watcher.Config) (e : Watcher.Engine) (env1 : Watcher.TickEnv)
         (rest : list Watcher.TickEnv) (p : string) (i : Watcher.Info),
    PathView.wf e ->
    Watcher.running e = true ->
    JsMap.get (Watcher.snapshot e) p = Some i ->
    Forall (fun env => PathView.completes env /\ PathView.seen env p = None)
           (env1 :: rest) ->
    Watcher.eventsFor p
      (PathView.loopSubmitted (snd (Watcher._pollLoop cfg (env1 :: rest) e)))
    = [mkFileEvent DELETE
         (mkStub (Watcher.lastSegmentOr p) p
            (mkUXStat (Watcher.dateNow env1 (Watcher.DeletedCtime p))
               (Watcher.dateNow env1 (Watcher.DeletedMtime p))
               (Watcher.size i) TFile)
            true)
         None None (Some true)].
Proof.
  intros cfg e env1 rest p i WF R PS F.
  inversion F as [|? ? [C Sn] F']; subst.
  change (RunView.reported cfg (env1 :: rest) e p = [Watcher.deleteEvent env1 p i]).
  rewrite LoopFacts.reported_tick by exact R.
  destruct (LoopFacts.gone_tick cfg env1 e p i WF C PS Sn) as (HE & HP & HS).
  destruct (RunFacts.tick_view cfg env1 e p WF C) as (_ & _ & _ & HW & _).
  destruct (LoopFacts.afterSleep_get env1 (fst (Watcher.pollTick cfg env1 e)))
    as (A1 & A2 & _).
  rewrite HE. rewrite LoopFacts.absent_run; auto.
  - now apply RunFacts.afterSleep_wf.
  - now rewrite A1.
  - now rewrite A2.
Qed.

Lemma deleted_file_witness :
  Watcher.eventsFor "a.md"
    (PathView.loopSubmitted
       (snd (Watcher._pollLoop Watcher.defaultConfig
               [Sample.tickAt Sample.acceptAll 750 [];
                Sample.tickAt Sample.acceptAll 1500 []]
               (Watcher.beginWatch [Sample.fileStub "a.md" 3 1] Watcher.initial))))
  = [mkFileEvent DELETE
       (mkStub "a.md" "a.md" (mkUXStat 750 750 3 TFile) true) None None (Some true)].
Proof.
  apply (deleted_file_is_reported_once Watcher.defaultConfig
           (Watcher.beginWatch [Sample.fileStub "a.md" 3 1] Watcher.initial)
           (Sample.tickAt Sample.acceptAll 750 [])
           [Sample.tickAt Sample.acceptAll 1500 []] "a.md" (Watcher.mkInfo 1 3)).
  - apply LoopFacts.beginWatch_wf.
  - reflexivity.
  - reflexivity.
  - repeat constructor; try apply sample_completes.
Defined.

(** ** The poll loop: files that keep changing, and what stays pending *)

Module PendingFacts.
Import Watcher PathView RunView RunFacts LoopFacts.
Local Open Scope list_scope.

Lemma in_sync_tick cfg env e p w :
wf e -> completes env ->
JsMap.get (pendingWrites (fst (pollTick cfg env e))) p = Some w ->
JsMap.get (snapshot (fst (pollTick cfg env e))) p
= Some (mkInfo (lastMtimeMs w) (lastSize w)).
Proof.
intros WF C H.
destruct (tick_view cfg env e p WF C) as (HP & _ & HS & _).
rewrite HS. rewrite HP in H. clear HP HS.
destruct (seen env p) as [[cm cs]|].
- unfold pendingAfterFlush, decisionOn in H.
  destruct (pathDetect env _ _ p _) as [w0|]; [|discriminate].
  cbn [mtimeMs size] in H.
  destruct (Z.eqb_spec cm (lastMtimeMs w0)), (Z.eqb_spec cs (lastSize w0));
    cbn [negb orb] in H.
  + destruct (Z.geb _ _); [destruct (isEmptyCreate w0 && _)|];
      try discriminate; injection H as <-; congruence.
  + injection H as <-. reflexivity.
  + injection H as <-. reflexivity.
  + injection H as <-. reflexivity.
- unfold pendingAfterFlush, decisionOn in H.
  destruct (pathDetect env _ _ p None); discriminate.
Qed.

(** One tick of a file that keeps changing: nothing is reported, and
  the pending write records what the tick saw. *)
Lemma changing_tick cfg env e p cur :
wf e -> completes env ->
seen env p = Some cur ->
JsMap.get (snapshot e) p <> Some cur ->
(forall w, JsMap.get (pendingWrites e) p = Some w ->
           JsMap.get (snapshot e) p = Some (mkInfo (lastMtimeMs w) (lastSize w))) ->
flushWithinWindow cfg p env ->
eventsFor p (submitted (snd (pollTick cfg env e))) = []
/\ exists w, JsMap.get (pendingWrites (fst (pollTick cfg env e))) p = Some w.
Proof.
intros WF C Sn NE Sync FW.
destruct (JsMap.get (pendingWrites e) p) as [w|] eqn:PW.
- specialize (Sync w eq_refl).
  assert (D : differs (lastMtimeMs w) (lastSize w) cur = true).
  { change (lastMtimeMs w) with (mtimeMs (mkInfo (lastMtimeMs w) (lastSize w))).
    change (lastSize w) with (size (mkInfo (lastMtimeMs w) (lastSize w))) at 2.
    apply differs_neq. congruence. }
  assert (NE' : mkInfo (lastMtimeMs w) (lastSize w) <> cur) by congruence.
  destruct (change_tick cfg env e p _ cur w WF C Sync PW Sn NE' D) as (HP & HE).
  rewrite not_due_inside_window in HP, HE by exact FW. eauto.
- destruct (fresh_tick cfg env e p cur WF C PW NE Sn) as (HP & HE).
  rewrite not_due_inside_window in HP, HE by exact FW. eauto.
Qed.

Lemma changing_run cfg p envs :
forall e last,
  wf e ->
  JsMap.get (snapshot e) p = last ->
  (forall w, JsMap.get (pendingWrites e) p = Some w ->
             JsMap.get (snapshot e) p = Some (mkInfo (lastMtimeMs w) (lastSize w))) ->
  Forall (fun env => completes env /\ flushWithinWindow cfg p env) envs ->
  keepsChanging p last envs ->
  reported cfg envs e p = [].
Proof.
induction envs as [|env rest IH]; intros e last WF PS Sync F K; [reflexivity|].
inversion F as [|? ? [C FW] F']; subst.
destruct K as (cur & Sn & NE & K).
destruct (running e) eqn:R; [|now apply reported_stopped].
rewrite reported_tick by exact R.
assert (NE' : JsMap.get (snapshot e) p <> Some cur) by congruence.
destruct (changing_tick cfg env e p cur WF C Sn NE' Sync FW) as (HE & w & HP).
destruct (tick_view cfg env e p WF C) as (_ & _ & HS & HW & _).
destruct (afterSleep_get env (fst (pollTick cfg env e))) as (A1 & A2 & _).
rewrite HE. cbn [app].
apply (IH _ (Some cur)); auto.
- now apply afterSleep_wf.
- rewrite A1, HS. exact Sn.
- rewrite A1, A2. intros w' H'. now apply in_sync_tick.
Qed.

End PendingFacts.

(** X17.  As long as every tick sees the file different from what the tick
    before saw, nothing is reported for it, however long that lasts:
    each change restarts the quiet window.  (Each tick reads the clock
    for the flush less than the quiet window after it read it to date
    the change.) *)
Theorem file_that_keeps_changing_is_not_reported :
  forall (cfg : Watcher.Config) (e : Watcher.Engine) (envs : list Watcher.TickEnv)
         (p : string),
    PathView.wf e ->
    JsMap.get (Watcher.pendingWrites e) p = None ->
    Forall (fun env => PathView.completes env /\ RunView.flushWithinWindow cfg p env)
           envs ->
    RunView.keepsChanging p (JsMap.get (Watcher.snapshot e) p) envs ->
    Watcher.eventsFor p
      (PathView.loopSubmitted (snd (Watcher._pollLoop cfg envs e))) = [].
Proof.
  intros cfg e envs p WF PW F K.
  change (RunView.reported cfg envs e p = []).
  apply (PendingFacts.changing_run cfg p envs e _ WF eq_refl); auto.
  intros w H. congruence.
Qed.

Lemma file_that_keeps_changing_witness :
  Watcher.eventsFor "a.md"
    (PathView.loopSubmitted
       (snd (Watcher._pollLoop Watcher.defaultConfig
               [Sample.tickAt Sample.acceptAll 750 [Sample.fileStub "a.md" 4 2];
                Sample.tickAt Sample.acceptAll 1500 [Sample.fileStub "a.md" 5 3];
                Sample.tickAt Sample.acceptAll 2250 [Sample.fileStub "a.md" 6 4]]
               (Watcher.beginWatch [Sample.fileStub "a.md" 3 1] Watcher.initial))))
  = [].
Proof.
  refine (file_that_keeps_changing_is_not_reported Watcher.defaultConfig
            (Watcher.beginWatch [Sample.fileStub "a.md" 3 1] Watcher.initial)
            [Sample.tickAt Sample.acceptAll 750 [Sample.fileStub "a.md" 4 2];
             Sample.tickAt Sample.acceptAll 1500 [Sample.fileStub "a.md" 5 3];
             Sample.tickAt Sample.acceptAll 2250 [Sample.fileStub "a.md" 6 4]]
            "a.md" _ _ _ _).
  - apply LoopFacts.beginWatch_wf.
  - reflexivity.
  - repeat constructor; try apply sample_completes; reflexivity.
  - cbn. repeat (eexists; split; [reflexivity|split; [discriminate|]]). exact I.
Defined.

(** X18.  After a tick that ran to its end, every path with a pending write is
    in the snapshot, and the pending write records the modification time
    and the size the snapshot holds for it: what waits for the quiet
    window is always the state of the file last scanned.  No path has
    two pending writes. *)
Theorem pending_writes_follow_snapshot :
  forall (cfg : Watcher.Config) (env : Watcher.TickEnv) (e : Watcher.Engine),
    PathView.wf e ->
    PathView.completes env ->
    (forall p w,
        JsMap.get (Watcher.pendingWrites (fst (Watcher.pollTick cfg env e))) p = Some w ->
        JsMap.get (Watcher.snapshot (fst (Watcher.pollTick cfg env e))) p
        = Some (Watcher.mkInfo (Watcher.lastMtimeMs w) (Watcher.lastSize w)))
    /\ NoDup (JsMap.keys (Watcher.pendingWrites (fst (Watcher.pollTick cfg env e))))
    /\ NoDup (JsMap.keys (Watcher.snapshot (fst (Watcher.pollTick cfg env e)))).
Proof.
  intros cfg env e WF C. split.
  - intros p w H. now apply PendingFacts.in_sync_tick.
  - destruct (RunFacts.tick_view cfg env e "" WF C) as (_ & _ & _ & (W1 & W2) & _).
    split; assumption.
Qed.

Lemma pending_writes_follow_snapshot_witness :
  NoDup (JsMap.keys
           (Watcher.pendingWrites
              (fst (Watcher.pollTick Watcher.defaultConfig
                      (Sample.tickAt Sample.acceptAll 750 [Sample.fileStub "a.md" 4 2])
                      (Watcher.beginWatch [Sample.fileStub "a.md" 3 1]
                         Watcher.initial))))).
Proof.
  refine (proj1 (proj2 (pending_writes_follow_snapshot Watcher.defaultConfig
                          (Sample.tickAt Sample.acceptAll 750
                             [Sample.fileStub "a.md" 4 2])
                          (Watcher.beginWatch [Sample.fileStub "a.md" 3 1]
                             Watcher.initial) _ _))).
  - apply LoopFacts.beginWatch_wf.
  - apply sample_completes.
Defined.

(** ** The poll loop: stopping, and ticks that fail *)

Module FailFacts.
Import Watcher PathView.
Local Open Scope list_scope.

Lemma flushPending_keys cfg env next now ws :
forall q,
  (forall k, In k (JsMap.keys (fst (fst (fst (flushPending cfg env next now ws q)))))
             -> In k (JsMap.keys ws))
  /\ (NoDup (JsMap.keys ws) ->
      NoDup (JsMap.keys (fst (fst (fst (flushPending cfg env next now ws q)))))).
Proof.
unfold JsMap.keys.
induction ws as [|[p w] rest IH]; intros q; cbn [flushPending].
- cbn. split; [tauto|auto].
- destruct (flushDecision cfg next now p w).
  + destruct (IH q) as (S & N). split.
    * intros k Hk. right. now apply S.
    * intros ND. inversion ND; subst. now apply N.
  + destruct (IH q) as (S & N).
    destruct (flushPending cfg env next now rest q) as [[[ws' q'] evs] r].
    cbn [fst map] in *. split.
    * intros k [Hk|Hk]; [now left|right; now apply S].
    * intros ND. inversion ND as [|? ? N1 N2]; subst.
      constructor; [intros Hin; apply N1; now apply S|now apply N].
  + destruct (IH q) as (S & N).
    destruct (flushPending cfg env next now rest q) as [[[ws' q'] evs] r].
    cbn [fst map] in *. split.
    * intros k [Hk|Hk]; [now left|right; now apply S].
    * intros ND. inversion ND as [|? ? N1 N2]; subst.
      constructor; [intros Hin; apply N1; now apply S|now apply N].
  + destruct (IH q) as (S & N).
    destruct (flushPending cfg env next now rest q) as [[[ws' q'] evs] r].
    cbn [fst map] in *. split.
    * intros k [Hk|Hk]; [now left|right; now apply S].
    * intros ND. inversion ND as [|? ? N1 N2]; subst.
      constructor; [intros Hin; apply N1; now apply S|now apply N].
  + destruct (getFileStub env p) as [stub|].
    * destruct (Dispatcher.appendQueue (queueEnv env) [releaseEvent w stub] q)
        as [q1 [u|err]].
      -- destruct (IH q1) as (S & N).
         destruct (flushPending cfg env next now rest q1) as [[[ws' q'] evs] r].
         cbn [fst map] in *. split.
         ++ intros k Hk. right. now apply S.
         ++ intros ND. inversion ND; subst. now apply N.
      -- cbn [fst map]. split; auto.
    * destruct (IH q) as (S & N). split.
      -- intros k Hk. right. now apply S.
      -- intros ND. inversion ND; subst. now apply N.
Qed.

(** Every tick, also one that fails, keeps the tables well-formed. *)
Lemma pollTick_wf cfg env e : wf e -> wf (fst (pollTick cfg env e)).
Proof.
intros (W1 & W2). unfold pollTick.
destruct (getFiles env) as [files|err]; [|split; assumption].
destruct (detectDeletions _ _ _ _) as [[q1 dels] [u|err]]; [|split; assumption].
pose proof (TickFacts.detectChanges_NoDup env (snapshot e) (_scanSnapshot files)
              (pendingWrites e) W2) as D.
destruct (flushPending_keys cfg env (_scanSnapshot files) (dateNow env FlushNow)
            (JsMap.entries (detectChanges env (snapshot e) (_scanSnapshot files)
                              (pendingWrites e))) q1) as (_ & N).
specialize (N D).
destruct (flushPending _ _ _ _ _ _) as [[[pw2 q2] evs] [u'|err]]; cbn [fst] in *.
- split; cbn; [apply TickFacts.scanSnapshot_NoDup|exact N].
- split; cbn; [exact W1|exact N].
Qed.

End FailFacts.

(** X20.  A deletion is not lost to a tick that fails.  When a tick throws,
    wherever in the tick, the path stays in the snapshot, so the next
    tick that runs to its end and does not see the file reports the
    DELETE, with the size the snapshot held.  It does so also when the
    failed tick had handed a DELETE for the path to [appendQueue] before
    it threw: that deletion is then reported twice. *)
Theorem deletion_is_reported_after_failed_tick :
  forall (cfg : Watcher.Config) (e : Watcher.Engine) (env1 env2 : Watcher.TickEnv)
         (p : string) (i : Watcher.Info) (err : string),
    PathView.wf e ->
    JsMap.get (Watcher.snapshot e) p = Some i ->
    Watcher.caught (snd (Watcher.pollTick cfg env1 e)) = Some err ->
    PathView.completes env2 ->
    PathView.seen env2 p = None ->
    JsMap.get (Watcher.snapshot (fst (Watcher.pollTick cfg env1 e))) p = Some i
    /\ Watcher.eventsFor p
         (Watcher.submitted
            (snd (Watcher.pollTick cfg env2 (fst (Watcher.pollTick cfg env1 e)))))
       = [Watcher.deleteEvent env2 p i]
    /\ JsMap.get
         (Watcher.snapshot
            (fst (Watcher.pollTick cfg env2 (fst (Watcher.pollTick cfg env1 e))))) p
       = None.
Proof.
  intros cfg e env1 env2 p i err WF PS C1 C2 Sn.
  pose proof (PollFacts.pollTick_snapshot cfg env1 e) as S1. rewrite C1 in S1.
  pose proof (FailFacts.pollTick_wf cfg env1 e WF) as WF1.
  assert (PS1 : JsMap.get (Watcher.snapshot (fst (Watcher.pollTick cfg env1 e))) p
                = Some i) by (now rewrite S1).
  split; [exact PS1|].
  destruct (LoopFacts.gone_tick cfg env2 _ p i WF1 C2 PS1 Sn) as (HE & _ & HS).
  split; assumption.
Qed.

Lemma deletion_after_failed_tick_witness :
  Watcher.eventsFor "a.md"
    (Watcher.submitted
       (snd (Watcher.pollTick Watcher.defaultConfig
               (Sample.tickAt Sample.acceptAll 1500 [])
               (fst (Watcher.pollTick Watcher.defaultConfig (Sample.failingTick 750)
                       (Watcher.beginWatch [Sample.fileStub "a.md" 3 1]
                          Watcher.initial))))))
  = [Watcher.deleteEvent (Sample.tickAt Sample.acceptAll 1500 []) "a.md"
       (Watcher.mkInfo 1 3)].
Proof.
  refine (proj1 (proj2 (deletion_is_reported_after_failed_tick Watcher.defaultConfig
            (Watcher.beginWatch [Sample.fileStub "a.md" 3 1] Watcher.initial)
            (Sample.failingTick 750) (Sample.tickAt Sample.acceptAll 1500 [])
            "a.md" (Watcher.mkInfo 1 3) "EACCES" _ _ _ _ _))).
  - apply LoopFacts.beginWatch_wf.
  - reflexivity.
  - reflexivity.
  - apply sample_completes.
  - reflexivity.
Defined.



(** ** [appendQueue]: which events are enqueued *)

Module AppendFacts.
Import Dispatcher QueueView AppendView.
Local Open Scope list_scope.
Local Open Scope nat_scope.

(** One turn of the loop of [appendQueue], by whether the event passes. *)
Lemma appendParams_cons env ev rest s :
(forall e, isTargetFile (services env) (stub_path (ev_file ev)) <> Threw e) ->
appendParams env (ev :: rest) s
= if admits env ev
  then appendParams env rest
         (enqueue (mkQueueItem (ev_type ev) (ev_file ev) (ev_oldPath ev)
                     (ev_cachedData ev) (ev_skipBatchWait ev)
                     (randomKey (services env) (randomDraws s)))
            (snd (drawKey (services env) s)))
  else appendParams env rest s.
Proof.
intros T. cbn [appendParams]. unfold admits. cbn zeta.
destruct (shouldBeIgnored (services env) (stub_path (ev_file ev))); cbn [negb andb];
  [reflexivity|].
destruct (negb (isInternal (ev_type ev))
          && (isFileSizeTooLarge (services env) (ux_size (stub_stat (ev_file ev)))
              && isCreateOrChanged (ev_type ev))); cbn [negb andb];
  [reflexivity|].
destruct (isTargetFile (services env) (stub_path (ev_file ev))) as [[|]|e];
  cbn [andb]; [|reflexivity|now destruct (T e)].
destruct (isCreateOrChanged (ev_type ev) && _); reflexivity.
Qed.

Lemma appendParams_spec env params :
forall s,
  bufferedQueuedItems s = [] ->
  resolves env params ->
  snd (appendParams env params s) = Returned tt
  /\ bufferedQueuedItems (fst (appendParams env params s)) = []
  /\ map eventOf (pushedOf (trace (fst (appendParams env params s))))
     = map eventOf (pushedOf (trace s)) ++ filter (admits env) params
  /\ map (fun t => eventOf (t_item t)) (semWaiting (fst (appendParams env params s)))
     = map (fun t => eventOf (t_item t)) (semWaiting s) ++ filter (admits env) params
  /\ map t_id (semWaiting (fst (appendParams env params s)))
     = map t_id (semWaiting s)
       ++ seq (nextTask s) (List.length (filter (admits env) params))
  /\ map (fun t => qi_key (t_item t)) (semWaiting (fst (appendParams env params s)))
     = map (fun t => qi_key (t_item t)) (semWaiting s)
       ++ map (randomKey (services env))
              (seq (randomDraws s) (List.length (filter (admits env) params)))
  /\ processing (fst (appendParams env params s)) = processing s
  /\ semHeld (fst (appendParams env params s)) = semHeld s.
Proof.
induction params as [|ev rest IH]; intros s B Rs.
- cbn. rewrite !app_nil_r. repeat split; auto.
- assert (Rs' : resolves env rest).
  { intros x e Hx. apply Rs. now right. }
  rewrite appendParams_cons by (intros e; apply Rs; now left).
  cbn [filter]. destruct (admits env ev); [|exact (IH s B Rs')].
  unfold drawKey. cbn [snd].
  match goal with
  | |- context [enqueue ?it ?st] =>
      set (item := it); set (s1 := st);
      assert (B1 : bufferedQueuedItems s1 = []) by exact B;
      pose proof (QueueFacts.enqueue_idle item s1 B1) as E
  end.
  cbn [bufferedQueuedItems waitingMap semWaiting semHeld lockWaiting processing
       finishing resolved nextTask randomDraws idleWaits nextIdle trace s1] in E.
  rewrite E. clear E.
  match goal with
  | |- context [appendParams env rest ?st] =>
      set (s2 := st); specialize (IH s2 eq_refl Rs')
  end.
  destruct IH as (I1 & I2 & I3 & I4 & I5 & I6 & I7 & I8).
  cbn [bufferedQueuedItems waitingMap semWaiting semHeld lockWaiting processing
       finishing resolved nextTask randomDraws idleWaits nextIdle trace s2
       pushedOf] in I3, I4, I5, I6, I7, I8.
  cbn [List.length seq map].
  rewrite I3, I4, I5, I6, !map_app, <- !app_assoc.
  cbn [map app t_item t_id eventOf item qi_type qi_file qi_oldPath qi_cache
       qi_skipBatchWait qi_key].
  repeat split; auto; destruct ev; reflexivity.
Qed.

End AppendFacts.

(** X22.  When the settings are configured, file watching is not suspended and
    [isTargetFile] resolves, [appendQueue] enqueues those of the events
    that pass its filters, each once and in the order given, and nothing
    else.  An event passes when its path is not to be ignored, it is not
    a CREATE or CHANGED of a file that is too large, its path is a target
    and it is not a CREATE or CHANGED of a path touched less than 5000 ms
    before.  So a DELETE or INTERNAL event is enqueued whatever the size
    and however recently the path was touched.  The tasks get the next
    numbers and the keys of the next random draws; what is in process is
    not affected. *)
Theorem appendQueue_enqueues_what_passes_in_order :
  forall (env : Dispatcher.QueueEnv) (params : list FileEvent) (s : Dispatcher.State),
    Dispatcher.isConfigured (Dispatcher.services env) = true ->
    Dispatcher.suspendFileWatching (Dispatcher.services env) = false ->
    Dispatcher.bufferedQueuedItems s = [] ->
    AppendView.resolves env params ->
    snd (Dispatcher.appendQueue env params s) = Returned tt
    /\ map AppendView.eventOf
           (QueueView.pushedOf
              (Dispatcher.trace (fst (Dispatcher.appendQueue env params s))))
       = (map AppendView.eventOf (QueueView.pushedOf (Dispatcher.trace s))
          ++ filter (AppendView.admits env) params)%list
    /\ map (fun t => AppendView.eventOf (Dispatcher.t_item t))
           (Dispatcher.semWaiting (fst (Dispatcher.appendQueue env params s)))
       = (map (fun t => AppendView.eventOf (Dispatcher.t_item t))
              (Dispatcher.semWaiting s)
          ++ filter (AppendView.admits env) params)%list
    /\ map Dispatcher.t_id
           (Dispatcher.semWaiting (fst (Dispatcher.appendQueue env params s)))
       = (map Dispatcher.t_id (Dispatcher.semWaiting s)
          ++ seq (Dispatcher.nextTask s)
                 (List.length (filter (AppendView.admits env) params)))%list
    /\ map (fun t => qi_key (Dispatcher.t_item t))
           (Dispatcher.semWaiting (fst (Dispatcher.appendQueue env params s)))
       = (map (fun t => qi_key (Dispatcher.t_item t)) (Dispatcher.semWaiting s)
          ++ map (Dispatcher.randomKey (Dispatcher.services env))
                 (seq (Dispatcher.randomDraws s)
                      (List.length (filter (AppendView.admits env) params))))%list
    /\ Dispatcher.processing (fst (Dispatcher.appendQueue env params s))
       = Dispatcher.processing s
    /\ Dispatcher.semHeld (fst (Dispatcher.appendQueue env params s))
       = Dispatcher.semHeld s
    /\ (forall ev,
           isCreateOrChanged (ev_type ev) = false ->
           AppendView.admits env ev
           = negb (Dispatcher.shouldBeIgnored (Dispatcher.services env)
                     (stub_path (ev_file ev)))
             && match Dispatcher.isTargetFile (Dispatcher.services env)
                        (stub_path (ev_file ev)) with
                | Returned b => b
                | Threw _ => false
                end).
Proof.
  intros env params s C S B R.
  unfold Dispatcher.appendQueue. rewrite C, S. cbn [negb].
  destruct (AppendFacts.appendParams_spec env params
              (Dispatcher.log Dispatcher.OMarkFileListPossiblyChanged s) B R)
    as (I1 & I2 & I3 & I4 & I5 & I6 & I7 & I8).
  repeat split; auto.
  intros ev T. unfold AppendView.admits. rewrite T.
  rewrite !Bool.andb_false_r. cbn [negb andb].
  now rewrite !Bool.andb_true_r.
Qed.

Lemma appendQueue_enqueues_witness :
  snd (Dispatcher.appendQueue (Sample.quietQueue Sample.acceptAll 0)
         [Sample.changedEvent "a.md" 3 1; Sample.changedEvent "b.md" 4 1]
         Dispatcher.init)
  = Returned tt.
Proof.
  refine (proj1 (appendQueue_enqueues_what_passes_in_order
                   (Sample.quietQueue Sample.acceptAll 0)
                   [Sample.changedEvent "a.md" 3 1; Sample.changedEvent "b.md" 4 1]
                   Dispatcher.init _ _ _ _)).
  - reflexivity.
  - reflexivity.
  - reflexivity.
  - intros ev e _. discriminate.
Defined.

(** ** The queue: two events for one path, and working off the queue *)

Module DrainFacts.
Import Dispatcher QueueView QueueInv DrainView QueueFacts.
Local Open Scope list_scope.
Local Open Scope nat_scope.

(** While a task is live, the queue can take a step that brings a task
  forward. *)
Lemma progress limit s :
Inv limit s -> 1 <= limit -> live s <> [] ->
exists a s',
  isWork a = true /\ step limit s a = Some s' /\ backlog s' < backlog s.
Proof.
intros I L Lv.
destruct (finishing s) as [|[t ok] fr] eqn:F.
- destruct (processing s) as [|t pr] eqn:P.
  + destruct (lockWaiting s) as [|t lr] eqn:LW.
    * destruct (semWaiting s) as [|t sr] eqn:SW.
      -- exfalso. apply Lv. unfold live. now rewrite SW, LW, P, F.
      -- exists AGrant. eexists. split; [reflexivity|].
         cbn [step]. unfold semaphoreAdmit. rewrite SW.
         assert (H0 : semHeld s = 0).
         { rewrite (inv_sem I), LW, P, F. reflexivity. }
         assert (Lt : Nat.ltb (semHeld s) limit = true).
         { apply Nat.ltb_lt. lia. }
         rewrite Lt. split; [reflexivity|].
         unfold backlog. cbn [semWaiting lockWaiting processing finishing].
         rewrite SW, LW, P, F. cbn [List.length app]. lia.
    * exists (ABegin (t_id t)). eexists. split; [reflexivity|].
      cbn [step]. unfold serializedStart, headOfKey. rewrite LW, P.
      cbn [findTask existsb find]. rewrite Nat.eqb_refl.
      unfold sameFile at 1. rewrite String.eqb_refl, Nat.eqb_refl.
      split; [reflexivity|].
      unfold backlog. cbn [semWaiting lockWaiting processing finishing removeTask].
      rewrite Nat.eqb_refl, F, LW, P. cbn [List.length app]. lia.
  + exists (AFinish (t_id t) true). eexists. split; [reflexivity|].
    cbn [step]. rewrite P. cbn [findTask]. rewrite Nat.eqb_refl.
    split; [reflexivity|].
    unfold backlog. cbn [semWaiting lockWaiting processing finishing removeTask].
    rewrite Nat.eqb_refl, F, ?P. cbn [List.length app]. lia.
- exists (AResume (t_id t)). eexists. split; [reflexivity|].
  cbn [step]. rewrite F. cbn [findFinishing]. rewrite Nat.eqb_refl.
  rewrite runQueuedEvents_idle by (cbn; exact (inv_buf I)).
  unfold fireAndForget. split; [reflexivity|].
  unfold backlog. cbn [semWaiting lockWaiting processing finishing removeFinishing].
  rewrite Nat.eqb_refl, ?F. cbn [List.length]. lia.
Qed.

Lemma run_app limit acts1 :
forall acts2 s s1 s2,
  run limit s acts1 = Some s1 -> run limit s1 acts2 = Some s2 ->
  run limit s (acts1 ++ acts2) = Some s2.
Proof.
induction acts1 as [|a r IH]; intros acts2 s s1 s2 R1 R2; cbn [run app] in *.
- now inversion R1; subst.
- destruct (step limit s a) as [s'|]; [|discriminate]. eapply IH; eauto.
Qed.

Lemma drain limit n :
forall s,
  Inv limit s -> 1 <= limit -> backlog s <= n ->
  exists acts s',
    forallb isWork acts = true /\ run limit s acts = Some s' /\ live s' = [].
Proof.
induction n as [|n IH]; intros s I L B.
- exists [], s. split; [reflexivity|]. split; [reflexivity|].
  unfold backlog in B. unfold live.
  destruct (semWaiting s), (lockWaiting s), (processing s), (finishing s);
    cbn in *; try lia; reflexivity.
- destruct (live s) as [|t0 lv] eqn:Lv.
  + exists [], s. repeat split; auto.
  + destruct (progress limit s I L) as (a & s1 & W & St & Dec);
      [rewrite Lv; discriminate|].
    destruct (IH s1 (inv_step limit s a s1 I St) L) as (acts & s' & Wa & R & E);
      [lia|].
    exists (a :: acts), s'. split; [cbn; now rewrite W|]. split; [|exact E].
    cbn [run]. now rewrite St.
Qed.

Lemma live_remove_task id l t :
findTask id l = Some t ->
forall x, In x l -> x = t \/ In x (removeTask id l).
Proof.
induction l as [|y r IH]; cbn; [discriminate|].
destruct (Nat.eqb (t_id y) id).
- intros [= <-] x [<-|H]; auto.
- intros F x [<-|H]; [right; now left|].
  destruct (IH F x H); [auto|right; now right].
Qed.

Lemma In_removeFinishing id l t ok :
findFinishing id l = Some (t, ok) ->
forall x, In x (map fst l) -> x = t \/ In x (map fst (removeFinishing id l)).
Proof.
induction l as [|[y b] r IH]; cbn; [discriminate|].
destruct (Nat.eqb (t_id y) id).
- intros [= <- <-] x [<-|H]; auto.
- intros F x [<-|H]; [right; now left|].
  destruct (IH F x H); [auto|right; now right].
Qed.

Lemma owned_step limit s a s' :
Inv limit s -> owned s -> step limit s a = Some s' -> owned s'.
Proof.
intros I O H.
destruct a as [item| |id|id ok|id| |k]; cbn [step] in H;
  unfold semaphoreAdmit, serializedStart, fireAndForget in H.
- inversion H; subst. rewrite (enqueue_idle _ _ (inv_buf I)).
  intros file id. cbn [waitingMap]. unfold live.
  cbn [semWaiting lockWaiting processing finishing].
  destruct (String.eqb_spec (filename item) file) as [<-|N].
  + rewrite JsMapFacts.get_set_same. intros [= <-].
    exists (mkTask (nextTask s) item). rewrite !in_app_iff. cbn. auto.
  + rewrite JsMapFacts.get_set_other by exact N. intros G.
    destruct (O _ _ G) as (t & Ht & E1 & E2). exists t.
    unfold live in Ht. rewrite !in_app_iff in *. cbn. tauto.
- destruct (semWaiting s) as [|t rest] eqn:SW; [discriminate|].
  destruct (Nat.ltb _ _); [|discriminate]. inversion H; subst.
  intros file id G. cbn [waitingMap] in G.
  destruct (O _ _ G) as (x & Hx & E1 & E2). exists x.
  unfold live in *. cbn [semWaiting lockWaiting processing finishing].
  rewrite SW in Hx. rewrite !in_app_iff in *. cbn in *. tauto.
- destruct (findTask id (lockWaiting s)) as [t|] eqn:F; [|discriminate].
  destruct (existsb _ _); [discriminate|].
  destruct (headOfKey _ _); [|discriminate].
  destruct (Nat.eqb _ _); [|discriminate]. inversion H; subst.
  intros file id' G. cbn [waitingMap] in G.
  destruct (O _ _ G) as (x & Hx & E1 & E2). exists x.
  unfold live in *. cbn [semWaiting lockWaiting processing finishing].
  rewrite !in_app_iff in *. split; [|auto].
  destruct Hx as [Hx|[Hx|Hx]]; [tauto| |tauto].
  destruct (live_remove_task _ _ _ F x Hx) as [->|Hr]; cbn; tauto.
- destruct (findTask id (processing s)) as [t|] eqn:F; [|discriminate].
  inversion H; subst.
  intros file id' G. cbn [waitingMap] in G.
  destruct (O _ _ G) as (x & Hx & E1 & E2). exists x.
  unfold live in *. cbn [semWaiting lockWaiting processing finishing].
  rewrite map_app, !in_app_iff in *. split; [|auto].
  destruct Hx as [Hx|[Hx|[Hx|Hx]]]; [tauto|tauto| |tauto].
  destruct (live_remove_task _ _ _ F x Hx) as [->|Hr]; cbn; tauto.
- destruct (findFinishing id (finishing s)) as [[t ok]|] eqn:F; [|discriminate].
  inversion H; subst. rewrite runQueuedEvents_idle by (cbn; exact (inv_buf I)).
  intros file id' G. cbn [waitingMap] in G.
  destruct (String.eqb_spec (taskFile t) file) as [<-|N].
  + rewrite JsMapFacts.get_delete_same in G. discriminate.
  + rewrite JsMapFacts.get_delete_other in G by exact N.
    destruct (O _ _ G) as (x & Hx & E1 & E2). exists x.
    unfold live in *. cbn [semWaiting lockWaiting processing finishing].
    rewrite !in_app_iff in *. split; [|auto].
    destruct Hx as [Hx|[Hx|[Hx|Hx]]]; [tauto|tauto|tauto|].
    destruct (In_removeFinishing _ _ _ _ F x Hx) as [->|Hr]; [congruence|tauto].
- inversion H; subst. exact O.
- destruct (lookupIdle _ _); [|discriminate].
  destruct (forallb _ _); [|discriminate]. inversion H; subst. exact O.
Qed.

Lemma owned_run limit acts :
forall s s', Inv limit s -> owned s -> run limit s acts = Some s' -> owned s'.
Proof.
induction acts as [|a r IH]; cbn [run]; intros s s' I O H.
- now inversion H; subst.
- destruct (step limit s a) as [s1|] eqn:E; [|discriminate].
  apply (IH s1 s' (inv_step _ _ _ _ I E)); [|exact H].
  eapply owned_step; eauto.
Qed.

Lemma owned_init : owned init.
Proof. intros file id G. discriminate. Qed.

Lemma owned_drained s : owned s -> live s = [] -> waitingMap s = [].
Proof.
intros O E. destruct (waitingMap s) as [|[k v] r] eqn:W; [reflexivity|].
destruct (O k v) as (t & Ht & _).
- rewrite W. cbn. now rewrite String.eqb_refl.
- rewrite E in Ht. destruct Ht.
Qed.

Lemma work_enqueues_nothing acts :
forallb isWork acts = true -> enqueuedItems acts = [].
Proof.
induction acts as [|a r IH]; [reflexivity|]. cbn [forallb]. intros H.
apply andb_prop in H. destruct H as (Wa & Wr).
destruct a; try discriminate; cbn [enqueuedItems]; now apply IH.
Qed.

End DrainFacts.

(** X24.  The queue does not get stuck.  From every state a run reaches, with
    at least one slot in the semaphore, the tasks can be worked off by
    grants of the semaphore, starts, ends and resumptions alone, with no
    further event enqueued: the run goes on to a state in which no task
    is left waiting or in process, every task the state had has had its
    [processFileEvent] call end, and [waitForIdle] called then resolves
    at once. *)
Theorem queue_can_always_be_worked_off :
  forall (limit : nat) (acts : list Dispatcher.Action) (s : Dispatcher.State),
    (1 <= limit)%nat ->
    Dispatcher.run limit Dispatcher.init acts = Some s ->
    exists acts' s',
      forallb DrainView.isWork acts' = true
      /\ Dispatcher.run limit Dispatcher.init (acts ++ acts')%list = Some s'
      /\ QueueView.live s' = []
      /\ Dispatcher.semHeld s' = 0%nat
      /\ (forall t, In t (QueueView.allTasks s) ->
                    exists ok, In (Dispatcher.OEnd t ok) (Dispatcher.trace s'))
      /\ QueueView.enqueuedItems (acts ++ acts')%list = QueueView.enqueuedItems acts
      /\ exists s1 s2,
           Dispatcher.step limit s' Dispatcher.AWaitForIdle = Some s1
           /\ Dispatcher.step limit s1 (Dispatcher.AIdleDone (Dispatcher.nextIdle s'))
              = Some s2.
Proof.
  intros limit acts s L R.
  pose proof (QueueFacts.inv_run limit acts _ _ (QueueFacts.inv_init limit) R) as I.
  destruct (DrainFacts.drain limit (DrainView.backlog s) s I L (le_n _))
    as (acts' & s' & W & R' & E).
  pose proof (QueueFacts.inv_run limit acts' _ _ I R') as I'.
  exists acts', s'. split; [exact W|].
  split; [eapply DrainFacts.run_app; eauto|]. split; [exact E|].
  assert (Parts : Dispatcher.semWaiting s' = [] /\ Dispatcher.lockWaiting s' = []
                  /\ Dispatcher.processing s' = [] /\ Dispatcher.finishing s' = []).
  { unfold QueueView.live in E.
    destruct (Dispatcher.semWaiting s'), (Dispatcher.lockWaiting s'),
             (Dispatcher.processing s'), (Dispatcher.finishing s');
      cbn in E; try discriminate; auto. }
  destruct Parts as (P1 & P2 & P3 & P4).
  split; [rewrite (QueueInv.inv_sem I'), P2, P3, P4; reflexivity|].
  split.
  - intros t Ht.
    assert (T' : In t (QueueView.allTasks s')).
    { apply (QueueInv.inv_shifted I').
      apply (QueueFacts.trace_run limit acts' s s' I R').
      now apply (QueueInv.inv_created I). }
    unfold QueueView.allTasks, QueueView.started in T'.
    rewrite P1, P2, P3, P4 in T'. cbn [app map] in T'.
    apply QueueFacts.In_fst_ex in T'. destruct T' as (ok & Hr).
    exists ok. apply (QueueInv.inv_ended I'). apply in_or_app. now right.
  - split.
    + clear -W. induction acts as [|a r IH]; cbn [app].
      * now apply DrainFacts.work_enqueues_nothing.
      * destruct a; cbn [QueueView.enqueuedItems]; now rewrite ?IH.
    + pose proof (DrainFacts.owned_run limit (acts ++ acts')%list _ _
                    (QueueFacts.inv_init limit) DrainFacts.owned_init
                    (DrainFacts.run_app limit acts acts' _ _ _ R R')) as O.
      pose proof (DrainFacts.owned_drained s' O E) as Wm.
      cbn [Dispatcher.step]. rewrite Wm. eexists. eexists. split; [reflexivity|].
      cbn [Dispatcher.lookupIdle Dispatcher.idleWaits]. rewrite Nat.eqb_refl.
      reflexivity.
Qed.

Lemma queue_can_be_worked_off_witness :
  exists acts' s',
    forallb DrainView.isWork acts' = true
    /\ Dispatcher.run 5 Dispatcher.init (QueueSample.sevenPaths ++ acts')%list = Some s'
    /\ QueueView.live s' = [].
Proof.
  destruct (queue_can_always_be_worked_off 5 QueueSample.sevenPaths
              (QueueSample.stateAfter 5 QueueSample.sevenPaths))
    as (acts' & s' & W & R & E & _).
  - repeat constructor.
  - vm_compute. reflexivity.
  - exists acts', s'. auto.
Defined.



(** Two files are deleted; [isTargetFile] rejects for the second, so the
    tick fails after it handed the DELETE of the first to [appendQueue].
    The next tick hands over both: the queue then holds the DELETE of
    the first file twice. *)
Example deletion_reported_twice :
  let e := Watcher.beginWatch [Sample.fileStub "a.md" 3 1; Sample.fileStub "b.md" 4 1]
             Watcher.initial in
  let r1 := Watcher.pollTick Watcher.defaultConfig (Rejecting.tickAt "b.md" 750 []) e in
  let r2 := Watcher.pollTick Watcher.defaultConfig
              (Sample.tickAt Sample.acceptAll 1500 []) (fst r1) in
  Watcher.caught (snd r1) = Some "rejected"
  /\ map (fun ev => (ev_type ev, stub_path (ev_file ev))) (Watcher.submitted (snd r1))
     = [(DELETE, "a.md"); (DELETE, "b.md")]
  /\ map (fun ev => (ev_type ev, stub_path (ev_file ev))) (Watcher.submitted (snd r2))
     = [(DELETE, "a.md"); (DELETE, "b.md")]
  /\ map (fun t => (qi_type (Dispatcher.t_item t), Dispatcher.taskFile t))
         (Dispatcher.semWaiting (Watcher.queue (fst r2)))
     = [(DELETE, "a.md"); (DELETE, "a.md"); (DELETE, "b.md")].
Proof. vm_compute. repeat split; reflexivity. Qed.

(** ** [ModuleFileAccessNode]: touched markers *)

(** X13.  The touched markers are kept by path, as the string given: marking a
    path does not change the answer for another one, a later mark
    replaces the earlier, and after [clearTouched] no path counts as
    touched.  A path that was never marked does not count as touched.
    The answer depends only on the difference of the clock readings, so
    a mark made at a later reading than the one of the test counts too. *)
Theorem touched_markers_by_path :
  forall (tm : FileAccess.TouchedMap) (t1 t2 now : Z) (p q : string),
    (q <> p ->
     FileAccess.recentlyTouched (FileAccess.touched tm t1 p) now q
     = FileAccess.recentlyTouched tm now q)
    /\ FileAccess.recentlyTouched
         (FileAccess.touched (FileAccess.touched tm t1 p) t2 p) now p
       = FileAccess.recentlyTouched (FileAccess.touched tm t2 p) now p
    /\ FileAccess.recentlyTouched (FileAccess.touched tm t2 p) now p
       = negb (t2 =? 0)%Z && (now - t2 <? 5000)%Z
    /\ FileAccess.recentlyTouched (FileAccess.clearTouched tm) now p = false
    /\ (JsMap.get tm p = None -> FileAccess.recentlyTouched tm now p = false)
    /\ (t2 <> 0%Z -> (now <= t2)%Z ->
        FileAccess.recentlyTouched (FileAccess.touched tm t2 p) now p = true).
Proof.
  intros tm t1 t2 now p q.
  pose proof (DispatcherFacts.recentlyTouched_after_touched tm t2 now p) as R2.
  split; [|split; [|split; [|split; [|split]]]].
  - intros N. unfold FileAccess.recentlyTouched, FileAccess.touched.
    rewrite JsMapFacts.get_set_other by congruence. reflexivity.
  - rewrite R2. apply DispatcherFacts.recentlyTouched_after_touched.
  - exact R2.
  - reflexivity.
  - intros G. unfold FileAccess.recentlyTouched. now rewrite G.
  - intros N L. rewrite R2.
    destruct (Z.eqb_spec t2 0); [contradiction|]. cbn [negb andb].
    apply Z.ltb_lt. unfold FileAccess.touchedTtlMs. lia.
Qed.

(** ** The poll loop: a write released when the file cannot be found *)

(** X19.  When a pending write has waited long enough but [getFileStub] does
    not find the file at that moment, the tick drops the pending write
    and hands nothing to [appendQueue]; as the snapshot holds the file
    by then, the ticks after it, which see the file unchanged, report
    nothing either.  The write is lost to the queue. *)
Theorem write_without_stub_is_dropped :
  forall (cfg : Watcher.Config) (e : Watcher.Engine) (env : Watcher.TickEnv)
         (rest : list Watcher.TickEnv) (p : string) (cur : Watcher.Info)
         (w : Watcher.PendingWrite),
    PathView.wf e ->
    Watcher.running e = true ->
    JsMap.get (Watcher.snapshot e) p = Some cur ->
    JsMap.get (Watcher.pendingWrites e) p = Some w ->
    Watcher.mtimeMs cur = Watcher.lastMtimeMs w ->
    Watcher.size cur = Watcher.lastSize w ->
    Forall (fun env => PathView.completes env /\ PathView.seen env p = Some cur)
           (env :: rest) ->
    PathView.due cfg (Watcher.dateNow env Watcher.FlushNow) w = true ->
    Watcher.getFileStub env p = None ->
    JsMap.get (Watcher.pendingWrites (fst (Watcher.pollTick cfg env e))) p = None
    /\ Watcher.eventsFor p
         (PathView.loopSubmitted (snd (Watcher._pollLoop cfg (env :: rest) e))) = [].
Proof.
  intros cfg e env rest p cur w WF R PS PW M S F Du G.
  inversion F as [|? ? [C Sn] F']; subst.
  destruct (RunFacts.stable_tick cfg env e p cur w WF C PS PW M S Sn) as (HP & HE).
  rewrite Du in HP, HE. rewrite G in HE.
  split; [exact HP|].
  change (RunView.reported cfg (env :: rest) e p = []).
  rewrite LoopFacts.reported_tick by exact R. rewrite HE. cbn [app].
  destruct (RunFacts.tick_view cfg env e p WF C) as (_ & _ & HS & HW & _).
  destruct (LoopFacts.afterSleep_get env (fst (Watcher.pollTick cfg env e)))
    as (A1 & A2 & _).
  apply (LoopFacts.quiet_reported cfg p cur rest); auto.
  - now apply RunFacts.afterSleep_wf.
  - rewrite A1, HS. exact Sn.
  - now rewrite A2.
Qed.

Lemma write_without_stub_witness :
  Watcher.eventsFor "a.md"
    (PathView.loopSubmitted
       (snd (Watcher._pollLoop Watcher.defaultConfig
               [Watcher.mkTickEnv (Returned [Sample.fileStub "a.md" 3 1])
                  (fun _ => None) (fun _ => 2000)
                  (Sample.quietQueue Sample.acceptAll 2000) false]
               (Watcher.mkEngine [("a.md", Watcher.mkInfo 1 3)]
                  [("a.md", Watcher.mkPending Watcher.KChanged 1 3 0 0)]
                  true Dispatcher.init))))
  = [].
Proof.
  refine (proj2 (write_without_stub_is_dropped Watcher.defaultConfig
            (Watcher.mkEngine [("a.md", Watcher.mkInfo 1 3)]
               [("a.md", Watcher.mkPending Watcher.KChanged 1 3 0 0)]
               true Dispatcher.init)
            (Watcher.mkTickEnv (Returned [Sample.fileStub "a.md" 3 1])
               (fun _ => None) (fun _ => 2000)
               (Sample.quietQueue Sample.acceptAll 2000) false)
            [] "a.md" (Watcher.mkInfo 1 3)
            (Watcher.mkPending Watcher.KChanged 1 3 0 0) _ _ _ _ _ _ _ _ _)).
  - split; repeat constructor; intros [].
  - reflexivity.
  - reflexivity.
  - reflexivity.
  - reflexivity.
  - reflexivity.
  - repeat constructor.
    + eexists. reflexivity.
    + intros p e. discriminate.
    + intros q s. discriminate.
  - reflexivity.
  - reflexivity.
Defined.

(** ** [ModuleKeyValueDBNode]: the simple store *)

Module StoreFacts.
Import SimpleStore.

Lemma startsWith_append p k : startsWith (p ++ k) p = true.
Proof.
induction p as [|c r IH]; cbn; [reflexivity|].
now rewrite Ascii.eqb_refl, IH.
Qed.

Lemma startsWith_split e p :
startsWith e p = true -> e = (p ++ substringFrom (String.length p) e)%string.
Proof.
revert e. induction p as [|c r IH]; intros e; cbn; [reflexivity|].
destruct e as [|d e']; [discriminate|]. intros H.
apply andb_prop in H. destruct H as (C & R).
apply Ascii.eqb_eq in C. subst d. cbn. f_equal. now apply IH.
Qed.

Lemma substringFrom_append p k : substringFrom (String.length p) (p ++ k) = k.
Proof. induction p as [|c r IH]; cbn; [reflexivity|exact IH]. Qed.

End StoreFacts.


(** ** [appendQueue]: a rejection in the middle of a batch, and what a
       tick enqueues *)

Module BatchFacts.
Import Dispatcher QueueView AppendView.
Local Open Scope list_scope.

Lemma appendParams_app env l1 l2 :
forall s,
  appendParams env (l1 ++ l2) s
  = match appendParams env l1 s with
    | (s1, Returned _) => appendParams env l2 s1
    | (s1, Threw e) => (s1, Threw e)
    end.
Proof.
induction l1 as [|ev r IH]; intros s; [reflexivity|].
cbn [app appendParams].
destruct (shouldBeIgnored _ _); [apply IH|].
destruct (negb _ && _); [apply IH|].
destruct (isTargetFile _ _) as [[|]|e]; [|apply IH|reflexivity].
destruct (isCreateOrChanged _ && _); [apply IH|].
destruct (drawKey _ _) as [k s1]. apply IH.
Qed.

Lemma appendParams_rejects env ev rest s e :
shouldBeIgnored (services env) (stub_path (ev_file ev)) = false ->
negb (isInternal (ev_type ev))
&& (isFileSizeTooLarge (services env) (ux_size (stub_stat (ev_file ev)))
    && isCreateOrChanged (ev_type ev)) = false ->
isTargetFile (services env) (stub_path (ev_file ev)) = Threw e ->
appendParams env (ev :: rest) s = (s, Threw e).
Proof.
intros I L T. cbn [appendParams]. now rewrite I, L, T.
Qed.

(** [appendQueue] of one event, in a queue whose buffer is empty. *)
Lemma appendQueue_one env ev q :
isConfigured (services env) = true ->
suspendFileWatching (services env) = false ->
bufferedQueuedItems q = [] ->
(forall e, isTargetFile (services env) (stub_path (ev_file ev)) <> Threw e) ->
snd (appendQueue env [ev] q) = Returned tt
/\ bufferedQueuedItems (fst (appendQueue env [ev] q)) = []
/\ map eventOf (pushedOf (trace (fst (appendQueue env [ev] q))))
   = map eventOf (pushedOf (trace q)) ++ filter (admits env) [ev].
Proof.
intros C S B R. unfold appendQueue. rewrite C, S. cbn [negb].
destruct (AppendFacts.appendParams_spec env [ev]
            (log OMarkFileListPossiblyChanged q) B) as (I1 & I2 & I3 & _).
- intros x e [<-|[]]. apply R.
- auto.
Qed.

End BatchFacts.

(** X26.  When [isTargetFile] rejects for an event of a batch, [appendQueue]
    rejects with the same error.  The events before it that passed the
    filters are enqueued and stay so; the event itself and all events
    after it in the batch are not looked at, whether they would have
    passed or not. *)
Theorem appendQueue_rejection_keeps_earlier_events :
  forall (env : Dispatcher.QueueEnv) (before after : list FileEvent) (ev : FileEvent)
         (s : Dispatcher.State) (e : string),
    Dispatcher.isConfigured (Dispatcher.services env) = true ->
    Dispatcher.suspendFileWatching (Dispatcher.services env) = false ->
    Dispatcher.bufferedQueuedItems s = [] ->
    AppendView.resolves env before ->
    Dispatcher.shouldBeIgnored (Dispatcher.services env) (stub_path (ev_file ev)) = false ->
    negb (isInternal (ev_type ev))
    && (Dispatcher.isFileSizeTooLarge (Dispatcher.services env)
          (ux_size (stub_stat (ev_file ev)))
        && isCreateOrChanged (ev_type ev)) = false ->
    Dispatcher.isTargetFile (Dispatcher.services env) (stub_path (ev_file ev)) = Threw e ->
    Dispatcher.appendQueue env (before ++ ev :: after)%list s
    = (fst (Dispatcher.appendQueue env before s), Threw e)
    /\ map AppendView.eventOf
           (QueueView.pushedOf
              (Dispatcher.trace
                 (fst (Dispatcher.appendQueue env (before ++ ev :: after)%list s))))
       = (map AppendView.eventOf (QueueView.pushedOf (Dispatcher.trace s))
          ++ filter (AppendView.admits env) before)%list.
Proof.
  intros env before after ev s e C S B R I L T.
  assert (E : Dispatcher.appendQueue env (before ++ ev :: after)%list s
              = (fst (Dispatcher.appendQueue env before s), Threw e)).
  { unfold Dispatcher.appendQueue. rewrite C, S. cbn [negb].
    rewrite BatchFacts.appendParams_app.
    destruct (AppendFacts.appendParams_spec env before
                (Dispatcher.log Dispatcher.OMarkFileListPossiblyChanged s) B R)
      as (I1 & _).
    destruct (Dispatcher.appendParams env before _) as [s1 r]. cbn [fst snd] in *.
    subst r. now apply BatchFacts.appendParams_rejects. }
  split; [exact E|]. rewrite E. cbn [fst].
  unfold Dispatcher.appendQueue. rewrite C, S. cbn [negb].
  destruct (AppendFacts.appendParams_spec env before
              (Dispatcher.log Dispatcher.OMarkFileListPossiblyChanged s) B R)
    as (_ & _ & I3 & _).
  exact I3.
Qed.

Lemma appendQueue_rejection_witness :
  Dispatcher.appendQueue (Sample.quietQueue (Rejecting.services "b.md") 0)
    ([Sample.changedEvent "a.md" 3 1]
     ++ Sample.changedEvent "b.md" 4 1 :: [Sample.changedEvent "c.md" 5 1])%list
    Dispatcher.init
  = (fst (Dispatcher.appendQueue (Sample.quietQueue (Rejecting.services "b.md") 0)
            [Sample.changedEvent "a.md" 3 1] Dispatcher.init),
     Threw "rejected").
Proof.
  refine (proj1 (appendQueue_rejection_keeps_earlier_events
                   (Sample.quietQueue (Rejecting.services "b.md") 0)
                   [Sample.changedEvent "a.md" 3 1] [Sample.changedEvent "c.md" 5 1]
                   (Sample.changedEvent "b.md" 4 1) Dispatcher.init "rejected"
                   _ _ _ _ _ _ _)).
  - reflexivity.
  - reflexivity.
  - reflexivity.
  - intros ev e [<-|[]]. discriminate.
  - reflexivity.
  - reflexivity.
  - reflexivity.
Defined.

Module TickQueueFacts.
Import Watcher PathView AppendView.
Local Open Scope list_scope.

Lemma detectDeletions_queue env next prev :
Dispatcher.isConfigured (Dispatcher.services (queueEnv env)) = true ->
Dispatcher.suspendFileWatching (Dispatcher.services (queueEnv env)) = false ->
noReject env ->
forall q,
  Dispatcher.bufferedQueuedItems q = [] ->
  snd (detectDeletions env next prev q) = Returned tt
  /\ Dispatcher.bufferedQueuedItems (fst (fst (detectDeletions env next prev q))) = []
  /\ map eventOf
         (QueueView.pushedOf
            (Dispatcher.trace (fst (fst (detectDeletions env next prev q)))))
     = map eventOf (QueueView.pushedOf (Dispatcher.trace q))
       ++ filter (admits (queueEnv env)) (snd (fst (detectDeletions env next prev q))).
Proof.
intros C S NR. induction prev as [|[p i] rest IH]; intros q B; cbn [detectDeletions].
- cbn. now rewrite app_nil_r.
- destruct (negb (JsMap.has next p)); [|now apply IH].
  destruct (BatchFacts.appendQueue_one (queueEnv env) (deleteEvent env p i) q C S B)
    as (A1 & A2 & A3); [intros e; apply NR|].
  destruct (Dispatcher.appendQueue (queueEnv env) [deleteEvent env p i] q) as [q1 r].
  cbn [fst snd] in *. subst r.
  destruct (IH q1 A2) as (I1 & I2 & I3).
  destruct (detectDeletions env next rest q1) as [[q2 evs] r2]. cbn [fst snd] in *.
  split; [exact I1|]. split; [exact I2|].
  rewrite I3, A3. cbn [filter]. rewrite <- app_assoc. f_equal.
  destruct (admits (queueEnv env) (deleteEvent env p i)); reflexivity.
Qed.

Lemma flushPending_queue cfg env next now ws :
Dispatcher.isConfigured (Dispatcher.services (queueEnv env)) = true ->
Dispatcher.suspendFileWatching (Dispatcher.services (queueEnv env)) = false ->
noReject env ->
forall q,
  Dispatcher.bufferedQueuedItems q = [] ->
  snd (flushPending cfg env next now ws q) = Returned tt
  /\ Dispatcher.bufferedQueuedItems (snd (fst (fst (flushPending cfg env next now ws q))))
     = []
  /\ map eventOf
         (QueueView.pushedOf
            (Dispatcher.trace (snd (fst (fst (flushPending cfg env next now ws q))))))
     = map eventOf (QueueView.pushedOf (Dispatcher.trace q))
       ++ filter (admits (queueEnv env))
            (snd (fst (flushPending cfg env next now ws q))).
Proof.
intros C S NR. induction ws as [|[p w] rest IH]; intros q B; cbn [flushPending].
- cbn. now rewrite app_nil_r.
- destruct (flushDecision cfg next now p w).
  + now apply IH.
  + destruct (IH q B) as (I1 & I2 & I3).
    destruct (flushPending cfg env next now rest q) as [[[ws' q'] evs] r].
    cbn [fst snd] in *. auto.
  + destruct (IH q B) as (I1 & I2 & I3).
    destruct (flushPending cfg env next now rest q) as [[[ws' q'] evs] r].
    cbn [fst snd] in *. auto.
  + destruct (IH q B) as (I1 & I2 & I3).
    destruct (flushPending cfg env next now rest q) as [[[ws' q'] evs] r].
    cbn [fst snd] in *. auto.
  + destruct (getFileStub env p) as [stub|]; [|now apply IH].
    destruct (BatchFacts.appendQueue_one (queueEnv env) (releaseEvent w stub) q C S B)
      as (A1 & A2 & A3); [intros e; apply NR|].
    destruct (Dispatcher.appendQueue (queueEnv env) [releaseEvent w stub] q) as [q1 r].
    cbn [fst snd] in *. subst r.
    destruct (IH q1 A2) as (I1 & I2 & I3).
    destruct (flushPending cfg env next now rest q1) as [[[ws' q'] evs] r2].
    cbn [fst snd] in *.
    split; [exact I1|]. split; [exact I2|].
    rewrite I3, A3. cbn [filter]. rewrite <- app_assoc. f_equal.
    destruct (admits (queueEnv env) (releaseEvent w stub)); reflexivity.
Qed.

Lemma detectDeletions_types env next prev :
forall q,
  Forall (fun ev => ev_type ev = DELETE) (snd (fst (detectDeletions env next prev q))).
Proof.
induction prev as [|[p i] rest IH]; intros q; cbn [detectDeletions].
- constructor.
- destruct (negb (JsMap.has next p)); [|apply IH].
  destruct (Dispatcher.appendQueue (queueEnv env) [deleteEvent env p i] q)
    as [q1 [u|err]].
  + specialize (IH q1).
    destruct (detectDeletions env next rest q1) as [[q2 evs] r2]. cbn [fst snd] in *.
    constructor; [reflexivity|exact IH].
  + cbn. constructor; [reflexivity|constructor].
Qed.

Lemma flushPending_types cfg env next now ws :
forall q,
  Forall (fun ev => isCreateOrChanged (ev_type ev) = true)
         (snd (fst (flushPending cfg env next now ws q))).
Proof.
induction ws as [|[p w] rest IH]; intros q; cbn [flushPending].
- constructor.
- destruct (flushDecision cfg next now p w).
  + apply IH.
  + specialize (IH q).
    destruct (flushPending cfg env next now rest q) as [[[ws' q'] evs] r]. exact IH.
  + specialize (IH q).
    destruct (flushPending cfg env next now rest q) as [[[ws' q'] evs] r]. exact IH.
  + specialize (IH q).
    destruct (flushPending cfg env next now rest q) as [[[ws' q'] evs] r]. exact IH.
  + destruct (getFileStub env p) as [stub|]; [|apply IH].
    assert (K : isCreateOrChanged (ev_type (releaseEvent w stub)) = true)
      by (cbn; destruct (kind w); reflexivity).
    destruct (Dispatcher.appendQueue (queueEnv env) [releaseEvent w stub] q)
      as [q1 [u|err]].
    * specialize (IH q1).
      destruct (flushPending cfg env next now rest q1) as [[[ws' q'] evs] r2].
      cbn [fst snd] in *. constructor; [exact K|exact IH].
    * cbn. constructor; [exact K|constructor].
Qed.

End TickQueueFacts.

(** X27.  What a tick hands to [appendQueue] and what reaches the queue: when
    the settings are configured, file watching is not suspended and
    [isTargetFile] resolves, the items a tick enqueues are, in order, the
    events it handed over that pass the filters of [appendQueue], the
    DELETE events first.  This holds also for a tick whose enumeration
    of the vault throws, which hands over nothing. *)
Theorem tick_enqueues_what_it_submits :
  forall (cfg : Watcher.Config) (env : Watcher.TickEnv) (e : Watcher.Engine),
    Dispatcher.isConfigured (Dispatcher.services (Watcher.queueEnv env)) = true ->
    Dispatcher.suspendFileWatching (Dispatcher.services (Watcher.queueEnv env)) = false ->
    PathView.noReject env ->
    Dispatcher.bufferedQueuedItems (Watcher.queue e) = [] ->
    Dispatcher.bufferedQueuedItems (Watcher.queue (fst (Watcher.pollTick cfg env e))) = []
    /\ map AppendView.eventOf
           (QueueView.pushedOf
              (Dispatcher.trace (Watcher.queue (fst (Watcher.pollTick cfg env e)))))
       = (map AppendView.eventOf
              (QueueView.pushedOf (Dispatcher.trace (Watcher.queue e)))
          ++ filter (AppendView.admits (Watcher.queueEnv env))
               (Watcher.submitted (snd (Watcher.pollTick cfg env e))))%list
    /\ exists dels evs,
         Watcher.submitted (snd (Watcher.pollTick cfg env e)) = (dels ++ evs)%list
         /\ Forall (fun ev => ev_type ev = DELETE) dels
         /\ Forall (fun ev => isCreateOrChanged (ev_type ev) = true) evs.
Proof.
  intros cfg env e C S NR B. unfold Watcher.pollTick.
  destruct (Watcher.getFiles env) as [files|err].
  2:{ cbn. rewrite app_nil_r. split; [exact B|]. split; [reflexivity|].
      exists [], []. repeat split; constructor. }
  destruct (TickQueueFacts.detectDeletions_queue env (Watcher._scanSnapshot files)
              (JsMap.entries (Watcher.snapshot e)) C S NR (Watcher.queue e) B)
    as (D1 & D2 & D3).
  pose proof (TickQueueFacts.detectDeletions_types env (Watcher._scanSnapshot files)
                (JsMap.entries (Watcher.snapshot e)) (Watcher.queue e)) as DT.
  destruct (Watcher.detectDeletions env _ _ _) as [[q1 dels] r1].
  cbn [fst snd] in *. subst r1.
  match goal with
  | |- context [Watcher.flushPending cfg env ?nx ?nw ?ws q1] =>
      destruct (TickQueueFacts.flushPending_queue cfg env nx nw ws C S NR q1 D2)
        as (F1 & F2 & F3);
      pose proof (TickQueueFacts.flushPending_types cfg env nx nw ws q1) as FT;
      destruct (Watcher.flushPending cfg env nx nw ws q1) as [[[pw2 q2] evs] r2]
  end.
  cbn [fst snd] in *. subst r2. cbn [fst snd Watcher.queue Watcher.submitted].
  split; [exact F2|]. split.
  - rewrite F3, D3, filter_app, <- app_assoc. reflexivity.
  - exists dels, evs. auto.
Qed.

Lemma tick_enqueues_witness :
  Dispatcher.bufferedQueuedItems
    (Watcher.queue
       (fst (Watcher.pollTick Watcher.defaultConfig
               (Sample.tickAt Sample.acceptAll 750 [])
               (Watcher.beginWatch [Sample.fileStub "a.md" 3 1] Watcher.initial))))
  = [].
Proof.
  refine (proj1 (tick_enqueues_what_it_submits Watcher.defaultConfig
                   (Sample.tickAt Sample.acceptAll 750 [])
                   (Watcher.beginWatch [Sample.fileStub "a.md" 3 1] Watcher.initial)
                   _ _ _ _)).
  - reflexivity.
  - reflexivity.
  - apply sample_noReject.
  - reflexivity.
Defined.
